(** * NodeModal: the node-content dialog of the JSON graph editor

    A shallow embedding of [src/features/modals/NodeModal/index.tsx]:
    [normalizeNodeData], [jsonPathToString], [updateJsonAtPath] and the
    handlers of the [NodeModal] component, together with the part of the
    ECMAScript runtime they rest on ([JSON.parse], [JSON.stringify],
    property reads and writes on parsed JSON values).

    Conventions of the model.
    - A JavaScript string is a list of UTF-16 code units.
    - A number is an exact decimal (sign, significant digits, exponent).
      Rounding of in-range literals to binary64 is not modelled; overflow
      to [Infinity] is, because [JSON.stringify] renders it as [null].
      The sign of zero is not modelled.
    - Objects keep their own properties in ECMAScript order: array-index
      keys ascending, then the other keys in creation order.
    - The built-in prototypes are the standard ones.  A read that would be
      answered by a built-in prototype rather than by the value itself
      yields a host value that is not JSON; the model records such a step
      as [HostDefined] and says nothing more about it.
    - Resource limits of the engine (string length, recursion depth) are
      not modelled. *)

From Stdlib Require Import String Ascii List NArith ZArith Lia Bool.
From Stdlib Require Import DecimalN DecimalPos.
Import ListNotations.

Set Implicit Arguments.

(* ================================================================== *)
(** * Strings *)
(* ================================================================== *)

(** UTF-16 code units. *)
Definition jsstring := list N.

Abbreviation TAB := 9%N (only parsing).
Abbreviation LF := 10%N (only parsing).
Abbreviation CR := 13%N (only parsing).
Abbreviation SP := 32%N (only parsing).
Abbreviation QUOTE := 34%N (only parsing).
Abbreviation BACKSLASH := 92%N (only parsing).

(** Literals of this file are written with [js]: an apostrophe stands for
    the double quote and a tilde for the line feed, so that JSON text can be
    written inline. *)
Definition unit_of_ascii (a : ascii) : N :=
  if Ascii.eqb a "'" then QUOTE
  else if Ascii.eqb a "~" then LF
  else N_of_ascii a.

Definition js (s : string) : jsstring :=
  map unit_of_ascii (list_ascii_of_string s).
Arguments js s%_string.

Fixpoint str_eqb (a b : jsstring) : bool :=
  match a, b with
  | [], [] => true
  | x :: a', y :: b' => N.eqb x y && str_eqb a' b'
  | _, _ => false
  end.

(** [sep.join(parts)] of [Array.prototype.join]. *)
Fixpoint join (sep : jsstring) (parts : list jsstring) : jsstring :=
  match parts with
  | [] => []
  | [p] => p
  | p :: rest => p ++ sep ++ join sep rest
  end.

Definition is_digit (c : N) : bool := (48 <=? c)%N && (c <=? 57)%N.

Definition digit_val (c : N) : N := (c - 48)%N.

(** Value of a run of decimal digits, most significant first. *)
Definition digits_to_N (ds : list N) : N :=
  fold_left (fun acc c => (10 * acc + digit_val c)%N) ds 0%N.

(** Decimal digits of a natural number, as code units. *)
Fixpoint uint_units (d : Decimal.uint) : list N :=
  match d with
  | Decimal.Nil => []
  | Decimal.D0 d => 48%N :: uint_units d
  | Decimal.D1 d => 49%N :: uint_units d
  | Decimal.D2 d => 50%N :: uint_units d
  | Decimal.D3 d => 51%N :: uint_units d
  | Decimal.D4 d => 52%N :: uint_units d
  | Decimal.D5 d => 53%N :: uint_units d
  | Decimal.D6 d => 54%N :: uint_units d
  | Decimal.D7 d => 55%N :: uint_units d
  | Decimal.D8 d => 56%N :: uint_units d
  | Decimal.D9 d => 57%N :: uint_units d
  end.

Definition N_to_digits (n : N) : list N := uint_units (N.to_uint n).

(* ================================================================== *)
(** * Numbers *)
(* ================================================================== *)

(** [Fin neg ds n] is the decimal [0.d1 d2 ... dk * 10^n] (negated when
    [neg]), the triple of [Number::toString]: [ds] are the significant
    digits as code units, without leading or trailing zero; zero is
    [Fin false [] 0].  [Inf neg] is what an overflowing literal parses to. *)
Inductive number :=
| Fin (neg : bool) (ds : list N) (n : Z)
| Inf (neg : bool).

Definition zero : number := Fin false [] 0.

Fixpoint strip_zeros (ds : list N) : list N :=
  match ds with
  | 48%N :: t => strip_zeros t
  | _ => ds
  end.

Definition strip_trailing (ds : list N) : list N :=
  rev (strip_zeros (rev ds)).

(** The round-to-nearest overflow threshold of binary64: a decimal at or
    above [2^1024 - 2^970] in magnitude becomes an infinity. *)
Definition overflow_threshold : Z := 2 ^ 1024 - 2 ^ 970.

Definition overflows (ds : list N) (n : Z) : bool :=
  let k := Z.of_nat (length ds) in
  let s := Z.of_N (digits_to_N ds) in
  if (309 <? n)%Z then true
  else if (n <? 309)%Z then false
  else if (k <=? 309)%Z then (overflow_threshold <=? s * 10 ^ (309 - k))%Z
  else (overflow_threshold * 10 ^ (k - 309) <=? s)%Z.

(** The number denoted by digits [all] whose decimal point stands after
    the first [n0] of them. *)
Definition make_number (neg : bool) (all : list N) (n0 : Z) : number :=
  let lead := strip_zeros all in
  let ds := strip_trailing lead in
  let n := (n0 - Z.of_nat (length all - length lead))%Z in
  match ds with
  | [] => zero
  | _ => if overflows ds n then Inf neg else Fin neg ds n
  end.

Definition number_of_N (n : N) : number :=
  let ds := N_to_digits n in
  make_number false ds (Z.of_nat (length ds)).

Definition number_of_Z (z : Z) : number :=
  let ds := N_to_digits (Z.abs_N z) in
  make_number (z <? 0)%Z ds (Z.of_nat (length ds)).

(** The natural number a number is, when it is one below [10^10]. *)
Definition number_to_N (x : number) : option N :=
  match x with
  | Fin false [] _ => Some 0%N
  | Fin false ds n =>
      let k := Z.of_nat (length ds) in
      if (k <=? n)%Z && (n <=? 10)%Z
      then Some (digits_to_N (ds ++ repeat 48%N (Z.to_nat (n - k))))
      else None
  | _ => None
  end.

Definition exponent_text (e : Z) : jsstring :=
  js "e" ++ (if (e <? 0)%Z then js "-" else js "+") ++ N_to_digits (Z.abs_N e).

(** Exponential notation: one digit, the others after a point, and the
    exponent. *)
Definition scientific (ds : list N) (e : Z) : jsstring :=
  match ds with
  | [] => []
  | [d] => d :: exponent_text e
  | d :: rest => d :: js "." ++ rest ++ exponent_text e
  end.

(** [Number::toString] on the digits [ds] and exponent [n]. *)
Definition digits_toString (ds : list N) (n : Z) : jsstring :=
  let k := Z.of_nat (length ds) in
  if (k <=? n)%Z && (n <=? 21)%Z then
    ds ++ repeat 48%N (Z.to_nat (n - k))
  else if (0 <? n)%Z && (n <=? 21)%Z then
    firstn (Z.to_nat n) ds ++ js "." ++ skipn (Z.to_nat n) ds
  else if (-6 <? n)%Z && (n <=? 0)%Z then
    js "0." ++ repeat 48%N (Z.to_nat (- n)) ++ ds
  else scientific ds (n - 1).

Definition Number_toString (x : number) : jsstring :=
  match x with
  | Fin _ [] _ => js "0"
  | Fin neg ds n => (if neg then js "-" else []) ++ digits_toString ds n
  | Inf false => js "Infinity"
  | Inf true => js "-Infinity"
  end.

(* ================================================================== *)
(** * JSON values *)
(* ================================================================== *)

Unset Elimination Schemes.
Inductive json :=
| JNull
| JBool (b : bool)
| JNum (x : number)
| JStr (s : jsstring)
| JArr (elems : list json)
| JObj (props : list (jsstring * json)).
Set Elimination Schemes.

(** ** Own properties of an ordinary object *)

(** The array index a property key denotes, if it is one: the canonical
    decimal of an integer below [2^32 - 1]. *)
Definition array_index (k : jsstring) : option N :=
  match k with
  | [] => None
  | c :: t =>
      if forallb is_digit k
         && (negb (N.eqb c 48) || match t with [] => true | _ => false end)
         && (length k <=? 10)%nat
         && (digits_to_N k <? 4294967295)%N
      then Some (digits_to_N k)
      else None
  end.

Fixpoint obj_lookup (k : jsstring) (ps : list (jsstring * json)) : option json :=
  match ps with
  | [] => None
  | (k', v) :: t => if str_eqb k k' then Some v else obj_lookup k t
  end.

Fixpoint obj_replace (k : jsstring) (v : json) (ps : list (jsstring * json))
  : list (jsstring * json) :=
  match ps with
  | [] => []
  | (k', v') :: t =>
      if str_eqb k k' then (k', v) :: t else (k', v') :: obj_replace k v t
  end.

(** [precedes k k']: a new key [k] is enumerated before the existing key
    [k'] (an array index comes before larger indices and before every key
    that is not an index). *)
Definition precedes (k k' : jsstring) : bool :=
  match array_index k, array_index k' with
  | Some i, Some j => (i <? j)%N
  | Some _, None => true
  | None, _ => false
  end.

Fixpoint obj_insert (k : jsstring) (v : json) (ps : list (jsstring * json))
  : list (jsstring * json) :=
  match ps with
  | [] => [(k, v)]
  | (k', v') :: t =>
      if precedes k k' then (k, v) :: ps else (k', v') :: obj_insert k v t
  end.

(** [CreateDataProperty]: overwrite the own property [k] in place, or
    create it at its place in the enumeration order. *)
Definition obj_define (k : jsstring) (v : json) (ps : list (jsstring * json))
  : list (jsstring * json) :=
  match obj_lookup k ps with
  | Some _ => obj_replace k v ps
  | None => obj_insert k v ps
  end.

(* ================================================================== *)
(** * JSON.stringify and JSON.parse *)
(* ================================================================== *)

Module JSON.

Definition hex_digit (n : N) : N :=
  if (n <? 10)%N then (48 + n)%N else (87 + n)%N.

(** [UnicodeEscape]: a backslash, [u] and four lowercase hex digits. *)
Definition unicode_escape (c : N) : jsstring :=
  [BACKSLASH; 117%N;
   hex_digit (c / 4096); hex_digit ((c / 256) mod 16);
   hex_digit ((c / 16) mod 16); hex_digit (c mod 16)]%N.

Definition is_high_surrogate (c : N) : bool := (55296 <=? c)%N && (c <=? 56319)%N.
Definition is_low_surrogate (c : N) : bool := (56320 <=? c)%N && (c <=? 57343)%N.

Definition quote_unit (c : N) : jsstring :=
  if N.eqb c 8 then js "\b"
  else if N.eqb c TAB then js "\t"
  else if N.eqb c LF then js "\n"
  else if N.eqb c 12 then js "\f"
  else if N.eqb c CR then js "\r"
  else if N.eqb c QUOTE then [BACKSLASH; QUOTE]
  else if N.eqb c BACKSLASH then [BACKSLASH; BACKSLASH]
  else if (c <? 32)%N || is_high_surrogate c || is_low_surrogate c
       then unicode_escape c
  else [c].

(** The body of [QuoteJSONString]: a surrogate pair is copied, a lone
    surrogate is escaped. *)
Fixpoint quote_units (s : jsstring) : jsstring :=
  match s with
  | [] => []
  | c :: t =>
      match t with
      | d :: t' =>
          if is_high_surrogate c && is_low_surrogate d
          then c :: d :: quote_units t'
          else quote_unit c ++ quote_units t
      | [] => quote_unit c
      end
  end.

Definition quote (s : jsstring) : jsstring :=
  QUOTE :: quote_units s ++ [QUOTE].

Definition indentation (depth : nat) : jsstring := repeat SP (2 * depth).

(** [SerializeJSONProperty] with the gap of two spaces, at nesting
    [depth]. *)
Fixpoint serialize (depth : nat) (v : json) : jsstring :=
  match v with
  | JNull => js "null"
  | JBool true => js "true"
  | JBool false => js "false"
  | JNum (Inf _) => js "null"
  | JNum x => Number_toString x
  | JStr s => quote s
  | JArr [] => js "[]"
  | JArr elems =>
      let inner := indentation (S depth) in
      js "[~" ++ inner
        ++ join (js ",~" ++ inner) (map (serialize (S depth)) elems)
        ++ js "~" ++ indentation depth ++ js "]"
  | JObj [] => js "{}"
  | JObj props =>
      let inner := indentation (S depth) in
      js "{~" ++ inner
        ++ join (js ",~" ++ inner)
             (map (fun p => quote (fst p) ++ js ": " ++ serialize (S depth) (snd p))
                  props)
        ++ js "~" ++ indentation depth ++ js "}"
  end.

(** [JSON.stringify(value, null, 2)] on a JSON value. *)
Definition stringify (v : json) : jsstring := serialize 0 v.

(** ** JSON.parse *)

Definition is_ws (c : N) : bool :=
  N.eqb c SP || N.eqb c TAB || N.eqb c LF || N.eqb c CR.

Fixpoint skip_ws (s : jsstring) : jsstring :=
  match s with
  | c :: t => if is_ws c then skip_ws t else s
  | [] => []
  end.

Fixpoint strip_prefix (p s : jsstring) : option jsstring :=
  match p, s with
  | [], _ => Some s
  | a :: p', b :: s' => if N.eqb a b then strip_prefix p' s' else None
  | _ :: _, [] => None
  end.

Definition hex_val (c : N) : option N :=
  if is_digit c then Some (c - 48)%N
  else if (97 <=? c)%N && (c <=? 102)%N then Some (c - 87)%N
  else if (65 <=? c)%N && (c <=? 70)%N then Some (c - 55)%N
  else None.

Definition parse_hex4 (a b c d : N) : option N :=
  match hex_val a, hex_val b, hex_val c, hex_val d with
  | Some x, Some y, Some z, Some w => Some (4096 * x + 256 * y + 16 * z + w)%N
  | _, _, _, _ => None
  end.

(** The unit a single-character escape stands for. *)
Definition unescape (c : N) : option N :=
  if N.eqb c QUOTE then Some QUOTE
  else if N.eqb c BACKSLASH then Some BACKSLASH
  else if N.eqb c 47 then Some 47%N
  else if N.eqb c 98 then Some 8%N
  else if N.eqb c 102 then Some 12%N
  else if N.eqb c 110 then Some LF
  else if N.eqb c 114 then Some CR
  else if N.eqb c 116 then Some TAB
  else None.

(** The characters of a string literal, after its opening quote: the
    string and what follows the closing quote. *)
Fixpoint parse_chars (s : jsstring) : option (jsstring * jsstring) :=
  match s with
  | [] => None
  | c :: t =>
      if N.eqb c QUOTE then Some ([], t)
      else if N.eqb c BACKSLASH then
        match t with
        | [] => None
        | e :: t1 =>
            if N.eqb e 117 then
              match t1 with
              | h1 :: h2 :: h3 :: h4 :: t2 =>
                  match parse_hex4 h1 h2 h3 h4, parse_chars t2 with
                  | Some u, Some (str, r) => Some (u :: str, r)
                  | _, _ => None
                  end
              | _ => None
              end
            else
              match unescape e, parse_chars t1 with
              | Some u, Some (str, r) => Some (u :: str, r)
              | _, _ => None
              end
        end
      else if (c <? 32)%N then None
      else
        match parse_chars t with
        | Some (str, r) => Some (c :: str, r)
        | None => None
        end
  end.

Fixpoint span_digits (s : jsstring) : list N * jsstring :=
  match s with
  | c :: t =>
      if is_digit c
      then let (ds, r) := span_digits t in (c :: ds, r)
      else ([], s)
  | [] => ([], [])
  end.

(** [0], or a non-zero digit followed by digits. *)
Definition parse_int_part (s : jsstring) : option (list N * jsstring) :=
  match s with
  | c :: t =>
      if N.eqb c 48 then Some ([48%N], t)
      else if is_digit c
      then let (ds, r) := span_digits t in Some (c :: ds, r)
      else None
  | [] => None
  end.

(** An optional fraction: a point and at least one digit. *)
Definition parse_frac (s : jsstring) : option (list N * jsstring) :=
  match s with
  | c :: t =>
      if N.eqb c 46 then
        match span_digits t with
        | ([], _) => None
        | (ds, r) => Some (ds, r)
        end
      else Some ([], s)
  | [] => Some ([], s)
  end.

Definition parse_sign (s : jsstring) : bool * jsstring :=
  match s with
  | c :: t =>
      if N.eqb c 45 then (true, t)
      else if N.eqb c 43 then (false, t)
      else (false, s)
  | [] => (false, s)
  end.

(** An optional exponent: [e] or [E], an optional sign, at least one digit. *)
Definition parse_exp (s : jsstring) : option (Z * jsstring) :=
  match s with
  | c :: t =>
      if N.eqb c 101 || N.eqb c 69 then
        let (neg, t1) := parse_sign t in
        match span_digits t1 with
        | ([], _) => None
        | (ds, r) =>
            let e := Z.of_N (digits_to_N ds) in
            Some (if neg then (- e)%Z else e, r)
        end
      else Some (0%Z, s)
  | [] => Some (0%Z, s)
  end.

(** The digits of a number literal, after its sign. *)
Definition parse_magnitude (neg : bool) (s1 : jsstring) : option (number * jsstring) :=
  match parse_int_part s1 with
  | Some (ip, s2) =>
      match parse_frac s2 with
      | Some (fp, s3) =>
          match parse_exp s3 with
          | Some (e, s4) =>
              Some (make_number neg (ip ++ fp) (Z.of_nat (length ip) + e), s4)
          | None => None
          end
      | None => None
      end
  | None => None
  end.

Definition parse_number (s : jsstring) : option (number * jsstring) :=
  match s with
  | c :: t => if N.eqb c 45 then parse_magnitude true t else parse_magnitude false s
  | [] => None
  end.

Definition parse_literal (s : jsstring) : option (json * jsstring) :=
  match strip_prefix (js "null") s with
  | Some r => Some (JNull, r)
  | None =>
      match strip_prefix (js "true") s with
      | Some r => Some (JBool true, r)
      | None =>
          match strip_prefix (js "false") s with
          | Some r => Some (JBool false, r)
          | None => None
          end
      end
  end.

(** Recursive descent over the JSON grammar.  [parse_value] reads one
    value at the head of [s]; [parse_elements] and [parse_members] read the
    rest of an array or object whose first element or member starts at the
    head of [s].  Members are added with [obj_define], so a repeated key
    keeps its first position and its last value. *)
Fixpoint parse_value (fuel : nat) (s : jsstring) : option (json * jsstring) :=
  match fuel with
  | O => None
  | S f =>
      match s with
      | [] => None
      | c :: r =>
          if N.eqb c 123 then
            match skip_ws r with
            | [] => None
            | c1 :: r1 =>
                if N.eqb c1 125 then Some (JObj [], r1)
                else parse_members f (c1 :: r1) []
            end
          else if N.eqb c 91 then
            match skip_ws r with
            | [] => None
            | c1 :: r1 =>
                if N.eqb c1 93 then Some (JArr [], r1)
                else parse_elements f (c1 :: r1) []
            end
          else if N.eqb c QUOTE then
            match parse_chars r with
            | Some (str, r1) => Some (JStr str, r1)
            | None => None
            end
          else if N.eqb c 45 || is_digit c then
            match parse_number s with
            | Some (x, r1) => Some (JNum x, r1)
            | None => None
            end
          else parse_literal s
      end
  end
with parse_elements (fuel : nat) (s : jsstring) (acc : list json)
  : option (json * jsstring) :=
  match fuel with
  | O => None
  | S f =>
      match parse_value f s with
      | Some (v, r) =>
          match skip_ws r with
          | [] => None
          | c :: r1 =>
              if N.eqb c 44 then parse_elements f (skip_ws r1) (v :: acc)
              else if N.eqb c 93 then Some (JArr (rev (v :: acc)), r1)
              else None
          end
      | None => None
      end
  end
with parse_members (fuel : nat) (s : jsstring) (acc : list (jsstring * json))
  : option (json * jsstring) :=
  match fuel with
  | O => None
  | S f =>
      match s with
      | [] => None
      | q :: r =>
          if N.eqb q QUOTE then
            match parse_chars r with
            | Some (k, r1) =>
                match skip_ws r1 with
                | [] => None
                | c :: r2 =>
                    if N.eqb c 58 then
                      match parse_value f (skip_ws r2) with
                      | Some (v, r3) =>
                          match skip_ws r3 with
                          | [] => None
                          | c' :: r4 =>
                              if N.eqb c' 44
                              then parse_members f (skip_ws r4) (obj_define k v acc)
                              else if N.eqb c' 125
                              then Some (JObj (obj_define k v acc), r4)
                              else None
                          end
                      | None => None
                      end
                    else None
                end
            | None => None
            end
          else None
      end
  end.

(** [JSON.parse(text)]: [None] stands for the [SyntaxError] it throws. *)
Definition parse (text : jsstring) : option json :=
  match parse_value (S (length text)) (skip_ws text) with
  | Some (v, r) =>
      match skip_ws r with
      | [] => Some v
      | _ :: _ => None
      end
  | None => None
  end.

End JSON.

(* ================================================================== *)
(** * Completions and property access *)
(* ================================================================== *)

(** The errors the runtime raises by itself. *)
Inductive native_error := SyntaxError | TypeError | RangeError.

(** How an evaluation ends: with a value, with an exception, or at a step
    that this development leaves to the host (see the conventions at the
    top of the file). *)
Inductive completion (E A : Type) :=
| Normal (a : A)
| Throw (e : E)
| HostDefined.
Arguments Normal {E A} a.
Arguments Throw {E A} e.
Arguments HostDefined {E A}.

Definition bind {E A B} (c : completion E A) (k : A -> completion E B)
  : completion E B :=
  match c with
  | Normal a => k a
  | Throw e => Throw e
  | HostDefined => HostDefined
  end.

Notation "x <- c ;; k" := (bind c (fun x => k))
  (at level 61, c at next level, right associativity).

(** [try { c } catch (e) { h e }]. *)
Definition try_catch {E E' A} (c : completion E A) (h : E -> completion E' A)
  : completion E' A :=
  match c with
  | Normal a => Normal a
  | Throw e => h e
  | HostDefined => HostDefined
  end.

(** A JavaScript value met while walking a parsed document: a JSON value,
    or [undefined] ([None]). *)
Definition jsval := option json.

(** The members every ordinary object inherits from [Object.prototype]. *)
Definition object_prototype_keys : list jsstring :=
  [ js "constructor"; js "hasOwnProperty"; js "isPrototypeOf";
    js "propertyIsEnumerable"; js "toLocaleString"; js "toString";
    js "valueOf"; js "__proto__"; js "__defineGetter__";
    js "__defineSetter__"; js "__lookupGetter__"; js "__lookupSetter__" ].

Definition inherited_by_object (k : jsstring) : bool :=
  existsb (str_eqb k) object_prototype_keys.

Definition length_number (A : Type) (l : list A) : json :=
  JNum (number_of_N (N.of_nat (length l))).

(** [base[k]] as an expression.  Reading from [undefined] or [null] throws
    a [TypeError].  An object answers with its own property; a key it does
    not own is [undefined], unless [Object.prototype] provides it.  Arrays
    and strings answer for their indices and [length].  No prototype has
    index-named members, so a missing index is [undefined]; any other key
    on an array or a primitive is left to the host. *)
Definition getProp (base : jsval) (k : jsstring) : completion native_error jsval :=
  match base with
  | None | Some JNull => Throw TypeError
  | Some (JObj props) =>
      match obj_lookup k props with
      | Some v => Normal (Some v)
      | None => if inherited_by_object k then HostDefined else Normal None
      end
  | Some (JArr elems) =>
      match array_index k with
      | Some i => Normal (nth_error elems (N.to_nat i))
      | None =>
          if str_eqb k (js "length") then Normal (Some (length_number elems))
          else HostDefined
      end
  | Some (JStr s) =>
      match array_index k with
      | Some i => Normal (option_map (fun c => JStr [c]) (nth_error s (N.to_nat i)))
      | None =>
          if str_eqb k (js "length") then Normal (Some (length_number s))
          else HostDefined
      end
  | Some (JBool _) | Some (JNum _) =>
      match array_index k with
      | Some _ => Normal None
      | None => HostDefined
      end
  end.

Fixpoint list_set (A : Type) (i : nat) (x : A) (l : list A) : list A :=
  match l, i with
  | [], _ => []
  | _ :: t, O => x :: t
  | y :: t, S j => y :: list_set j x t
  end.

(** [elems[i] = v]: in range the element is replaced; beyond the end the
    array grows, and the holes in between are rendered [null] by
    [JSON.stringify], the only reader of the array after the assignment. *)
Definition array_store (i : nat) (v : json) (elems : list json) : list json :=
  if (i <? length elems)%nat then list_set i v elems
  else elems ++ repeat JNull (i - length elems) ++ [v].

(** [elems.length = n]. *)
Definition array_resize (n : nat) (elems : list json) : list json :=
  firstn n elems ++ repeat JNull (n - length elems).

(** [base[k] = v] in strict code (the file is an ES module); the result is
    [base] after the assignment, as [JSON.stringify] will see it.
    - On [undefined] and [null] the assignment throws a [TypeError].
    - On a primitive it throws too, except for [__proto__], whose
      inherited setter returns without effect on a receiver that is not
      an object.
    - On an object an own property is overwritten; a new key is created
      at its place in the enumeration order, except [__proto__], which
      reaches the inherited setter and creates no own property.
    - On an array an index is stored; [length] resizes the array when the
      value is a number that is an integer below [2^32] and throws a
      [RangeError] for any other number; conversion of other values to a
      length is left to the host; any other key becomes a named property
      of the array, which [JSON.stringify] does not render. *)
Definition setProp (base : jsval) (k : jsstring) (v : json)
  : completion native_error json :=
  match base with
  | None | Some JNull => Throw TypeError
  | Some (JBool _ as b) | Some (JNum _ as b) | Some (JStr _ as b) =>
      if str_eqb k (js "__proto__") then Normal b else Throw TypeError
  | Some (JObj props) =>
      match obj_lookup k props with
      | Some _ => Normal (JObj (obj_replace k v props))
      | None =>
          if str_eqb k (js "__proto__") then Normal (JObj props)
          else Normal (JObj (obj_insert k v props))
      end
  | Some (JArr elems) =>
      match array_index k with
      | Some i => Normal (JArr (array_store (N.to_nat i) v elems))
      | None =>
          if str_eqb k (js "length") then
            match v with
            | JNum x =>
                match number_to_N x with
                | Some n =>
                    if (n <? 4294967296)%N
                    then Normal (JArr (array_resize (N.to_nat n) elems))
                    else Throw RangeError
                | None => Throw RangeError
                end
            | JNull | JBool false => Normal (JArr [])
            | JBool true => Normal (JArr (array_resize 1 elems))
            | _ => HostDefined
            end
          else Normal (JArr elems)
      end
  end.

(** The object [current] reached along [prefix] is a part of the parsed
    document, so assigning into it changes the document: [store_at] puts
    the object as it is after the assignment back at the position [prefix]
    leads to through own members.  Where [prefix] leaves the own members
    the value reached was a fresh primitive, and the document is as it
    was. *)
Fixpoint store_at (doc : json) (prefix : list jsstring) (new : json) : json :=
  match prefix with
  | [] => new
  | k :: rest =>
      match doc with
      | JObj props =>
          match obj_lookup k props with
          | Some child => JObj (obj_replace k (store_at child rest new) props)
          | None => doc
          end
      | JArr elems =>
          match array_index k with
          | Some i =>
              match nth_error elems (N.to_nat i) with
              | Some child =>
                  JArr (list_set (N.to_nat i) (store_at child rest new) elems)
              | None => doc
              end
          | None => doc
          end
      | _ => doc
      end
  end.

(* ================================================================== *)
(** * The graph node shown by the dialog *)
(* ================================================================== *)

(** A row's value: [string | number | null | boolean]. *)
Inductive scalar :=
| VString (s : jsstring)
| VNumber (x : number)
| VBoolean (b : bool)
| VNull.

(** One row of [NodeData["text"]]: [{key, value, type}]. *)
Record NodeRow := {
  row_key : option jsstring;
  row_value : scalar;
  row_type : jsstring
}.

(** A segment of [NodeData["path"]]: a property name or a number. *)
Inductive segment :=
| SegStr (s : jsstring)
| SegNum (x : number).

Record NodeData := {
  text : list NodeRow;
  path : option (list segment)
}.

Definition json_of_scalar (v : scalar) : json :=
  match v with
  | VString s => JStr s
  | VNumber x => JNum x
  | VBoolean b => JBool b
  | VNull => JNull
  end.

(** [ToString] on a row value, as a template literal applies it. *)
Definition ToString (v : scalar) : jsstring :=
  match v with
  | VString s => s
  | VNumber x => Number_toString x
  | VBoolean true => js "true"
  | VBoolean false => js "false"
  | VNull => js "null"
  end.

(** [ToPropertyKey] on a path segment. *)
Definition property_key (seg : segment) : jsstring :=
  match seg with
  | SegStr s => s
  | SegNum x => Number_toString x
  end.

(** Truthiness of [row.key]: absent and empty keys are falsy. *)
Definition truthy (k : option jsstring) : bool :=
  match k with
  | Some (_ :: _) => true
  | _ => false
  end.

(* ================================================================== *)
(** * normalizeNodeData *)
(* ================================================================== *)

(** The object literal [obj] under construction: its own properties, and
    whether its prototype is still [Object.prototype]. *)
Record literal := {
  own : list (jsstring * json);
  has_prototype : bool
}.

(** [obj[k] = v].  While [obj] inherits from [Object.prototype] and has no
    own [__proto__], that key reaches the inherited setter: [null] removes
    the prototype, any other primitive is ignored, and no own property is
    created. *)
Definition assign (obj : literal) (k : jsstring) (v : scalar) : literal :=
  match obj_lookup k (own obj) with
  | Some _ =>
      {| own := obj_replace k (json_of_scalar v) (own obj);
         has_prototype := has_prototype obj |}
  | None =>
      if has_prototype obj && str_eqb k (js "__proto__") then
        match v with
        | VNull => {| own := own obj; has_prototype := false |}
        | _ => obj
        end
      else
        {| own := obj_insert k (json_of_scalar v) (own obj);
           has_prototype := has_prototype obj |}
  end.

(** The body of the [forEach] callback. *)
Definition add_row (obj : literal) (row : NodeRow) : literal :=
  if negb (str_eqb (row_type row) (js "array"))
     && negb (str_eqb (row_type row) (js "object"))
  then
    match row_key row with
    | Some k => if truthy (Some k) then assign obj k (row_value row) else obj
    | None => obj
    end
  else obj.

Definition normalizeNodeData (nodeRows : list NodeRow) : jsstring :=
  match nodeRows with
  | [] => js "{}"
  | row0 :: rest =>
      if (length nodeRows =? 1)%nat && negb (truthy (row_key row0))
      then ToString (row_value row0)
      else
        let obj :=
          fold_left add_row nodeRows {| own := []; has_prototype := true |} in
        JSON.stringify (JObj (own obj))
  end.

(* ================================================================== *)
(** * jsonPathToString *)
(* ================================================================== *)

Definition render_segment (seg : segment) : jsstring :=
  match seg with
  | SegNum x => Number_toString x
  | SegStr s => js "'" ++ s ++ js "'"
  end.

Definition jsonPathToString (path : option (list segment)) : jsstring :=
  match path with
  | None | Some [] => js "$"
  | Some p =>
      let segments := map render_segment p in
      js "$[" ++ join (js "][") segments ++ js "]"
  end.

(* ================================================================== *)
(** * updateJsonAtPath *)
(* ================================================================== *)

Record Error := { message : jsstring }.

(** The loop [for (i = 0; i < path.length - 1; i++) current = current[path[i]]],
    run over the segments before the last. *)
Fixpoint navigate (current : jsval) (prefix : list segment)
  : completion native_error jsval :=
  match prefix with
  | [] => Normal current
  | seg :: rest =>
      next <- getProp current (property_key seg) ;;
      navigate next rest
  end.

(** [JSON.parse] as a completion. *)
Definition JSON_parse (text : jsstring) : completion native_error json :=
  match JSON.parse text with
  | Some v => Normal v
  | None => Throw SyntaxError
  end.

Definition updateJsonAtPath (json : jsstring) (path : option (list segment))
  (newValue : jsstring) : completion Error jsstring :=
  try_catch
    (parsedJson <- JSON_parse json ;;
     let parsedValue :=
       match JSON.parse newValue with
       | Some v => v
       | None => JStr newValue
       end in
     match path with
     | None | Some [] => Normal (JSON.stringify parsedValue)
     | Some (seg :: segs) =>
         let p := seg :: segs in
         current <- navigate (Some parsedJson) (removelast p) ;;
         let lastKey := last p seg in
         current' <- setProp current (property_key lastKey) parsedValue ;;
         Normal (JSON.stringify
                   (store_at parsedJson (map property_key (removelast p)) current'))
     end)
    (fun _ =>
       Throw {| message := js "Failed to update JSON. Please check your input." |}).

(* ================================================================== *)
(** * The stores and notifications the dialog uses *)
(* ================================================================== *)

(** The argument of [setContents]. *)
Record FileContents := {
  contents : jsstring;
  hasChanges : bool
}.

Inductive Toast :=
| ToastSuccess (msg : jsstring)
| ToastError (msg : jsstring).

(** What the dialog reads and writes outside itself: the graph store's
    selected node, the JSON store's document text, the file store's
    contents with its unsaved-changes flag, and the notifications shown
    so far. *)
Record World := {
  selectedNode : option NodeData;
  jsonStore : jsstring;
  fileStore : FileContents;
  toasts : list Toast
}.

(** Modelled from the spec: the JSON store ([store/useJson], not part of
    this file) holds the full JSON text; [getJson] returns it. *)
Definition getJson (w : World) : jsstring := jsonStore w.

(** Modelled from the spec: [setJson] of the JSON store ([store/useJson])
    replaces the full JSON text. *)
Definition setJson (json : jsstring) (w : World) : World :=
  {| selectedNode := selectedNode w; jsonStore := json;
     fileStore := fileStore w; toasts := toasts w |}.

(** Modelled from the spec: [setContents] of the file store
    ([store/useFile]) replaces the editable contents and the
    unsaved-changes flag. *)
Definition setContents (c : FileContents) (w : World) : World :=
  {| selectedNode := selectedNode w; jsonStore := jsonStore w;
     fileStore := c; toasts := toasts w |}.

(** [toast.success] and [toast.error] record a notification. *)
Definition toast (t : Toast) (w : World) : World :=
  {| selectedNode := selectedNode w; jsonStore := jsonStore w;
     fileStore := fileStore w; toasts := toasts w ++ [t] |}.

(* ================================================================== *)
(** * The NodeModal component *)
(* ================================================================== *)

(** The three [useState] cells. *)
Record ModalState := {
  isEditing : bool;
  editValue : jsstring;
  originalValue : jsstring
}.

Definition initialState : ModalState :=
  {| isEditing := false; editValue := []; originalValue := [] |}.

(** The effect on [opened] and the selected node. *)
Definition resetEffect (opened : bool) (st : ModalState) (w : World) : ModalState :=
  match opened, selectedNode w with
  | true, Some nodeData =>
      let normalized := normalizeNodeData (text nodeData) in
      {| isEditing := false; editValue := normalized; originalValue := normalized |}
  | _, _ => st
  end.

Definition handleEdit (st : ModalState) : ModalState :=
  {| isEditing := true; editValue := editValue st;
     originalValue := originalValue st |}.

(** The text area's [onChange]. *)
Definition onChange (value : jsstring) (st : ModalState) : ModalState :=
  {| isEditing := isEditing st; editValue := value;
     originalValue := originalValue st |}.

Definition handleCancel (st : ModalState) : ModalState :=
  {| isEditing := false; editValue := originalValue st;
     originalValue := originalValue st |}.

(** [nodeData?.path]. *)
Definition selectedPath (w : World) : option (list segment) :=
  match selectedNode w with
  | Some nodeData => path nodeData
  | None => None
  end.

(** [error.message || "Failed to update node value"]. *)
Definition error_text (error : Error) : jsstring :=
  match message error with
  | [] => js "Failed to update node value"
  | m => m
  end.

Definition handleSave (st : ModalState) (w : World)
  : completion Error (ModalState * World) :=
  try_catch
    (let currentJson := getJson w in
     updatedJson <- updateJsonAtPath currentJson (selectedPath w) (editValue st) ;;
     let w1 := setContents {| contents := updatedJson; hasChanges := true |} w in
     let w2 := setJson updatedJson w1 in
     let st' := {| isEditing := false; editValue := editValue st;
                   originalValue := editValue st |} in
     Normal (st', toast (ToastSuccess (js "Node value updated successfully!")) w2))
    (fun error => Normal (st, toast (ToastError (error_text error)) w)).

(** What is shown in the content area, in either mode. *)
Definition displayedValue (st : ModalState) : jsstring := editValue st.

(** What the user does between two saves: presses Edit, types, or presses
    Save when the update fails. *)
Inductive editing : ModalState * World -> ModalState * World -> Prop :=
| editing_edit st w :
    editing (st, w) (handleEdit st, w)
| editing_change value st w :
    editing (st, w) (onChange value st, w)
| editing_failed_save st w e :
    updateJsonAtPath (getJson w) (selectedPath w) (editValue st) = Throw e ->
    editing (st, w) (st, toast (ToastError (error_text e)) w).

Inductive editing_star : ModalState * World -> ModalState * World -> Prop :=
| editing_refl s : editing_star s s
| editing_step s1 s2 s3 :
    editing s1 s2 -> editing_star s2 s3 -> editing_star s1 s3.

(** A state the dialog is in right after the value shown was saved, with
    that value: after the effect ran for an opened dialog on a selected
    node, or after a save that succeeded. *)
Inductive saved_value : ModalState * World -> jsstring -> Prop :=
| saved_at_open st w nodeData :
    selectedNode w = Some nodeData ->
    saved_value (resetEffect true st w, w) (normalizeNodeData (text nodeData))
| saved_at_save st w st' w' updatedJson :
    updateJsonAtPath (getJson w) (selectedPath w) (editValue st)
      = Normal updatedJson ->
    handleSave st w = Normal (st', w') ->
    saved_value (st', w') (editValue st).

(** The spec's rendering of one path segment: brackets, with double
    quotes around a name and none around a number. *)
Definition bracketed (seg : segment) : jsstring :=
  match seg with
  | SegStr s => js "['" ++ s ++ js "']"
  | SegNum x => js "[" ++ Number_toString x ++ js "]"
  end.

(* ================================================================== *)
(** * What the dialog renders and how it is used *)
(* ================================================================== *)

(** The content area: a text area in edit mode, highlighted code
    otherwise. *)
Inductive Content :=
| Textarea (value : jsstring)
| CodeHighlight (code : jsstring).

Inductive Button := EditButton | CancelButton | SaveButton.

(** The parts of the rendered dialog that depend on its state: the
    content area, the buttons below it, and the code of the JSON path. *)
Record View := {
  content : Content;
  buttons : list Button;
  pathCode : jsstring
}.

Definition render (st : ModalState) (w : World) : View :=
  {| content := if isEditing st then Textarea (editValue st)
                else CodeHighlight (editValue st);
     buttons := if isEditing st then [CancelButton; SaveButton] else [EditButton];
     pathCode := jsonPathToString (selectedPath w) |}.

(** The [onClick] of each button. *)
Definition onClick (b : Button) (st : ModalState) (w : World)
  : completion Error (ModalState * World) :=
  match b with
  | EditButton => Normal (handleEdit st, w)
  | CancelButton => Normal (handleCancel st, w)
  | SaveButton => handleSave st w
  end.

(** The graph store selects a node (or none). *)
Definition select (node : option NodeData) (w : World) : World :=
  {| selectedNode := node; jsonStore := jsonStore w;
     fileStore := fileStore w; toasts := toasts w |}.

(** One step in the life of the dialog: a click on a button that is
    shown, typing in the text area when it is shown, or a run of the
    effect.  The effect runs when [opened] or the selected node has
    changed (the close button calls the [onClose] of the caller, which
    is such a change); a step allows it at any time, with any [opened]
    and any selection. *)
Inductive interaction : ModalState * World -> ModalState * World -> Prop :=
| interaction_click b st w st' w' :
    In b (buttons (render st w)) ->
    onClick b st w = Normal (st', w') ->
    interaction (st, w) (st', w')
| interaction_type value shown st w :
    content (render st w) = Textarea shown ->
    interaction (st, w) (onChange value st, w)
| interaction_effect opened node st w :
    interaction (st, w) (resetEffect opened st (select node w), select node w).

Inductive interactions : ModalState * World -> ModalState * World -> Prop :=
| interactions_refl s : interactions s s
| interactions_step s1 s2 s3 :
    interaction s1 s2 -> interactions s2 s3 -> interactions s1 s3.

(** Outside edit mode the text shown is the text kept for Cancel. *)
Definition shows_saved (st : ModalState) : Prop :=
  isEditing st = false -> editValue st = originalValue st.

(* ================================================================== *)
(** * Notions used by the statements *)
(* ================================================================== *)

Import JSON.

(** Induction over JSON values, with the hypothesis for every element of
    an array and every member value of an object. *)
Section json_induction.
Variable P : json -> Prop.
Hypothesis Hnull : P JNull.
Hypothesis Hbool : forall b, P (JBool b).
Hypothesis Hnum : forall x, P (JNum x).
Hypothesis Hstr : forall s, P (JStr s).
Hypothesis Harr : forall elems, Forall P elems -> P (JArr elems).
Hypothesis Hobj : forall props, Forall (fun p => P (snd p)) props -> P (JObj props).

Fixpoint json_ind (v : json) : P v :=
  match v with
  | JNull => Hnull
  | JBool b => Hbool b
  | JNum x => Hnum x
  | JStr s => Hstr s
  | JArr elems =>
      Harr ((fix all (l : list json) : Forall P l :=
               match l with
               | [] => Forall_nil P
               | e :: l' => Forall_cons e (json_ind e) (all l')
               end) elems)
  | JObj props =>
      Hobj ((fix all (l : list (jsstring * json))
               : Forall (fun p => P (snd p)) l :=
               match l with
               | [] => Forall_nil _
               | p :: l' => Forall_cons p (json_ind (snd p)) (all l')
               end) props)
  end.
End json_induction.

(** [k] may stand before [k'] among the own keys of an object: they
    differ, and [k'] is not due before [k]. *)
Definition key_before (k k' : jsstring) : Prop :=
  k <> k' /\ precedes k' k = false.

(** Keys in ECMAScript enumeration order, without repetition. *)
Fixpoint canonical (ks : list jsstring) : Prop :=
  match ks with
  | [] => True
  | k :: t => Forall (key_before k) t /\ canonical t
  end.

(** The representation invariant of numbers: digits without leading or
    trailing zero, below the overflow threshold; zero has no digit. *)
Definition wf_number (x : number) : Prop :=
  match x with
  | Fin neg ds n =>
      Forall (fun c => is_digit c = true) ds
      /\ hd 49%N ds <> 48%N
      /\ last ds 49%N <> 48%N
      /\ (ds = [] -> neg = false /\ n = 0%Z)
      /\ overflows ds n = false
  | Inf _ => True
  end.

(** The invariant of the values [JSON.parse] builds. *)
#[warnings="-register-all"]
Inductive wf_json : json -> Prop :=
| wf_null : wf_json JNull
| wf_bool b : wf_json (JBool b)
| wf_num x : wf_number x -> wf_json (JNum x)
| wf_str s : wf_json (JStr s)
| wf_arr elems : Forall wf_json elems -> wf_json (JArr elems)
| wf_obj props :
    canonical (map fst props) ->
    Forall (fun p => wf_json (snd p)) props ->
    wf_json (JObj props).

(** A value as [JSON.stringify] renders it: an infinite number as [null]. *)
Fixpoint rendered (v : json) : json :=
  match v with
  | JNum (Inf _) => JNull
  | JArr elems => JArr (map rendered elems)
  | JObj props => JObj (map (fun p => (fst p, rendered (snd p))) props)
  | _ => v
  end.

(** The value a path of property keys leads to inside a document, through
    members of objects and elements of arrays. *)
Fixpoint locate (doc : json) (keys : list jsstring) : option json :=
  match keys with
  | [] => Some doc
  | k :: rest =>
      match doc with
      | JObj props =>
          match obj_lookup k props with
          | Some child => locate child rest
          | None => None
          end
      | JArr elems =>
          match array_index k with
          | Some i =>
              match nth_error elems (N.to_nat i) with
              | Some child => locate child rest
              | None => None
              end
          | None => None
          end
      | _ => None
      end
  end.

(** The spec's replacement: the document with the value at the position a
    path leads to replaced by [v]; the last key may be new in its object. *)
Fixpoint replace_at (doc : json) (keys : list jsstring) (v : json) : json :=
  match keys with
  | [] => v
  | k :: rest =>
      match doc with
      | JObj props =>
          match obj_lookup k props with
          | Some child => JObj (obj_replace k (replace_at child rest v) props)
          | None =>
              match rest with
              | [] => JObj (obj_insert k v props)
              | _ :: _ => doc
              end
          end
      | JArr elems =>
          match array_index k with
          | Some i =>
              match nth_error elems (N.to_nat i) with
              | Some child =>
                  JArr (list_set (N.to_nat i) (replace_at child rest v) elems)
              | None => doc
              end
          | None => doc
          end
      | _ => doc
      end
  end.

(** One list of keys continues another. *)
Fixpoint is_prefix (p q : list jsstring) : bool :=
  match p, q with
  | [], _ => true
  | a :: p', b :: q' => str_eqb a b && is_prefix p' q'
  | _ :: _, [] => false
  end.

(** Two paths part ways: neither leads through the position of the other. *)
Definition diverge (p q : list jsstring) : Prop :=
  is_prefix p q = false /\ is_prefix q p = false.

(** The edited value of a save: the text parsed as JSON, or the text
    itself when it does not parse. *)
Definition edited_value (newValue : jsstring) : json :=
  match JSON.parse newValue with
  | Some v => v
  | None => JStr newValue
  end.

(** The keys of an optional path. *)
Definition path_keys (path : option (list segment)) : list jsstring :=
  match path with
  | Some p => map property_key p
  | None => []
  end.

(** A row that is not a container. *)
Definition non_container (row : NodeRow) : bool :=
  negb (str_eqb (row_type row) (js "array"))
  && negb (str_eqb (row_type row) (js "object")).

(** The key/value pair a row has to contribute: none for a container, for
    a row without a key and for a row with the empty key. *)
Definition row_pair (row : NodeRow) : option (jsstring * json) :=
  if non_container row then
    match row_key row with
    | Some (c :: k) => Some (c :: k, json_of_scalar (row_value row))
    | _ => None
    end
  else None.

(** The value of the last row that contributes the key [k]. *)
Fixpoint last_value (k : jsstring) (rows : list NodeRow) : option json :=
  match rows with
  | [] => None
  | row :: rest =>
      match last_value k rest with
      | Some v => Some v
      | None =>
          match row_pair row with
          | Some (k', v) => if str_eqb k k' then Some v else None
          | None => None
          end
      end
  end.

(* ================================================================== *)
(** * Notions used by the proofs *)
(* ================================================================== *)

(** A number literal ends before [rest]. *)
Definition number_end (rest : jsstring) : bool :=
  match rest with
  | [] => true
  | c :: _ =>
      negb (is_digit c) && negb (N.eqb c 46) && negb (N.eqb c 101)
      && negb (N.eqb c 69)
  end.

(** The fuel that suffices to parse the rendering of a value. *)
Fixpoint size (v : json) : nat :=
  match v with
  | JArr elems => S (fold_right (fun e n => S (size e + n)) 0 elems)
  | JObj props => S (fold_right (fun p n => S (size (snd p) + n)) 0 props)
  | _ => 1
  end.

(** A run of decimal digits. *)
Definition all_digits (ds : list N) : Prop := Forall (fun c => is_digit c = true) ds.

(** What follows a run of digits is not a digit. *)
Definition digit_end (rest : jsstring) : Prop :=
  match rest with
  | [] => True
  | c :: _ => is_digit c = false
  end.

(** A parsed unit put before the rest of a string literal. *)
Definition continue_with (c : N) (r : option (jsstring * jsstring))
  : option (jsstring * jsstring) :=
  match r with
  | Some (str, r') => Some (c :: str, r')
  | None => None
  end.

(** Code units back to decimal digits. *)
Fixpoint units_uint (k : list N) : Decimal.uint :=
  match k with
  | [] => Decimal.Nil
  | c :: t =>
      match (c - 48)%N with
      | 0 => Decimal.D0 (units_uint t)
      | 1 => Decimal.D1 (units_uint t)
      | 2 => Decimal.D2 (units_uint t)
      | 3 => Decimal.D3 (units_uint t)
      | 4 => Decimal.D4 (units_uint t)
      | 5 => Decimal.D5 (units_uint t)
      | 6 => Decimal.D6 (units_uint t)
      | 7 => Decimal.D7 (units_uint t)
      | 8 => Decimal.D8 (units_uint t)
      | _ => Decimal.D9 (units_uint t)
      end%N
  end.

(** The invariant of an object under construction. *)
Definition wf_props (ps : list (jsstring * json)) : Prop :=
  canonical (map fst ps) /\ Forall (fun p => wf_json (snd p)) ps.

(** How a rendered value starts: not with white space, a closing bracket
    or a comma. *)
Definition value_start (c : N) : Prop :=
  c = 110%N \/ c = 116%N \/ c = 102%N \/ c = 45%N \/ is_digit c = true
  \/ c = QUOTE \/ c = 91%N \/ c = 123%N.

(** Fuel for the elements of an array or the members of an object. *)
Definition elems_size (elems : list json) : nat :=
  fold_right (fun e n => S (size e + n)) 0%nat elems.

Definition props_size (props : list (jsstring * json)) : nat :=
  fold_right (fun p n => S (size (snd p) + n)) 0%nat props.

(** The statement of the round trip for one value. *)
Definition reads_back (v : json) : Prop :=
  forall d rest fuel,
    wf_json v -> (size v <= fuel)%nat -> number_end rest = true ->
    parse_value fuel (serialize d v ++ rest) = Some (rendered v, rest).

(** The text of one member of an object. *)
Definition member_text (d : nat) (p : jsstring * json) : jsstring :=
  quote (fst p) ++ js ": " ++ serialize d (snd p).

(** One step of the loop on the own properties, away from [__proto__]. *)
Definition add_pair (props : list (jsstring * json)) (row : NodeRow)
  : list (jsstring * json) :=
  match row_pair row with
  | Some (k, v) => obj_define k v props
  | None => props
  end.

(* ================================================================== *)
(** * Notions used by the further properties *)
(* ================================================================== *)

(** An object or an array. *)
Definition is_container (v : json) : bool :=
  match v with
  | JArr _ | JObj _ => true
  | _ => false
  end.

(** The member [k] is missing from a container: an object neither owns
    nor inherits it, or it is an index at or beyond the end of an array. *)
Definition missing_member (parent : json) (k : jsstring) : Prop :=
  match parent with
  | JObj props => obj_lookup k props = None /\ inherited_by_object k = false
  | JArr elems =>
      exists i, array_index k = Some i /\ (length elems <= N.to_nat i)%nat
  | _ => False
  end.

(** The representation invariant of a row value. *)
Definition wf_scalar (v : scalar) : Prop :=
  match v with
  | VNumber x => wf_number x
  | _ => True
  end.

(** A row value that reads back as itself when its text is saved without
    a change: a finite number, a boolean, [null], or a string that is not
    the text of a JSON value. *)
Definition reads_as_itself (v : scalar) : Prop :=
  match v with
  | VString s => JSON.parse s = None
  | VNumber (Fin neg ds n) => wf_number (Fin neg ds n)
  | VNumber (Inf _) => False
  | VBoolean _ | VNull => True
  end.

(** A row keyed [__proto__] that is not a container and holds [null]. *)
Definition null_proto_row (row : NodeRow) : Prop :=
  row_key row = Some (js "__proto__") /\ row_value row = VNull
  /\ non_container row = true.

(** A well-formed value that is not a container. *)
Definition flat_value (v : json) : Prop :=
  wf_json v /\ is_container v = false.

(** What the loop keeps true of the object under construction: its keys
    are in order, its values are well-formed scalars, and every key is
    the key of a row that is not a container. *)
Definition built_from (rows : list NodeRow) (obj : literal) : Prop :=
  canonical (map fst (own obj))
  /\ Forall (fun p => flat_value (snd p)) (own obj)
  /\ forall k, In k (map fst (own obj)) ->
       exists row, In row rows /\ row_key row = Some k /\ non_container row = true.

(** A segment whose rendering can be read back: a name without a double
    quote, or a well-formed number. *)
Definition plain_segment (seg : segment) : Prop :=
  match seg with
  | SegStr s => ~ In QUOTE s
  | SegNum x => wf_number x
  end.

(** A code unit that is neither a double quote nor a closing bracket. *)
Definition path_safe (c : N) : Prop := c <> QUOTE /\ c <> 93%N.

(* ================================================================== *)
(** * Sample inputs *)
(* ================================================================== *)

Definition sample_json : jsstring := js "{'a': {'b': 1}, 'c': [true, null]}".

Definition sample_doc : json :=
  JObj [(js "a", JObj [(js "b", JNum (number_of_Z 1))]);
        (js "c", JArr [JBool true; JNull])].

Definition sample_rows : list NodeRow :=
  [ {| row_key := Some (js "a"); row_value := VNumber (number_of_Z 1);
       row_type := js "number" |};
    {| row_key := Some (js "o"); row_value := VNull; row_type := js "object" |};
    {| row_key := Some (js "b"); row_value := VString (js "x");
       row_type := js "string" |};
    {| row_key := Some (js "a"); row_value := VBoolean true;
       row_type := js "boolean" |} ].

Definition sample_world (json : jsstring) (p : list segment) : World :=
  {| selectedNode := Some {| text := []; path := Some p |};
     jsonStore := json;
     fileStore := {| contents := json; hasChanges := false |};
     toasts := [] |}.

Definition sample_state (value : jsstring) : ModalState :=
  {| isEditing := true; editValue := value; originalValue := js "1" |}.

(** The node of the number at [$["a"]["b"]] of the sample document, and
    the node of the document itself. *)
Definition sample_leaf_node : NodeData :=
  {| text := [ {| row_key := None; row_value := VNumber (number_of_Z 1);
                  row_type := js "number" |} ];
     path := Some [SegStr (js "a"); SegStr (js "b")] |}.

Definition sample_root_node : NodeData :=
  {| text := [ {| row_key := Some (js "a"); row_value := VNull;
                  row_type := js "object" |};
               {| row_key := Some (js "c"); row_value := VNull;
                  row_type := js "array" |} ];
     path := Some [] |}.

Definition sample_selection (node : NodeData) : World :=
  {| selectedNode := Some node;
     jsonStore := sample_json;
     fileStore := {| contents := sample_json; hasChanges := false |};
     toasts := [] |}.

(** A document with a string that reads as a boolean, and the node of
    that string. *)
Definition sample_true_node : NodeData :=
  {| text := [ {| row_key := None; row_value := VString (js "true");
                  row_type := js "string" |} ];
     path := Some [SegStr (js "flag")] |}.

Definition sample_reparsed (node : NodeData) : World :=
  {| selectedNode := Some node;
     jsonStore := js "{'flag': 'true'}";
     fileStore := {| contents := js "{'flag': 'true'}"; hasChanges := false |};
     toasts := [] |}.

(* ================================================================== *)
(** * Basic facts *)
(* ================================================================== *)

Lemma str_eqb_eq (a b : jsstring) : str_eqb a b = true <-> a = b.
Proof.
  revert b; induction a as [|x a IH]; intros [|y b]; simpl;
    try (split; [discriminate|discriminate]); try tauto.
  rewrite andb_true_iff, N.eqb_eq, IH.
  split; [intros [-> ->]; reflexivity | intros H; inversion H; auto].
Qed.

Lemma str_eqb_refl (a : jsstring) : str_eqb a a = true.
Proof. apply str_eqb_eq; reflexivity. Qed.

Lemma str_eqb_neq (a b : jsstring) : str_eqb a b = false <-> a <> b.
Proof.
  rewrite <- str_eqb_eq. destruct (str_eqb a b); split; congruence.
Qed.

(** [updateJsonAtPath] converts every exception into its one [Error]. *)
Lemma updateJsonAtPath_throws json p newValue e :
  updateJsonAtPath json p newValue = Throw e ->
  e = {| message := js "Failed to update JSON. Please check your input." |}.
Proof.
  unfold updateJsonAtPath, try_catch.
  match goal with |- match ?c with _ => _ end = _ -> _ => destruct c end;
    intros H; inversion H; reflexivity.
Qed.

Lemma join_brackets seg p :
  join (js "][") (map render_segment (seg :: p)) ++ js "]"
  = skipn 1 (concat (map bracketed (seg :: p))).
Proof.
  revert seg; induction p as [|seg' p IH]; intros seg.
  - destruct seg; simpl; rewrite <- ?app_assoc; reflexivity.
  - change (map render_segment (seg :: seg' :: p))
      with (render_segment seg :: map render_segment (seg' :: p)).
    change (join (js "][") (render_segment seg :: map render_segment (seg' :: p)))
      with (render_segment seg ++ js "][" ++ join (js "][") (map render_segment (seg' :: p))).
    rewrite <- !app_assoc, IH.
    destruct seg, seg'; simpl; rewrite <- ?app_assoc; reflexivity.
Qed.

(* ================================================================== *)
(** * Decimal digits *)
(* ================================================================== *)

Lemma is_digit_spec c : is_digit c = true <-> (48 <= c <= 57)%N.
Proof. unfold is_digit. rewrite andb_true_iff, !N.leb_le. tauto. Qed.

Lemma all_digits_app a b : all_digits a -> all_digits b -> all_digits (a ++ b).
Proof. intros; apply Forall_app; auto. Qed.

Lemma all_digits_zeros n : all_digits (repeat 48%N n).
Proof. induction n; simpl; constructor; auto. Qed.

Lemma span_digits_app ds rest :
  all_digits ds -> digit_end rest -> span_digits (ds ++ rest) = (ds, rest).
Proof.
  intros Hds Hrest. induction Hds as [|c ds Hc _ IH]; cbn [app span_digits].
  - destruct rest as [|c r]; [reflexivity|]. cbn [span_digits].
    simpl in Hrest. now rewrite Hrest.
  - now rewrite Hc, IH.
Qed.

Lemma span_digits_end rest : digit_end rest -> span_digits rest = ([], rest).
Proof. intros H. apply (@span_digits_app [] rest); [constructor|exact H]. Qed.

Lemma uint_units_digits d : all_digits (uint_units d).
Proof. induction d; simpl; constructor; auto. Qed.

Lemma fold_digits_acc d acc :
  fold_left (fun a c => (10 * a + digit_val c)%N) (uint_units d) (N.pos acc)
  = N.pos (Pos.of_uint_acc d acc).
Proof.
  revert acc; induction d; intros acc;
    cbn [uint_units fold_left Pos.of_uint_acc]; try reflexivity;
    rewrite <- IHd; f_equal; unfold digit_val; lia.
Qed.

Lemma digits_to_N_units d : digits_to_N (uint_units d) = N.of_uint d.
Proof.
  unfold digits_to_N, N.of_uint.
  induction d; simpl; try reflexivity; try apply IHd; apply fold_digits_acc.
Qed.

Lemma digits_to_N_to_digits n : digits_to_N (N_to_digits n) = n.
Proof.
  unfold N_to_digits. rewrite digits_to_N_units. apply DecimalN.Unsigned.of_to.
Qed.

Lemma N_to_digits_digits n : all_digits (N_to_digits n).
Proof. apply uint_units_digits. Qed.

Lemma N_to_digits_nonempty n : N_to_digits n <> [].
Proof.
  unfold N_to_digits. destruct n as [|p]; simpl; [discriminate|].
  pose proof (Unsigned.to_uint_nonnil p) as H.
  destruct (Pos.to_uint p); simpl; try discriminate. now elim H.
Qed.

(** ** Leading and trailing zeros *)

Lemma strip_zeros_zeros z ds :
  hd 49%N ds <> 48%N -> strip_zeros (repeat 48%N z ++ ds) = ds.
Proof.
  intros H. induction z; simpl; [|exact IHz].
  destruct ds as [|c t]; [reflexivity|]. simpl in H.
  destruct (N.eq_dec c 48) as [->|Hne]; [now elim H|].
  simpl. destruct c as [|p]; [reflexivity|].
  do 6 (destruct p as [p|p|]; try reflexivity).
  now elim Hne.
Qed.

Lemma rev_repeat (A : Type) (x : A) n : rev (repeat x n) = repeat x n.
Proof.
  induction n; simpl; [reflexivity|].
  rewrite IHn. clear IHn. induction n; simpl; [reflexivity|]. now rewrite IHn.
Qed.

Lemma hd_rev_last (A : Type) (d : A) l : hd d (rev l) = last l d.
Proof.
  induction l as [|a l IH]; [reflexivity|].
  simpl rev. destruct l as [|b l]; [reflexivity|].
  change (last (a :: b :: l) d) with (last (b :: l) d). rewrite <- IH.
  destruct (rev (b :: l)) eqn:E; [|reflexivity].
  apply (f_equal (@length A)) in E. rewrite length_rev in E. discriminate.
Qed.

Lemma strip_trailing_zeros ds t :
  last ds 49%N <> 48%N -> strip_trailing (ds ++ repeat 48%N t) = ds.
Proof.
  intros H. unfold strip_trailing.
  rewrite rev_app_distr, rev_repeat, strip_zeros_zeros, rev_involutive; auto.
  now rewrite hd_rev_last.
Qed.

(** ** Number literals *)

Lemma number_end_digit_end rest : number_end rest = true -> digit_end rest.
Proof.
  destruct rest as [|c r]; simpl; [trivial|].
  rewrite !andb_true_iff, negb_true_iff. tauto.
Qed.

Lemma neq_eqb c d : c <> d -> N.eqb c d = false.
Proof. apply N.eqb_neq. Qed.

Lemma parse_int_part_digits ds rest :
  all_digits ds -> ds <> [] -> hd 49%N ds <> 48%N -> digit_end rest ->
  parse_int_part (ds ++ rest) = Some (ds, rest).
Proof.
  intros Hds Hne Hhd Hrest. destruct ds as [|c t]; [now elim Hne|].
  inversion Hds as [|? ? Hc Ht]; subst. simpl in Hhd.
  cbn [app parse_int_part].
  rewrite (neq_eqb Hhd), Hc, span_digits_app by auto. reflexivity.
Qed.

Lemma parse_frac_absent rest :
  match rest with [] => True | c :: _ => c <> 46%N end ->
  parse_frac rest = Some ([], rest).
Proof.
  destruct rest as [|c r]; [reflexivity|]. intros H.
  cbn [parse_frac]. now rewrite (neq_eqb H).
Qed.

Lemma parse_frac_digits ds rest :
  all_digits ds -> ds <> [] -> digit_end rest ->
  parse_frac (46%N :: ds ++ rest) = Some (ds, rest).
Proof.
  intros Hds Hne Hrest. cbn [parse_frac]. rewrite N.eqb_refl.
  rewrite span_digits_app by auto. destruct ds; [now elim Hne|reflexivity].
Qed.

Lemma parse_exp_absent rest :
  match rest with [] => True | c :: _ => c <> 101%N /\ c <> 69%N end ->
  parse_exp rest = Some (0%Z, rest).
Proof.
  destruct rest as [|c r]; [reflexivity|]. intros [H1 H2].
  cbn [parse_exp]. now rewrite (neq_eqb H1), (neq_eqb H2).
Qed.

Lemma parse_exp_digits e rest :
  digit_end rest ->
  parse_exp (exponent_text e ++ rest) = Some (e, rest).
Proof.
  intros Hrest. unfold exponent_text.
  assert (Hspan : span_digits (N_to_digits (Z.abs_N e) ++ rest)
                  = (N_to_digits (Z.abs_N e), rest))
    by (apply span_digits_app; auto using N_to_digits_digits).
  assert (Hne := @N_to_digits_nonempty (Z.abs_N e)).
  rewrite <- !app_assoc.
  destruct (e <? 0)%Z eqn:He;
    change (js "e") with [101%N];
    [change (js "-") with [45%N] | change (js "+") with [43%N]];
    cbn [app parse_exp parse_sign N.eqb Pos.eqb orb];
    rewrite Hspan; destruct (N_to_digits (Z.abs_N e)) eqn:E;
    try (now elim Hne); rewrite <- E, digits_to_N_to_digits;
    do 2 f_equal; [apply Z.ltb_lt in He | apply Z.ltb_ge in He]; lia.
Qed.

Lemma number_end_frac rest :
  number_end rest = true -> match rest with [] => True | c :: _ => c <> 46%N end.
Proof.
  destruct rest as [|c r]; simpl; [trivial|].
  rewrite !andb_true_iff, !negb_true_iff, !N.eqb_neq. tauto.
Qed.

Lemma number_end_exp rest :
  number_end rest = true ->
  match rest with [] => True | c :: _ => c <> 101%N /\ c <> 69%N end.
Proof.
  destruct rest as [|c r]; simpl; [trivial|].
  rewrite !andb_true_iff, !negb_true_iff, !N.eqb_neq. tauto.
Qed.

Lemma hd_app_nonempty (A : Type) (d : A) l l' : l <> [] -> hd d (l ++ l') = hd d l.
Proof. destruct l; [congruence|reflexivity]. Qed.

Lemma make_number_normal neg ds n z t n0 :
  wf_number (Fin neg ds n) -> ds <> [] -> n0 = (n + Z.of_nat z)%Z ->
  make_number neg (repeat 48%N z ++ ds ++ repeat 48%N t) n0 = Fin neg ds n.
Proof.
  intros (Hds & Hhd & Hlast & _ & Hov) Hne ->. unfold make_number.
  rewrite strip_zeros_zeros by (rewrite hd_app_nonempty; auto).
  rewrite strip_trailing_zeros by auto.
  rewrite !length_app, !repeat_length.
  replace (n + Z.of_nat z - Z.of_nat (z + (length ds + t) - (length ds + t)))%Z
    with n by lia.
  rewrite Hov. destruct ds; [now elim Hne|reflexivity].
Qed.

Lemma parse_magnitude_toString neg ds n rest :
  wf_number (Fin neg ds n) -> ds <> [] -> number_end rest = true ->
  parse_magnitude neg (digits_toString ds n ++ rest) = Some (Fin neg ds n, rest).
Proof.
  intros Hwf Hne Hrest.
  pose proof Hwf as (Hds & Hhd & Hlast & _ & Hov).
  pose proof (number_end_digit_end _ Hrest) as Hde.
  pose proof (number_end_frac _ Hrest) as Hfr.
  pose proof (number_end_exp _ Hrest) as Hex.
  unfold digits_toString, parse_magnitude.
  set (k := Z.of_nat (length ds)).
  assert (Hk : (0 < k)%Z) by (destruct ds; [now elim Hne|simpl in k; lia]).
  destruct ((k <=? n)%Z && (n <=? 21)%Z) eqn:C1.
  { (* digits followed by zeros *)
    apply andb_true_iff in C1. destruct C1 as [C1 _]. apply Z.leb_le in C1.
    set (zs := repeat 48%N (Z.to_nat (n - k))).
    assert (H1 : all_digits (ds ++ zs))
      by (apply all_digits_app; auto; apply all_digits_zeros).
    assert (H2 : ds ++ zs <> []) by (destruct ds; [now elim Hne|simpl; discriminate]).
    assert (H3 : hd 49%N (ds ++ zs) <> 48%N) by (rewrite hd_app_nonempty; auto).
    rewrite parse_int_part_digits by assumption.
    rewrite parse_frac_absent, parse_exp_absent by auto.
    rewrite app_nil_r. f_equal. f_equal.
    apply (@make_number_normal neg ds n 0 (Z.to_nat (n - k))); auto.
    rewrite length_app. unfold zs. rewrite repeat_length. fold k. lia. }
  destruct ((0 <? n)%Z && (n <=? 21)%Z) eqn:C2.
  { (* digits around a point *)
    apply andb_true_iff in C2. destruct C2 as [C2 C2']. apply Z.ltb_lt in C2.
    apply Z.leb_le in C2'.
    apply andb_false_iff in C1.
    assert (Hnk : (n < k)%Z)
      by (destruct C1 as [C1|C1]; apply Z.leb_gt in C1; lia).
    set (a := firstn (Z.to_nat n) ds). set (b := skipn (Z.to_nat n) ds).
    assert (Hab : a ++ b = ds) by apply firstn_skipn.
    assert (Hlen : length a = Z.to_nat n)
      by (apply firstn_length_le; subst k; lia).
    assert (Hda : all_digits a /\ all_digits b)
      by (unfold all_digits; rewrite <- Hab in Hds; apply Forall_app in Hds; tauto).
    destruct Hda as [Hda Hdb].
    assert (Ha : a <> []) by (intros E; rewrite E in Hlen; simpl in Hlen; lia).
    assert (Hb : b <> []).
    { intros E. rewrite E, app_nil_r in Hab. rewrite Hab in Hlen. subst k. lia. }
    assert (Hha : hd 49%N a <> 48%N)
      by (rewrite <- Hab in Hhd; rewrite hd_app_nonempty in Hhd; auto).
    rewrite <- !app_assoc.
    rewrite parse_int_part_digits by (auto; reflexivity).
    change (js "." ++ b ++ rest) with (46%N :: b ++ rest).
    rewrite parse_frac_digits by auto.
    rewrite parse_exp_absent by auto. rewrite Hab.
    f_equal. f_equal.
    replace ds with (repeat 48%N 0 ++ ds ++ repeat 48%N 0) at 1
      by (simpl; apply app_nil_r).
    apply make_number_normal; auto. rewrite Hlen. lia. }
  destruct ((-6 <? n)%Z && (n <=? 0)%Z) eqn:C3.
  { (* zero, a point, zeros and the digits *)
    apply andb_true_iff in C3. destruct C3 as [_ C3]. apply Z.leb_le in C3.
    set (zs := repeat 48%N (Z.to_nat (- n))).
    assert (H1 : all_digits (zs ++ ds))
      by (apply all_digits_app; auto; apply all_digits_zeros).
    assert (H2 : zs ++ ds <> [])
      by (destruct zs; destruct ds; try discriminate; now elim Hne).
    change (js "0.") with [48%N; 46%N].
    cbn [app parse_int_part N.eqb Pos.eqb].
    rewrite parse_frac_digits by auto.
    rewrite parse_exp_absent by auto. f_equal. f_equal.
    replace (48%N :: zs ++ ds)
      with (repeat 48%N (S (Z.to_nat (- n))) ++ ds ++ repeat 48%N 0)
      by (simpl; now rewrite app_nil_r).
    apply make_number_normal; auto. simpl length. lia. }
  (* exponent form *)
  destruct ds as [|d t]; [now elim Hne|].
  inversion Hds as [|? ? Hd Ht]; subst. simpl in Hhd.
  assert (Hint : forall r, digit_end r -> parse_int_part (d :: r) = Some ([d], r)).
  { intros r Hr. cbn [parse_int_part]. rewrite (neq_eqb Hhd), Hd.
    now rewrite span_digits_end. }
  destruct (list_eq_dec N.eq_dec t []) as [->|Htne].
  - change (scientific [d] (n - 1)) with (d :: exponent_text (n - 1)).
    cbn [app]. rewrite Hint by (unfold exponent_text; reflexivity).
    rewrite parse_frac_absent by (unfold exponent_text; simpl; discriminate).
    rewrite parse_exp_digits by auto. f_equal. f_equal.
    apply (@make_number_normal neg [d] n 0 0); auto. simpl length. lia.
  - replace (scientific (d :: t) (n - 1))
      with (d :: 46%N :: t ++ exponent_text (n - 1))
      by (destruct t; [now elim Htne|reflexivity]).
    cbn [app]. rewrite Hint by reflexivity.
    rewrite <- app_assoc.
    rewrite parse_frac_digits by (auto; unfold exponent_text; reflexivity).
    rewrite parse_exp_digits by auto. f_equal. f_equal.
    replace ([d] ++ t) with (repeat 48%N 0 ++ (d :: t) ++ repeat 48%N 0)
      by (simpl; now rewrite app_nil_r).
    apply make_number_normal; [assumption | discriminate | simpl length; lia].
Qed.

Lemma digits_toString_head ds n :
  all_digits ds -> ds <> [] ->
  exists c t, digits_toString ds n = c :: t /\ is_digit c = true.
Proof.
  intros Hds Hne. destruct ds as [|d ds']; [now elim Hne|].
  inversion Hds as [|? ? Hd _]; subst.
  unfold digits_toString.
  destruct ((Z.of_nat (length (d :: ds')) <=? n)%Z && (n <=? 21)%Z).
  { simpl; eauto. }
  destruct ((0 <? n)%Z && (n <=? 21)%Z) eqn:C2.
  { apply andb_true_iff in C2. destruct C2 as [C2 _]. apply Z.ltb_lt in C2.
    destruct (Z.to_nat n) eqn:E; [lia|]. simpl; eauto. }
  destruct ((-6 <? n)%Z && (n <=? 0)%Z).
  { exists 48%N. eexists. split; reflexivity. }
  destruct ds'; simpl; eauto.
Qed.

Lemma parse_number_toString x rest :
  wf_number x -> number_end rest = true ->
  match x with
  | Fin _ _ _ => parse_number (Number_toString x ++ rest) = Some (x, rest)
  | Inf _ => True
  end.
Proof.
  intros Hwf Hrest. destruct x as [neg ds n|]; [|trivial].
  destruct (list_eq_dec N.eq_dec ds []) as [->|Hne].
  - destruct Hwf as (_ & _ & _ & Hz & _). destruct (Hz eq_refl) as [-> ->].
    change (Number_toString (Fin false [] 0)) with [48%N].
    cbn [app parse_number N.eqb Pos.eqb]. unfold parse_magnitude.
    cbn [parse_int_part N.eqb Pos.eqb].
    rewrite parse_frac_absent by (apply number_end_frac; auto).
    rewrite parse_exp_absent by (apply number_end_exp; auto).
    reflexivity.
  - replace (Number_toString (Fin neg ds n))
      with ((if neg then js "-" else []) ++ digits_toString ds n)
      by (destruct ds; [now elim Hne|reflexivity]).
    destruct neg.
    + change (js "-") with [45%N]. cbn [app parse_number N.eqb Pos.eqb].
      apply parse_magnitude_toString; auto.
    + cbn [app].
      pose proof Hwf as (Hds & _).
      destruct (digits_toString_head n Hds Hne) as (c & t & E & Hc).
      rewrite <- (@parse_magnitude_toString false ds n rest Hwf Hne Hrest). rewrite E.
      cbn [app parse_number].
      replace (N.eqb c 45) with false; [reflexivity|].
      symmetry. apply N.eqb_neq. apply is_digit_spec in Hc. lia.
Qed.

(* ================================================================== *)
(** * String literals *)
(* ================================================================== *)

Lemma hex_val_digit n : (n < 16)%N -> hex_val (hex_digit n) = Some n.
Proof.
  intros H. unfold hex_digit, hex_val, is_digit.
  destruct (n <? 10)%N eqn:E.
  - apply N.ltb_lt in E.
    replace ((48 <=? 48 + n)%N && (48 + n <=? 57)%N) with true
      by (symmetry; apply andb_true_iff; rewrite !N.leb_le; lia).
    f_equal; lia.
  - apply N.ltb_ge in E.
    replace ((48 <=? 87 + n)%N && (87 + n <=? 57)%N) with false
      by (symmetry; apply andb_false_iff; rewrite !N.leb_gt; lia).
    replace ((97 <=? 87 + n)%N && (87 + n <=? 102)%N) with true
      by (symmetry; apply andb_true_iff; rewrite !N.leb_le; lia).
    f_equal; lia.
Qed.

Lemma parse_hex4_escape c :
  (c < 65536)%N ->
  parse_hex4 (hex_digit (c / 4096)) (hex_digit ((c / 256) mod 16))
             (hex_digit ((c / 16) mod 16)) (hex_digit (c mod 16))
  = Some c.
Proof.
  intros H. unfold parse_hex4.
  rewrite !hex_val_digit;
    try (apply N.mod_lt; discriminate);
    try (apply N.Div0.div_lt_upper_bound; lia).
  f_equal.
  assert (D2 : (c / 16 / 16 = c / 256)%N) by (rewrite N.Div0.div_div; reflexivity).
  assert (D3 : (c / 256 / 16 = c / 4096)%N) by (rewrite N.Div0.div_div; reflexivity).
  pose proof (N.div_mod' c 16) as H1.
  pose proof (N.div_mod' (c / 16) 16) as H2.
  pose proof (N.div_mod' (c / 256) 16) as H3.
  rewrite D2 in H2. rewrite D3 in H3.
  lia.
Qed.

Lemma parse_chars_raw c X :
  c <> QUOTE -> c <> BACKSLASH -> (32 <= c)%N ->
  parse_chars (c :: X) = continue_with c (parse_chars X).
Proof.
  intros H1 H2 H3. cbn [parse_chars].
  rewrite (neq_eqb H1), (neq_eqb H2).
  replace (c <? 32)%N with false by (symmetry; apply N.ltb_ge; lia).
  reflexivity.
Qed.

Lemma parse_chars_quote_unit c X :
  parse_chars (quote_unit c ++ X) = continue_with c (parse_chars X).
Proof.
  unfold quote_unit.
  destruct (N.eqb c 8) eqn:E8; [apply N.eqb_eq in E8; subst; reflexivity|].
  destruct (N.eqb c TAB) eqn:E9; [apply N.eqb_eq in E9; subst; reflexivity|].
  destruct (N.eqb c LF) eqn:E10; [apply N.eqb_eq in E10; subst; reflexivity|].
  destruct (N.eqb c 12) eqn:E12; [apply N.eqb_eq in E12; subst; reflexivity|].
  destruct (N.eqb c CR) eqn:E13; [apply N.eqb_eq in E13; subst; reflexivity|].
  destruct (N.eqb c QUOTE) eqn:E34; [apply N.eqb_eq in E34; subst; reflexivity|].
  destruct (N.eqb c BACKSLASH) eqn:E92; [apply N.eqb_eq in E92; subst; reflexivity|].
  apply N.eqb_neq in E34, E92.
  destruct ((c <? 32)%N || is_high_surrogate c || is_low_surrogate c) eqn:E.
  - assert (Hc : (c < 65536)%N).
    { apply orb_true_iff in E. destruct E as [E|E];
        [apply orb_true_iff in E; destruct E as [E|E]|].
      - apply N.ltb_lt in E; lia.
      - unfold is_high_surrogate in E. apply andb_true_iff in E.
        destruct E as [_ E]. apply N.leb_le in E. lia.
      - unfold is_low_surrogate in E. apply andb_true_iff in E.
        destruct E as [_ E]. apply N.leb_le in E. lia. }
    unfold unicode_escape. cbn [app parse_chars N.eqb Pos.eqb].
    rewrite (parse_hex4_escape Hc). reflexivity.
  - apply orb_false_iff in E. destruct E as [E _].
    apply orb_false_iff in E. destruct E as [E _]. apply N.ltb_ge in E.
    cbn [app]. apply parse_chars_raw; auto.
Qed.

Lemma quote_units_pair c d t :
  quote_units (c :: d :: t)
  = if is_high_surrogate c && is_low_surrogate d
    then c :: d :: quote_units t
    else quote_unit c ++ quote_units (d :: t).
Proof. reflexivity. Qed.

Lemma parse_chars_quote_units s rest :
  parse_chars (quote_units s ++ QUOTE :: rest) = Some (s, rest).
Proof.
  remember (length s) as n eqn:Hn.
  revert s Hn. induction n as [n IH] using lt_wf_ind. intros s Hn.
  destruct s as [|c [|d t]].
  - reflexivity.
  - cbn [quote_units]. rewrite parse_chars_quote_unit. reflexivity.
  - rewrite quote_units_pair.
    destruct (is_high_surrogate c && is_low_surrogate d) eqn:E.
    + apply andb_true_iff in E. destruct E as [Ec Ed].
      unfold is_high_surrogate in Ec. unfold is_low_surrogate in Ed.
      apply andb_true_iff in Ec, Ed. rewrite !N.leb_le in Ec, Ed.
      cbn [app].
      rewrite parse_chars_raw by lia.
      rewrite parse_chars_raw by lia.
      rewrite (IH (length t)); [reflexivity| |reflexivity].
      subst n. simpl. lia.
    + rewrite <- app_assoc, parse_chars_quote_unit.
      rewrite (IH (length (d :: t))); [reflexivity| |reflexivity].
      subst n. simpl. lia.
Qed.

Lemma parse_chars_quote s rest :
  parse_chars (quote_units s ++ [QUOTE] ++ rest) = Some (s, rest).
Proof. apply parse_chars_quote_units. Qed.

(* ================================================================== *)
(** * Own properties *)
(* ================================================================== *)

Lemma obj_lookup_In k ps : obj_lookup k ps = None -> ~ In k (map fst ps).
Proof.
  induction ps as [|[k' v'] t IH]; simpl; [tauto|].
  destruct (str_eqb k k') eqn:E; [discriminate|].
  apply str_eqb_neq in E. intros H [H1|H1]; [congruence|now apply IH].
Qed.

Lemma obj_replace_keys k v ps : map fst (obj_replace k v ps) = map fst ps.
Proof.
  induction ps as [|[k' v'] t IH]; simpl; [reflexivity|].
  destruct (str_eqb k k'); simpl; [reflexivity|now rewrite IH].
Qed.

Lemma obj_lookup_replace_eq k v ps old :
  obj_lookup k ps = Some old -> obj_lookup k (obj_replace k v ps) = Some v.
Proof.
  induction ps as [|[k' v'] t IH]; simpl; [discriminate|].
  destruct (str_eqb k k') eqn:E; simpl; rewrite E; auto.
Qed.

Lemma obj_lookup_replace_ne k k' v ps :
  k' <> k -> obj_lookup k' (obj_replace k v ps) = obj_lookup k' ps.
Proof.
  intros Hne. induction ps as [|[k2 v2] t IH]; simpl; [reflexivity|].
  destruct (str_eqb k k2) eqn:E; simpl.
  - apply str_eqb_eq in E. subst k2.
    apply str_eqb_neq in Hne. now rewrite Hne.
  - now rewrite IH.
Qed.

Lemma obj_lookup_insert_eq k v ps :
  obj_lookup k ps = None -> obj_lookup k (obj_insert k v ps) = Some v.
Proof.
  induction ps as [|[k' v'] t IH]; simpl.
  - now rewrite str_eqb_refl.
  - destruct (str_eqb k k') eqn:E; [discriminate|]. intros H.
    destruct (precedes k k'); simpl.
    + now rewrite str_eqb_refl.
    + rewrite E. auto.
Qed.

Lemma obj_lookup_insert_ne k k' v ps :
  k' <> k -> obj_lookup k' (obj_insert k v ps) = obj_lookup k' ps.
Proof.
  intros Hne. apply str_eqb_neq in Hne.
  induction ps as [|[k2 v2] t IH]; simpl.
  - now rewrite Hne.
  - destruct (precedes k k2); simpl.
    + now rewrite Hne.
    + now rewrite IH.
Qed.

Lemma obj_insert_keys k v ps x :
  In x (map fst (obj_insert k v ps)) -> x = k \/ In x (map fst ps).
Proof.
  induction ps as [|[k' v'] t IH]; simpl.
  - intros [H|[]]; auto.
  - destruct (precedes k k'); simpl.
    + intros [H|[H|H]]; auto.
    + intros [H|H]; auto. destruct (IH H); auto.
Qed.

Lemma precedes_asym a b : precedes a b = true -> precedes b a = false.
Proof.
  unfold precedes.
  destruct (array_index a), (array_index b); try discriminate; auto.
  rewrite N.ltb_lt, N.ltb_ge. lia.
Qed.

Lemma precedes_before a b c :
  precedes a b = true -> precedes c b = false -> precedes c a = false.
Proof.
  unfold precedes.
  destruct (array_index a), (array_index b), (array_index c);
    try discriminate; auto.
  rewrite N.ltb_lt, !N.ltb_ge. lia.
Qed.

Lemma canonical_replace k v ps :
  canonical (map fst ps) -> canonical (map fst (obj_replace k v ps)).
Proof. now rewrite obj_replace_keys. Qed.

Lemma canonical_insert k v ps :
  canonical (map fst ps) -> obj_lookup k ps = None ->
  canonical (map fst (obj_insert k v ps)).
Proof.
  induction ps as [|[k' v'] t IH]; simpl.
  - intros _ _. split; [constructor|exact I].
  - intros [Hall Hcan]. destruct (str_eqb k k') eqn:E; [discriminate|].
    intros Hnone. apply str_eqb_neq in E.
    destruct (precedes k k') eqn:P; simpl.
    + split; [|split; assumption].
      constructor.
      * split; [assumption|now apply precedes_asym].
      * rewrite Forall_forall in *. intros x Hx. split.
        -- intros ->. now apply (obj_lookup_In _ _ Hnone).
        -- destruct (Hall x Hx) as [_ Hx']. now apply (precedes_before k k').
    + split; [|now apply IH].
      rewrite Forall_forall in *. intros x Hx.
      destruct (obj_insert_keys _ _ _ _ Hx) as [->|Hx'].
      * split; [congruence|assumption].
      * now apply Hall.
Qed.

Lemma canonical_define k v ps :
  canonical (map fst ps) -> canonical (map fst (obj_define k v ps)).
Proof.
  intros H. unfold obj_define. destruct (obj_lookup k ps) eqn:E.
  - now apply canonical_replace.
  - now apply canonical_insert.
Qed.

Lemma canonical_last_fresh k t :
  canonical (map fst t ++ [k]) -> obj_lookup k t = None.
Proof.
  induction t as [|[k' v'] t IH]; simpl; [reflexivity|].
  intros [Hall Hcan].
  apply Forall_app in Hall. destruct Hall as [_ Hk].
  inversion Hk as [|? ? [Hne _] _]; subst.
  replace (str_eqb k k') with false
    by (symmetry; apply str_eqb_neq; congruence).
  now apply IH.
Qed.

Lemma canonical_last_insert k v t :
  canonical (map fst t ++ [k]) -> obj_insert k v t = t ++ [(k, v)].
Proof.
  induction t as [|[k' v'] t IH]; simpl; [reflexivity|].
  intros [Hall Hcan].
  apply Forall_app in Hall. destruct Hall as [_ Hk].
  inversion Hk as [|? ? [_ Hp] _]; subst.
  rewrite Hp. now rewrite IH.
Qed.

Lemma obj_define_last k v acc :
  canonical (map fst (acc ++ [(k, v)])) -> obj_define k v acc = acc ++ [(k, v)].
Proof.
  rewrite map_app. simpl. intros H. unfold obj_define.
  rewrite (canonical_last_fresh _ _ H). now apply canonical_last_insert.
Qed.

Lemma canonical_app_l a b : canonical (a ++ b) -> canonical a.
Proof.
  induction a as [|k a IH]; simpl; [trivial|].
  intros [Hall Hcan]. apply Forall_app in Hall. split; [tauto|auto].
Qed.

Lemma Forall_obj_replace (P : json -> Prop) k v ps :
  P v -> Forall (fun p => P (snd p)) ps ->
  Forall (fun p => P (snd p)) (obj_replace k v ps).
Proof.
  intros Hv. induction 1 as [|[k' v'] t Hp Ht IH]; simpl; [constructor|].
  destruct (str_eqb k k'); constructor; auto.
Qed.

Lemma Forall_obj_insert (P : json -> Prop) k v ps :
  P v -> Forall (fun p => P (snd p)) ps ->
  Forall (fun p => P (snd p)) (obj_insert k v ps).
Proof.
  intros Hv. induction 1 as [|[k' v'] t Hp Ht IH]; simpl.
  - constructor; [exact Hv|constructor].
  - destruct (precedes k k'); repeat constructor; auto.
Qed.

Lemma Forall_obj_define (P : json -> Prop) k v ps :
  P v -> Forall (fun p => P (snd p)) ps ->
  Forall (fun p => P (snd p)) (obj_define k v ps).
Proof.
  intros Hv Hps. unfold obj_define. destruct (obj_lookup k ps).
  - now apply Forall_obj_replace.
  - now apply Forall_obj_insert.
Qed.

Lemma obj_lookup_Forall (P : json -> Prop) k ps v :
  Forall (fun p => P (snd p)) ps -> obj_lookup k ps = Some v -> P v.
Proof.
  induction 1 as [|[k' v'] t Hp Ht IH]; simpl; [discriminate|].
  destruct (str_eqb k k'); [intros H; inversion H; subst; exact Hp|exact IH].
Qed.

(** ** Array indices *)

Lemma nth_error_list_set_eq (A : Type) i (x : A) l :
  (i < length l)%nat -> nth_error (list_set i x l) i = Some x.
Proof.
  revert i; induction l as [|y l IH]; intros [|i]; simpl; intros H; try lia; auto;
    apply IH; lia.
Qed.

Lemma nth_error_list_set_ne (A : Type) i j (x : A) l :
  i <> j -> nth_error (list_set i x l) j = nth_error l j.
Proof.
  revert i j; induction l as [|y l IH]; intros [|i] [|j]; simpl; intros H;
    auto; try lia; apply IH; lia.
Qed.

Lemma Forall_list_set (A : Type) (P : A -> Prop) i x l :
  P x -> Forall P l -> Forall P (list_set i x l).
Proof.
  intros Hx H. revert i. induction H as [|y l Hy Hl IH]; intros [|i]; simpl;
    constructor; auto.
Qed.

Lemma digit_cases c :
  is_digit c = true ->
  (c = 48 \/ c = 49 \/ c = 50 \/ c = 51 \/ c = 52 \/ c = 53 \/ c = 54
   \/ c = 55 \/ c = 56 \/ c = 57)%N.
Proof. intros H. apply is_digit_spec in H. lia. Qed.

Lemma uint_units_units k : all_digits k -> uint_units (units_uint k) = k.
Proof.
  induction 1 as [|c t Hc _ IH]; [reflexivity|].
  destruct (digit_cases _ Hc) as [E|[E|[E|[E|[E|[E|[E|[E|[E|E]]]]]]]]];
    subst c; simpl; now rewrite IH.
Qed.

Lemma unorm_units k :
  all_digits k -> k <> [] -> (hd 48%N k <> 48%N \/ k = [48%N]) ->
  Decimal.unorm (units_uint k) = units_uint k.
Proof.
  intros Hk Hne [Hhd| ->]; [|reflexivity].
  destruct k as [|c t]; [now elim Hne|].
  inversion Hk as [|? ? Hc _]; subst. simpl in Hhd.
  destruct (digit_cases _ Hc) as [E|[E|[E|[E|[E|[E|[E|[E|[E|E]]]]]]]]];
    subst c; try reflexivity. now elim Hhd.
Qed.

Lemma N_to_digits_of_digits k :
  all_digits k -> k <> [] -> (hd 48%N k <> 48%N \/ k = [48%N]) ->
  N_to_digits (digits_to_N k) = k.
Proof.
  intros Hk Hne Hc. unfold N_to_digits.
  rewrite <- (uint_units_units Hk) at 1.
  rewrite digits_to_N_units, DecimalN.Unsigned.to_of, unorm_units by assumption.
  now apply uint_units_units.
Qed.

Lemma array_index_some k i :
  array_index k = Some i ->
  all_digits k /\ k <> [] /\ (hd 48%N k <> 48%N \/ k = [48%N])
  /\ digits_to_N k = i /\ (i < 4294967295)%N.
Proof.
  unfold array_index. destruct k as [|c t]; [discriminate|].
  destruct (forallb is_digit (c :: t)) eqn:Hd; [|discriminate].
  destruct (negb (N.eqb c 48) || match t with [] => true | _ => false end) eqn:Hz;
    [|discriminate].
  destruct (length (c :: t) <=? 10)%nat; [|discriminate].
  destruct (digits_to_N (c :: t) <? 4294967295)%N eqn:Hv; [|discriminate].
  cbn [andb]. intros H; inversion H; subst. apply N.ltb_lt in Hv.
  repeat split; auto.
  - apply Forall_forall. rewrite forallb_forall in Hd. exact Hd.
  - discriminate.
  - apply orb_true_iff in Hz. destruct Hz as [Hz|Hz].
    + left. simpl. apply negb_true_iff in Hz. now apply N.eqb_neq.
    + destruct t; [|discriminate]. simpl.
      destruct (N.eq_dec c 48); [right; congruence|left; assumption].
Qed.

Lemma array_index_inj a b i :
  array_index a = Some i -> array_index b = Some i -> a = b.
Proof.
  intros Ha Hb.
  apply array_index_some in Ha, Hb.
  destruct Ha as (Ha1 & Ha2 & Ha3 & Ha4 & _).
  destruct Hb as (Hb1 & Hb2 & Hb3 & Hb4 & _).
  rewrite <- (N_to_digits_of_digits Ha1 Ha2 Ha3).
  rewrite <- (N_to_digits_of_digits Hb1 Hb2 Hb3).
  congruence.
Qed.

(* ================================================================== *)
(** * What JSON.parse builds is well formed *)
(* ================================================================== *)

Lemma strip_zeros_cons_ne c t : c <> 48%N -> strip_zeros (c :: t) = c :: t.
Proof.
  intros Hne. destruct c as [|p]; [reflexivity|].
  do 6 (destruct p as [p|p|]; try reflexivity).
  now elim Hne.
Qed.

Lemma strip_zeros_hd l : hd 49%N (strip_zeros l) <> 48%N.
Proof.
  induction l as [|c t IH]; [simpl; discriminate|].
  destruct (N.eq_dec c 48) as [->|Hne]; [exact IH|].
  now rewrite strip_zeros_cons_ne.
Qed.

Lemma strip_zeros_decomp l : exists z, l = repeat 48%N z ++ strip_zeros l.
Proof.
  induction l as [|c t [z IH]]; [exists 0%nat; reflexivity|].
  destruct (N.eq_dec c 48) as [->|Hne].
  - exists (S z). simpl. now rewrite <- IH.
  - exists 0%nat. now rewrite strip_zeros_cons_ne.
Qed.

Lemma strip_zeros_digits l : all_digits l -> all_digits (strip_zeros l).
Proof.
  intros H. destruct (strip_zeros_decomp l) as [z E]. rewrite E in H.
  apply Forall_app in H. tauto.
Qed.

Lemma strip_trailing_decomp l : exists z, l = strip_trailing l ++ repeat 48%N z.
Proof.
  destruct (strip_zeros_decomp (rev l)) as [z E]. exists z.
  apply (f_equal (@rev N)) in E.
  rewrite rev_involutive, rev_app_distr, rev_repeat in E. exact E.
Qed.

Lemma strip_trailing_digits l : all_digits l -> all_digits (strip_trailing l).
Proof.
  intros H. destruct (strip_trailing_decomp l) as [z E]. rewrite E in H.
  apply Forall_app in H. tauto.
Qed.

Lemma strip_trailing_last l : last (strip_trailing l) 49%N <> 48%N.
Proof.
  unfold strip_trailing. rewrite <- hd_rev_last, rev_involutive.
  apply strip_zeros_hd.
Qed.

Lemma strip_trailing_hd l : hd 49%N l <> 48%N -> hd 49%N (strip_trailing l) <> 48%N.
Proof.
  intros H. destruct (strip_trailing_decomp l) as [z E].
  destruct (strip_trailing l) as [|c t] eqn:Es; [discriminate|].
  rewrite E in H. exact H.
Qed.

Lemma wf_make_number neg all n0 : all_digits all -> wf_number (make_number neg all n0).
Proof.
  intros Hall. unfold make_number.
  set (ds := strip_trailing (strip_zeros all)).
  assert (Hds : all_digits ds) by now apply strip_trailing_digits, strip_zeros_digits.
  assert (Hhd : hd 49%N ds <> 48%N) by apply strip_trailing_hd, strip_zeros_hd.
  assert (Hlast : last ds 49%N <> 48%N) by apply strip_trailing_last.
  destruct ds as [|c t] eqn:E.
  - simpl. repeat split; auto; discriminate.
  - destruct (overflows (c :: t) _) eqn:Ho; [exact I|].
    repeat split; auto; discriminate.
Qed.

Lemma span_digits_digits s ds r : span_digits s = (ds, r) -> all_digits ds.
Proof.
  revert ds r; induction s as [|c t IH]; intros ds r; cbn [span_digits].
  - intros H; inversion H; constructor.
  - destruct (is_digit c) eqn:Hc.
    + destruct (span_digits t) as [ds' r'] eqn:E. intros H; inversion H; subst.
      constructor; [exact Hc|]. eapply IH; reflexivity.
    + intros H; inversion H; constructor.
Qed.

Lemma parse_magnitude_wf neg s x r :
  parse_magnitude neg s = Some (x, r) -> wf_number x.
Proof.
  unfold parse_magnitude.
  destruct (parse_int_part s) as [[ip s2]|] eqn:Ei; [|discriminate].
  destruct (parse_frac s2) as [[fp s3]|] eqn:Ef; [|discriminate].
  destruct (parse_exp s3) as [[e s4]|]; [|discriminate].
  intros H; inversion H; subst. apply wf_make_number.
  apply Forall_app. split.
  - unfold parse_int_part in Ei. destruct s as [|c t]; [discriminate|].
    destruct (N.eqb c 48) eqn:E0.
    + inversion Ei; subst. repeat constructor.
    + destruct (is_digit c) eqn:Hc; [|discriminate].
      destruct (span_digits t) as [ds r'] eqn:Es. inversion Ei; subst.
      constructor; [exact Hc|]. eapply span_digits_digits; eassumption.
  - unfold parse_frac in Ef. destruct s2 as [|c t]; [inversion Ef; constructor|].
    destruct (N.eqb c 46).
    + destruct (span_digits t) as [ds r'] eqn:Es.
      destruct ds; [discriminate|]. inversion Ef; subst.
      eapply span_digits_digits; eassumption.
    + inversion Ef; constructor.
Qed.

Lemma parse_number_wf s x r : parse_number s = Some (x, r) -> wf_number x.
Proof.
  unfold parse_number. destruct s as [|c t]; [discriminate|].
  destruct (N.eqb c 45); apply parse_magnitude_wf.
Qed.

Lemma parse_literal_wf s v r : parse_literal s = Some (v, r) -> wf_json v.
Proof.
  unfold parse_literal.
  destruct (strip_prefix (js "null") s); [intros H; inversion H; constructor|].
  destruct (strip_prefix (js "true") s); [intros H; inversion H; constructor|].
  destruct (strip_prefix (js "false") s); [intros H; inversion H; constructor|].
  discriminate.
Qed.

Lemma wf_props_define k v ps :
  wf_json v -> wf_props ps -> wf_props (obj_define k v ps).
Proof.
  intros Hv [Hc Hf]. split.
  - now apply canonical_define.
  - now apply Forall_obj_define.
Qed.

Lemma parse_wf fuel :
  (forall s v r, parse_value fuel s = Some (v, r) -> wf_json v)
  /\ (forall s acc v r,
        Forall wf_json acc -> parse_elements fuel s acc = Some (v, r) -> wf_json v)
  /\ (forall s acc v r,
        wf_props acc -> parse_members fuel s acc = Some (v, r) -> wf_json v).
Proof.
  induction fuel as [|f (IHv & IHe & IHm)].
  - repeat split; intros; discriminate.
  - repeat split.
    + intros s v r. cbn [parse_value].
      destruct s as [|c s']; [discriminate|].
      destruct (N.eqb c 123).
      { destruct (skip_ws s') as [|c1 r1]; [discriminate|].
        destruct (N.eqb c1 125).
        - intros H; inversion H. constructor; simpl; auto.
        - apply IHm. split; simpl; auto. }
      destruct (N.eqb c 91).
      { destruct (skip_ws s') as [|c1 r1]; [discriminate|].
        destruct (N.eqb c1 93).
        - intros H; inversion H. constructor; auto.
        - apply IHe. constructor. }
      destruct (N.eqb c QUOTE).
      { destruct (parse_chars s') as [[str r1]|]; [|discriminate].
        intros H; inversion H; constructor. }
      destruct (N.eqb c 45 || is_digit c).
      { destruct (parse_number (c :: s')) as [[x r1]|] eqn:E; [|discriminate].
        intros H; inversion H; subst. constructor.
        eapply parse_number_wf; eassumption. }
      apply parse_literal_wf.
    + intros s acc v r Hacc. cbn [parse_elements].
      destruct (parse_value f s) as [[e r1]|] eqn:E; [|discriminate].
      apply IHv in E.
      destruct (skip_ws r1) as [|c r2]; [discriminate|].
      destruct (N.eqb c 44); [apply IHe; constructor; auto|].
      destruct (N.eqb c 93); [|discriminate].
      intros H; inversion H; subst. constructor.
      apply Forall_app. split; [now apply Forall_rev|repeat constructor; auto].
    + intros s acc v r Hacc. cbn [parse_members].
      destruct s as [|q s']; [discriminate|].
      destruct (N.eqb q QUOTE); [|discriminate].
      destruct (parse_chars s') as [[k r1]|]; [|discriminate].
      destruct (skip_ws r1) as [|c r2]; [discriminate|].
      destruct (N.eqb c 58); [|discriminate].
      destruct (parse_value f (skip_ws r2)) as [[e r3]|] eqn:E; [|discriminate].
      apply IHv in E.
      destruct (skip_ws r3) as [|c' r4]; [discriminate|].
      destruct (N.eqb c' 44); [apply IHm; now apply wf_props_define|].
      destruct (N.eqb c' 125); [|discriminate].
      intros H; inversion H; subst.
      destruct (wf_props_define k E Hacc). now constructor.
Qed.

Lemma JSON_parse_wf text v : JSON.parse text = Some v -> wf_json v.
Proof.
  unfold JSON.parse.
  destruct (parse_value _ _) as [[v' r]|] eqn:E; [|discriminate].
  destruct (skip_ws r); [|discriminate].
  intros H; inversion H; subst.
  eapply (proj1 (parse_wf _)); eassumption.
Qed.

(* ================================================================== *)
(** * JSON.parse reads back what JSON.stringify writes *)
(* ================================================================== *)

(** Replace the literals of the goal by their code units. *)
Ltac js_lit :=
  repeat match goal with
         | |- context [js ?s] =>
             let v := eval vm_compute in (js s) in change (js s) with v
         end.

Ltac js_lit_in H :=
  repeat match type of H with
         | context [js ?s] =>
             let v := eval vm_compute in (js s) in change (js s) with v in H
         end.

Lemma skip_ws_start c t : is_ws c = false -> skip_ws (c :: t) = c :: t.
Proof. intros H. cbn [skip_ws]. now rewrite H. Qed.

Lemma skip_ws_indentation d X : skip_ws (indentation d ++ X) = skip_ws X.
Proof.
  unfold indentation. induction (2 * d)%nat as [|n IH]; [reflexivity|exact IH].
Qed.

Lemma skip_ws_newline d X : skip_ws (LF :: indentation d ++ X) = skip_ws X.
Proof. exact (skip_ws_indentation d X). Qed.

Lemma join_cons2 sep p q rest :
  join sep (p :: q :: rest) = p ++ sep ++ join sep (q :: rest).
Proof. reflexivity. Qed.

Lemma value_start_not_ws c : value_start c -> is_ws c = false.
Proof.
  unfold value_start, is_ws. intros H.
  repeat rewrite orb_false_iff. rewrite !N.eqb_neq.
  rewrite is_digit_spec in H. lia.
Qed.

Lemma value_start_not_close c : value_start c -> N.eqb c 93 = false.
Proof.
  unfold value_start. intros H. rewrite N.eqb_neq.
  rewrite is_digit_spec in H. lia.
Qed.

Lemma Number_toString_head x :
  wf_number x ->
  match x with
  | Fin _ _ _ =>
      exists c t, Number_toString x = c :: t /\ (c = 45%N \/ is_digit c = true)
  | Inf _ => True
  end.
Proof.
  destruct x as [neg ds n|]; [|trivial]. intros (Hds & _).
  destruct ds as [|d ds'] eqn:E.
  - exists 48%N, []. split; [reflexivity|right; reflexivity].
  - rewrite <- E in *.
    assert (Hne : ds <> []) by (rewrite E; discriminate).
    destruct (digits_toString_head n Hds Hne) as (c & t & Ec & Hc).
    replace (Number_toString (Fin neg ds n))
      with ((if neg then js "-" else []) ++ digits_toString ds n)
      by (rewrite E; reflexivity).
    rewrite Ec. destruct neg; simpl; eauto.
Qed.

Lemma wf_json_num x : wf_json (JNum x) -> wf_number x.
Proof. now inversion 1. Qed.

Lemma wf_json_arr elems : wf_json (JArr elems) -> Forall wf_json elems.
Proof. now inversion 1. Qed.

Lemma wf_json_obj props :
  wf_json (JObj props) ->
  canonical (map fst props) /\ Forall (fun p => wf_json (snd p)) props.
Proof. now inversion 1. Qed.

Lemma serialize_head d v :
  wf_json v -> exists c t, serialize d v = c :: t /\ value_start c.
Proof.
  unfold value_start. intros Hwf.
  destruct v as [|[|]|x|s|[|e l]|[|p l]];
    try (simpl; js_lit; do 2 eexists; split; [reflexivity|tauto]).
  - apply wf_json_num in Hwf. rename Hwf into Hx.
    destruct x as [neg ds n|neg];
      [|simpl; js_lit; do 2 eexists; split; [reflexivity|tauto]].
    destruct (Number_toString_head _ Hx) as (c & t & E & Hc).
    exists c, t. split; [|tauto].
    rewrite <- E. destruct ds; reflexivity.
Qed.

Lemma join_head sep d e l X :
  wf_json e ->
  exists c t,
    join sep (map (serialize d) (e :: l)) ++ X = c :: t /\ value_start c.
Proof.
  intros He. destruct (serialize_head d He) as (c & t & E & Hc).
  destruct l as [|e2 l].
  - simpl. rewrite E. simpl. eauto.
  - cbn [map]. rewrite join_cons2. rewrite <- (map_cons (serialize d)).
    rewrite E. simpl. eauto.
Qed.

Lemma parse_elements_join d0 d elems :
  Forall reads_back elems -> elems <> [] -> Forall wf_json elems ->
  forall acc rest fuel,
    (elems_size elems <= fuel)%nat ->
    parse_elements fuel
      (join (js ",~" ++ indentation d) (map (serialize d) elems)
         ++ js "~" ++ indentation d0 ++ js "]" ++ rest) acc
    = Some (JArr (rev acc ++ map rendered elems), rest).
Proof.
  induction 1 as [|e l He Hl IH]; [congruence|].
  intros _ Hwf acc rest fuel Hfuel.
  inversion Hwf as [|? ? Hwe Hwl]; subst.
  destruct fuel as [|f]; [simpl in Hfuel; lia|].
  cbn [elems_size fold_right] in Hfuel. fold (elems_size l) in Hfuel.
  destruct l as [|e2 l'].
  - cbn [map join]. cbn [parse_elements].
    js_lit. cbn [app].
    rewrite He; [|assumption|lia|reflexivity].
    rewrite skip_ws_newline. rewrite skip_ws_start by reflexivity.
    cbn [N.eqb Pos.eqb]. simpl rev. reflexivity.
  - cbn [map]. rewrite join_cons2. rewrite <- (map_cons (serialize d)).
    cbn [parse_elements].
    rewrite <- !app_assoc. js_lit. cbn [app].
    rewrite He; [|assumption|lia|reflexivity].
    rewrite skip_ws_start by reflexivity.
    cbn [N.eqb Pos.eqb].
    rewrite skip_ws_newline.
    destruct (@join_head (44%N :: LF :: indentation d) d e2 l'
                (LF :: indentation d0 ++ 93%N :: rest))
      as (c & t & E & Hc); [now inversion Hwl|].
    rewrite E. rewrite skip_ws_start by now apply value_start_not_ws.
    rewrite <- E.
    specialize (IH ltac:(discriminate) Hwl (rendered e :: acc) rest f).
    js_lit_in IH. cbn [app] in IH. rewrite IH by lia.
    simpl rev. now rewrite <- app_assoc.
Qed.

Lemma member_join_head sep d p l X :
  exists t, join sep (map (member_text d) (p :: l)) ++ X = QUOTE :: t.
Proof.
  destruct l as [|p2 l].
  - simpl. unfold member_text, quote. simpl. eauto.
  - cbn [map]. rewrite join_cons2. unfold member_text at 1, quote. simpl. eauto.
Qed.

Lemma parse_members_join d0 d props :
  Forall (fun p => reads_back (snd p)) props -> props <> [] ->
  Forall (fun p => wf_json (snd p)) props ->
  forall acc rest fuel,
    canonical (map fst (acc ++ props)) ->
    (props_size props <= fuel)%nat ->
    parse_members fuel
      (join (js ",~" ++ indentation d) (map (member_text d) props)
         ++ js "~" ++ indentation d0 ++ js "}" ++ rest) acc
    = Some (JObj (acc ++ map (fun p => (fst p, rendered (snd p))) props), rest).
Proof.
  induction 1 as [|[k v] l He Hl IH]; [congruence|].
  intros _ Hwf acc rest fuel Hcan Hfuel.
  inversion Hwf as [|? ? Hwe Hwl]; subst. simpl in He, Hwe.
  destruct fuel as [|f]; [simpl in Hfuel; lia|].
  cbn [props_size fold_right snd] in Hfuel. fold (props_size l) in Hfuel.
  assert (Hdef : obj_define k (rendered v) acc = acc ++ [(k, rendered v)]).
  { apply obj_define_last. rewrite map_app in *. simpl in *.
    apply (canonical_app_l (map fst acc ++ [k]) (map fst l)).
    now rewrite <- app_assoc. }
  assert (Hstart : forall X, exists c t,
             serialize d v ++ X = c :: t /\ is_ws c = false).
  { intros X. destruct (serialize_head d Hwe) as (c & t & E & Hc).
    exists c, (t ++ X). rewrite E. split; [reflexivity|].
    now apply value_start_not_ws. }
  destruct l as [|p2 l'].
  - cbn [map join]. unfold member_text, quote. cbn [fst snd].
    rewrite <- !app_assoc. cbn [app parse_members N.eqb Pos.eqb].
    rewrite <- !app_assoc. rewrite parse_chars_quote.
    js_lit. cbn [app].
    rewrite skip_ws_start by reflexivity. cbn [N.eqb Pos.eqb].
    destruct (Hstart (LF :: indentation d0 ++ 125%N :: rest)) as (c & t & E & Hc).
    cbn [skip_ws is_ws N.eqb Pos.eqb orb]. rewrite E, skip_ws_start by exact Hc.
    rewrite <- E.
    rewrite He; [|assumption|lia|reflexivity].
    rewrite skip_ws_newline. rewrite skip_ws_start by reflexivity.
    cbn [N.eqb Pos.eqb]. rewrite Hdef. reflexivity.
  - cbn [map]. rewrite join_cons2.
    unfold member_text at 1, quote. cbn [fst snd].
    rewrite <- !app_assoc. cbn [app parse_members N.eqb Pos.eqb].
    rewrite <- !app_assoc. rewrite parse_chars_quote.
    js_lit. cbn [app].
    rewrite skip_ws_start by reflexivity. cbn [N.eqb Pos.eqb].
    match goal with
    | |- context [serialize d v ++ ?X] =>
        destruct (Hstart X) as (c & t & E & Hc)
    end.
    cbn [skip_ws is_ws N.eqb Pos.eqb orb]. rewrite E, skip_ws_start by exact Hc.
    rewrite <- E.
    rewrite He; [|assumption|lia|reflexivity].
    rewrite skip_ws_start by reflexivity. cbn [N.eqb Pos.eqb].
    rewrite skip_ws_newline.
    destruct (@member_join_head (44%N :: LF :: indentation d) d p2 l'
                (LF :: indentation d0 ++ 125%N :: rest)) as (t' & E').
    rewrite <- (map_cons (member_text d)).
    rewrite E', skip_ws_start by reflexivity. rewrite <- E'.
    rewrite Hdef.
    specialize (IH ltac:(discriminate) Hwl (acc ++ [(k, rendered v)]) rest f).
    js_lit_in IH. cbn [app] in IH. rewrite IH.
    + now rewrite <- app_assoc.
    + rewrite <- app_assoc. rewrite map_app in *. exact Hcan.
    + lia.
Qed.

Lemma serialize_array d e l :
  serialize d (JArr (e :: l))
  = js "[~" ++ indentation (S d)
      ++ join (js ",~" ++ indentation (S d)) (map (serialize (S d)) (e :: l))
      ++ js "~" ++ indentation d ++ js "]".
Proof. reflexivity. Qed.

Lemma serialize_object d p l :
  serialize d (JObj (p :: l))
  = js "{~" ++ indentation (S d)
      ++ join (js ",~" ++ indentation (S d)) (map (member_text (S d)) (p :: l))
      ++ js "~" ++ indentation d ++ js "}".
Proof. reflexivity. Qed.

Lemma serialize_reads_back v : reads_back v.
Proof.
  induction v as [|b|x|s|elems IH|props IH] using json_ind;
    intros d rest fuel Hwf Hfuel Hrest;
    (destruct fuel as [|f]; [simpl in Hfuel; lia|]).
  - reflexivity.
  - destruct b; reflexivity.
  - apply wf_json_num in Hwf.
    destruct x as [neg ds n|neg]; [|reflexivity].
    destruct (Number_toString_head _ Hwf) as (c & t & E & Hc).
    pose proof (parse_number_toString _ rest Hwf Hrest) as Hp. cbn iota in Hp.
    replace (serialize d (JNum (Fin neg ds n))) with (Number_toString (Fin neg ds n))
      by (destruct ds; reflexivity).
    cbn [rendered].
    rewrite E in *. cbn [app parse_value] in *.
    assert (H45 : N.eqb c 45 || is_digit c = true)
      by (destruct Hc as [-> | ->]; [reflexivity|apply orb_true_r]).
    assert (Hr : (48 <= c <= 57)%N \/ c = 45%N)
      by (destruct Hc as [-> | Hc]; [auto|apply is_digit_spec in Hc; auto]).
    replace (N.eqb c 123) with false by (symmetry; apply N.eqb_neq; lia).
    replace (N.eqb c 91) with false by (symmetry; apply N.eqb_neq; lia).
    replace (N.eqb c QUOTE) with false by (symmetry; apply N.eqb_neq; lia).
    rewrite H45, Hp. reflexivity.
  - cbn [serialize rendered]. unfold quote.
    cbn [app parse_value N.eqb Pos.eqb].
    rewrite <- app_assoc. now rewrite parse_chars_quote.
  - apply wf_json_arr in Hwf.
    destruct elems as [|e l]; [reflexivity|].
    rewrite serialize_array. cbn [rendered].
    rewrite <- !app_assoc. js_lit. cbn [app parse_value N.eqb Pos.eqb].
    rewrite skip_ws_newline.
    destruct (@join_head (44%N :: LF :: indentation (S d)) (S d) e l
                (LF :: indentation d ++ 93%N :: rest))
      as (c & t & E & Hc); [now inversion Hwf|].
    rewrite E. rewrite skip_ws_start by now apply value_start_not_ws.
    rewrite (value_start_not_close Hc). rewrite <- E.
    pose proof (@parse_elements_join d (S d) (e :: l) IH ltac:(discriminate) Hwf
                  [] rest f) as Hp.
    js_lit_in Hp. cbn [app] in Hp. rewrite Hp; [reflexivity|].
    cbn [size] in Hfuel. unfold elems_size. lia.
  - apply wf_json_obj in Hwf. destruct Hwf as [Hcan Hwf].
    destruct props as [|p l]; [reflexivity|].
    rewrite serialize_object. cbn [rendered].
    rewrite <- !app_assoc. js_lit. cbn [app parse_value N.eqb Pos.eqb].
    rewrite skip_ws_newline.
    destruct (@member_join_head (44%N :: LF :: indentation (S d)) (S d) p l
                (LF :: indentation d ++ 125%N :: rest)) as (t & E).
    rewrite E. rewrite skip_ws_start by reflexivity.
    cbn [N.eqb Pos.eqb]. rewrite <- E.
    pose proof (@parse_members_join d (S d) (p :: l) IH ltac:(discriminate) Hwf
                  [] rest f Hcan) as Hp.
    js_lit_in Hp. cbn [app] in Hp. rewrite Hp; [reflexivity|].
    cbn [size] in Hfuel. unfold props_size. lia.
Qed.

Lemma join_length_elems sep (texts : list jsstring) (sizes : list nat) :
  (2 <= length sep)%nat ->
  Forall2 (fun t n => (n <= length t)%nat) texts sizes ->
  (fold_right (fun n m => S (n + m)) 0 sizes <= S (length (join sep texts)))%nat.
Proof.
  intros Hsep. induction 1 as [|t n texts sizes Hn Hr IH]; [simpl; lia|].
  destruct texts as [|t2 texts'].
  - inversion Hr; subst. cbv beta in Hn. simpl. lia.
  - rewrite join_cons2, !length_app. cbn [fold_right]. cbv beta in Hn.
    unfold jsstring in *. lia.
Qed.

Lemma fold_right_map_size (A : Type) (f : A -> nat) (l : list A) :
  fold_right (fun a m => S (f a + m)) 0%nat l
  = fold_right (fun n m => S (n + m)) 0%nat (map f l).
Proof. induction l as [|a l IH]; simpl; [reflexivity|now rewrite IH]. Qed.

Lemma Forall2_map_both (A B C : Type) (R : B -> C -> Prop) (f : A -> B)
  (g : A -> C) (l : list A) :
  Forall (fun a => R (f a) (g a)) l -> Forall2 R (map f l) (map g l).
Proof. induction 1; simpl; constructor; auto. Qed.

Lemma size_le_length v : forall d, (size v <= length (serialize d v))%nat.
Proof.
  induction v as [|b|x|s|elems IH|props IH] using json_ind; intros d.
  - simpl; lia.
  - destruct b; simpl; lia.
  - destruct x as [neg ds n|neg]; [|simpl; lia].
    replace (serialize d (JNum (Fin neg ds n))) with (Number_toString (Fin neg ds n))
      by (destruct ds; reflexivity).
    cbn [size]. destruct ds as [|c ds']; [simpl; lia|].
    cbn [Number_toString]. rewrite length_app. unfold digits_toString.
    destruct (_ && _); [rewrite length_app; simpl; lia|].
    destruct (_ && _); [rewrite !length_app; simpl; lia|].
    destruct (_ && _); [rewrite !length_app; simpl; lia|].
    destruct ds'; simpl; lia.
  - simpl. lia.
  - destruct elems as [|e l]; [simpl; lia|].
    rewrite serialize_array. cbn [size]. rewrite !length_app.
    rewrite fold_right_map_size.
    assert (H : (fold_right (fun n m => S (n + m)) 0 (map size (e :: l))
                 <= S (length (join (js ",~" ++ indentation (S d))
                                 (map (serialize (S d)) (e :: l)))))%nat).
    { apply join_length_elems; [rewrite length_app; simpl; lia|].
      apply Forall2_map_both. revert IH. apply Forall_impl. auto. }
    change (length (js "[~")) with 2%nat. change (length (js "]")) with 1%nat.
    unfold jsstring in *. lia.
  - destruct props as [|p l]; [simpl; lia|].
    rewrite serialize_object. cbn [size]. rewrite !length_app.
    rewrite (fold_right_map_size (fun p => size (snd p))).
    assert (H : (fold_right (fun n m => S (n + m)) 0
                   (map (fun p => size (snd p)) (p :: l))
                 <= S (length (join (js ",~" ++ indentation (S d))
                                 (map (member_text (S d)) (p :: l)))))%nat).
    { apply join_length_elems; [rewrite length_app; simpl; lia|].
      apply Forall2_map_both. revert IH. apply Forall_impl.
      intros a Ha. unfold member_text. rewrite !length_app.
      specialize (Ha (S d)). lia. }
    change (length (js "{~")) with 2%nat. change (length (js "}")) with 1%nat.
    unfold jsstring in *. lia.
Qed.

(** [JSON.parse] reads the text [JSON.stringify] writes for a well-formed
    value back as that value, with [null] for its infinite numbers. *)
Lemma parse_stringify v :
  wf_json v -> JSON.parse (JSON.stringify v) = Some (rendered v).
Proof.
  intros Hwf. unfold JSON.parse, JSON.stringify.
  destruct (serialize_head 0 Hwf) as (c & t & E & Hc).
  rewrite E, skip_ws_start by now apply value_start_not_ws.
  rewrite <- E.
  rewrite <- (app_nil_r (serialize 0 v)) at 2.
  rewrite serialize_reads_back; auto.
  pose proof (size_le_length v 0). lia.
Qed.

(* ================================================================== *)
(** * Walking and updating a parsed document *)
(* ================================================================== *)

Lemma locate_app doc ks rest :
  locate doc (ks ++ rest)
  = match locate doc ks with
    | Some sub => locate sub rest
    | None => None
    end.
Proof.
  revert doc; induction ks as [|k ks IH]; intros doc; [reflexivity|].
  cbn [app locate].
  destruct doc as [| | | |elems|props]; try reflexivity.
  - destruct (array_index k) as [i|]; [|reflexivity].
    destruct (nth_error elems (N.to_nat i)); [apply IH|reflexivity].
  - destruct (obj_lookup k props); [apply IH|reflexivity].
Qed.

Lemma navigate_locate doc prefix x :
  locate doc (map property_key prefix) = Some x ->
  navigate (Some doc) prefix = Normal (Some x).
Proof.
  revert doc; induction prefix as [|seg prefix IH]; intros doc.
  - simpl. intros H; inversion H; reflexivity.
  - cbn [map locate navigate].
    destruct doc as [| | | |elems|props]; try discriminate.
    + cbn [getProp]. destruct (array_index (property_key seg)) as [i|]; [|discriminate].
      destruct (nth_error elems (N.to_nat i)) as [child|]; [|discriminate].
      intros H. cbn [bind]. now apply IH.
    + cbn [getProp]. destruct (obj_lookup (property_key seg) props) as [child|];
        [|discriminate].
      intros H. cbn [bind]. now apply IH.
Qed.

Lemma store_at_replace doc ks sub rest v :
  locate doc ks = Some sub ->
  store_at doc ks (replace_at sub rest v) = replace_at doc (ks ++ rest) v.
Proof.
  revert doc; induction ks as [|k ks IH]; intros doc.
  - simpl. intros H; inversion H; reflexivity.
  - cbn [app locate store_at replace_at].
    destruct doc as [| | | |elems|props]; try discriminate.
    + destruct (array_index k) as [i|]; [|discriminate].
      destruct (nth_error elems (N.to_nat i)) as [child|]; [|discriminate].
      intros H. now rewrite IH.
    + destruct (obj_lookup k props) as [child|]; [|discriminate].
      intros H. now rewrite IH.
Qed.

Lemma nth_error_length (A : Type) (l : list A) i x :
  nth_error l i = Some x -> (i < length l)%nat.
Proof. intros H. apply nth_error_Some. congruence. Qed.

Lemma setProp_located parent k v old :
  locate parent [k] = Some old ->
  setProp (Some parent) k v = Normal (replace_at parent [k] v).
Proof.
  cbn [locate replace_at setProp].
  destruct parent as [| | | |elems|props]; try discriminate.
  - destruct (array_index k) as [i|]; [|discriminate].
    destruct (nth_error elems (N.to_nat i)) as [child|] eqn:E; [|discriminate].
    intros _. unfold array_store.
    apply nth_error_length in E. apply Nat.ltb_lt in E. now rewrite E.
  - destruct (obj_lookup k props) as [child|]; [reflexivity|discriminate].
Qed.

Lemma locate_replace_at doc ks v old :
  locate doc ks = Some old -> locate (replace_at doc ks v) ks = Some v.
Proof.
  revert doc; induction ks as [|k ks IH]; intros doc; [reflexivity|].
  cbn [locate replace_at].
  destruct doc as [| | | |elems|props]; try discriminate.
  - destruct (array_index k) as [i|] eqn:Ei; [|discriminate].
    destruct (nth_error elems (N.to_nat i)) as [child|] eqn:E; [|discriminate].
    intros H. cbn [locate].
    rewrite nth_error_list_set_eq by (eapply nth_error_length; eassumption).
    now apply IH.
  - destruct (obj_lookup k props) as [child|] eqn:E; [|discriminate].
    intros H. cbn [locate]. rewrite (obj_lookup_replace_eq _ _ _ E).
    now apply IH.
Qed.

Lemma keys_removelast_last seg segs :
  map property_key (seg :: segs)
  = map property_key (removelast (seg :: segs))
      ++ [property_key (last (seg :: segs) seg)].
Proof.
  rewrite (@app_removelast_last _ (seg :: segs) seg) at 1 by discriminate.
  now rewrite map_app.
Qed.

(** With a parsed document and a path that leads to a value of it,
    [updateJsonAtPath] returns the serialization of the document with
    [v] at that position, whatever [newValue] stands for. *)
Lemma updateJsonAtPath_located json doc path newValue old :
  JSON.parse json = Some doc ->
  locate doc (path_keys path) = Some old ->
  updateJsonAtPath json path newValue
  = Normal (JSON.stringify (replace_at doc (path_keys path) (edited_value newValue))).
Proof.
  intros Hdoc Hloc. unfold updateJsonAtPath, JSON_parse.
  rewrite Hdoc. cbn [bind]. fold (edited_value newValue).
  destruct path as [[|seg segs]|]; try reflexivity.
  cbn [path_keys] in *.
  rewrite keys_removelast_last in *.
  rewrite locate_app in Hloc.
  destruct (locate doc (map property_key (removelast (seg :: segs))))
    as [parent|] eqn:Hparent; [|discriminate].
  rewrite (navigate_locate _ _ Hparent). cbn [bind].
  rewrite (setProp_located _ _ _ Hloc). cbn [bind try_catch].
  now rewrite (store_at_replace _ _ _ _ Hparent).
Qed.

(** ** What an assignment leaves alone *)

Lemma diverge_cons_eq a p q : diverge (a :: p) (a :: q) -> diverge p q.
Proof.
  unfold diverge. cbn [is_prefix]. now rewrite str_eqb_refl.
Qed.

Lemma diverge_nil_r p : ~ diverge p [].
Proof. unfold diverge. intros [_ H]. discriminate. Qed.

Lemma diverge_single k q :
  diverge [k] q -> exists k' q', q = k' :: q' /\ k' <> k.
Proof.
  destruct q as [|k' q']; [intros H; now apply diverge_nil_r in H|].
  intros [H _]. cbn [is_prefix] in H. rewrite andb_true_r in H.
  exists k', q'. split; [reflexivity|].
  apply str_eqb_neq in H. congruence.
Qed.

Lemma store_at_frame doc ks sub new k q :
  locate doc ks = Some sub ->
  (forall k' q', k' <> k -> locate new (k' :: q') = locate sub (k' :: q')) ->
  diverge (ks ++ [k]) q ->
  locate (store_at doc ks new) q = locate doc q.
Proof.
  intros Hloc Hnew. revert doc q Hloc.
  induction ks as [|a ks IH]; intros doc q Hloc Hdiv.
  - simpl in Hloc. inversion Hloc; subst sub. cbn [store_at].
    destruct (diverge_single Hdiv) as (k' & q' & -> & Hne). now apply Hnew.
  - destruct q as [|b q']; [now apply diverge_nil_r in Hdiv|].
    cbn [locate store_at] in *.
    destruct doc as [| | | |elems|props]; try discriminate.
    + destruct (array_index a) as [i|] eqn:Ea; [|discriminate].
      destruct (nth_error elems (N.to_nat i)) as [child|] eqn:Ec; [|discriminate].
      cbn [locate].
      destruct (array_index b) as [j|] eqn:Eb; [|reflexivity].
      destruct (N.eq_dec i j) as [<-|Hij].
      * assert (a = b) by (eapply array_index_inj; eassumption). subst b.
        rewrite nth_error_list_set_eq by (eapply nth_error_length; eassumption).
        rewrite Ec. apply IH; [assumption|]. now apply (@diverge_cons_eq a).
      * rewrite nth_error_list_set_ne by lia. reflexivity.
    + destruct (obj_lookup a props) as [child|] eqn:Ec; [|discriminate].
      cbn [locate].
      destruct (str_eqb a b) eqn:Eab.
      * apply str_eqb_eq in Eab. subst b.
        rewrite (obj_lookup_replace_eq _ _ _ Ec), Ec.
        apply IH; [assumption|]. now apply (@diverge_cons_eq a).
      * apply str_eqb_neq in Eab.
        rewrite obj_lookup_replace_ne by congruence. reflexivity.
Qed.

Lemma locate_rendered doc q :
  locate (rendered doc) q = option_map rendered (locate doc q).
Proof.
  revert doc; induction q as [|k q IH]; intros doc; [reflexivity|].
  destruct doc as [| |x| |elems|props]; try reflexivity.
  - destruct x; reflexivity.
  - cbn [rendered locate]. destruct (array_index k) as [i|]; [|reflexivity].
    rewrite nth_error_map.
    destruct (nth_error elems (N.to_nat i)); [apply IH|reflexivity].
  - cbn [rendered locate].
    replace (obj_lookup k (map (fun p => (fst p, rendered (snd p))) props))
      with (option_map rendered (obj_lookup k props)).
    + destruct (obj_lookup k props); [apply IH|reflexivity].
    + induction props as [|[k' v'] t IHt]; [reflexivity|].
      simpl. destruct (str_eqb k k'); [reflexivity|exact IHt].
Qed.

(** ** Well-formedness is kept *)

Lemma wf_locate doc ks x : wf_json doc -> locate doc ks = Some x -> wf_json x.
Proof.
  revert doc; induction ks as [|k ks IH]; intros doc Hwf.
  - simpl. intros H; inversion H; subst; exact Hwf.
  - cbn [locate]. destruct doc as [| | | |elems|props]; try discriminate.
    + apply wf_json_arr in Hwf.
      destruct (array_index k) as [i|]; [|discriminate].
      destruct (nth_error elems (N.to_nat i)) as [child|] eqn:E; [|discriminate].
      apply IH. rewrite Forall_forall in Hwf. apply Hwf.
      eapply nth_error_In; eassumption.
    + apply wf_json_obj in Hwf. destruct Hwf as [_ Hwf].
      destruct (obj_lookup k props) as [child|] eqn:E; [|discriminate].
      apply IH. eapply obj_lookup_Forall in E; eassumption.
Qed.

Lemma wf_store_at doc ks new :
  wf_json doc -> wf_json new -> wf_json (store_at doc ks new).
Proof.
  intros Hwf Hnew. revert doc Hwf; induction ks as [|k ks IH]; intros doc Hwf;
    [exact Hnew|].
  cbn [store_at]. destruct doc as [| | | |elems|props]; try exact Hwf.
  - destruct (array_index k) as [i|]; [|exact Hwf].
    destruct (nth_error elems (N.to_nat i)) as [child|] eqn:E; [|exact Hwf].
    pose proof (wf_json_arr Hwf) as Hel. constructor.
    apply Forall_list_set; [|assumption].
    apply IH. rewrite Forall_forall in Hel. apply Hel.
    eapply nth_error_In; eassumption.
  - destruct (obj_lookup k props) as [child|] eqn:E; [|exact Hwf].
    pose proof (wf_json_obj Hwf) as [Hcan Hel]. constructor.
    + now apply canonical_replace.
    + apply Forall_obj_replace; [|assumption].
      apply IH. eapply obj_lookup_Forall in E; eassumption.
Qed.

Lemma wf_edited_value newValue : wf_json (edited_value newValue).
Proof.
  unfold edited_value. destruct (JSON.parse newValue) eqn:E.
  - eapply JSON_parse_wf; eassumption.
  - constructor.
Qed.

Lemma locate_store_at doc ks sub new rest :
  locate doc ks = Some sub ->
  locate (store_at doc ks new) (ks ++ rest) = locate new rest.
Proof.
  revert doc; induction ks as [|k ks IH]; intros doc Hloc; [reflexivity|].
  cbn [app locate store_at] in *.
  destruct doc as [| | | |elems|props]; try discriminate.
  - destruct (array_index k) as [i|] eqn:Ei; [|discriminate].
    destruct (nth_error elems (N.to_nat i)) as [child|] eqn:E; [|discriminate].
    cbn [locate].
    rewrite nth_error_list_set_eq by (eapply nth_error_length; eassumption).
    now apply IH.
  - destruct (obj_lookup k props) as [child|] eqn:E; [|discriminate].
    cbn [locate]. rewrite (obj_lookup_replace_eq _ _ _ E).
    now apply IH.
Qed.

(** Assigning to a key of an object: the completion is normal, the
    result is a well-formed object, every other key reads as before, and
    the key itself reads as the value assigned unless the assignment went
    to the inherited [__proto__] setter. *)
Lemma setProp_object props k v :
  wf_json (JObj props) -> wf_json v ->
  exists props',
    setProp (Some (JObj props)) k v = Normal (JObj props')
    /\ wf_json (JObj props')
    /\ (forall k', k' <> k -> obj_lookup k' props' = obj_lookup k' props)
    /\ (obj_lookup k props <> None \/ k <> js "__proto__" ->
        obj_lookup k props' = Some v).
Proof.
  intros Hwf Hv. pose proof (wf_json_obj Hwf) as [Hcan Hel].
  cbn [setProp]. destruct (obj_lookup k props) as [old|] eqn:E.
  - eexists. split; [reflexivity|]. split; [|split].
    + constructor; [now apply canonical_replace|now apply Forall_obj_replace].
    + intros k' Hne. now apply obj_lookup_replace_ne.
    + intros _. eapply obj_lookup_replace_eq; eassumption.
  - destruct (str_eqb k (js "__proto__")) eqn:Ep.
    + eexists. split; [reflexivity|]. split; [exact Hwf|]. split; [reflexivity|].
      apply str_eqb_eq in Ep. intros [H|H]; [now elim H|now elim H].
    + eexists. split; [reflexivity|]. split; [|split].
      * constructor; [now apply canonical_insert|now apply Forall_obj_insert].
      * intros k' Hne. now apply obj_lookup_insert_ne.
      * intros _. now apply obj_lookup_insert_eq.
Qed.

(* ================================================================== *)
(** * Claims about updateJsonAtPath *)
(* ================================================================== *)

(** C3. With a valid document and a path that leads to a value of it
    (the empty or absent path leads to the document itself), saving an
    edited text that parses as JSON places the parsed value at the path,
    saving a text that does not parse places the text itself as a string
    there, and the result is the serialization of the whole document
    after the replacement. *)
Theorem updateJsonAtPath_places_parsed_or_raw
  (jsonText : jsstring) (doc : json) (path : option (list segment))
  (newValue : jsstring) (old : json) :
  JSON.parse jsonText = Some doc ->
  locate doc (path_keys path) = Some old ->
  (forall v,
      JSON.parse newValue = Some v ->
      updateJsonAtPath jsonText path newValue
      = Normal (JSON.stringify (replace_at doc (path_keys path) v))
      /\ locate (replace_at doc (path_keys path) v) (path_keys path) = Some v)
  /\ (JSON.parse newValue = None ->
      updateJsonAtPath jsonText path newValue
      = Normal (JSON.stringify (replace_at doc (path_keys path) (JStr newValue)))
      /\ locate (replace_at doc (path_keys path) (JStr newValue)) (path_keys path)
         = Some (JStr newValue)).
Proof.
  intros Hdoc Hloc.
  pose proof (@updateJsonAtPath_located jsonText doc path newValue old Hdoc Hloc)
    as Hupd.
  unfold edited_value in Hupd.
  split.
  - intros v Hv. rewrite Hv in Hupd. split; [exact Hupd|].
    eapply locate_replace_at; eassumption.
  - intros Hv. rewrite Hv in Hupd. split; [exact Hupd|].
    eapply locate_replace_at; eassumption.
Qed.

Lemma updateJsonAtPath_places_parsed_or_raw_witness :
  updateJsonAtPath sample_json
    (Some [SegStr (js "c"); SegNum (number_of_Z 1)]) (js "[2]")
  = Normal (js "{~  'a': {~    'b': 1~  },~  'c': [~    true,~    [~      2~    ]~  ]~}")
  /\ updateJsonAtPath sample_json
       (Some [SegStr (js "c"); SegNum (number_of_Z 1)]) (js "[2")
     = Normal (js "{~  'a': {~    'b': 1~  },~  'c': [~    true,~    '[2'~  ]~}").
Proof.
  destruct (@updateJsonAtPath_places_parsed_or_raw
              sample_json sample_doc
              (Some [SegStr (js "c"); SegNum (number_of_Z 1)]) (js "[2]") JNull
              eq_refl eq_refl) as [Hparsed _].
  destruct (@updateJsonAtPath_places_parsed_or_raw
              sample_json sample_doc
              (Some [SegStr (js "c"); SegNum (number_of_Z 1)]) (js "[2") JNull
              eq_refl eq_refl) as [_ Hraw].
  split.
  - exact (proj1 (Hparsed (JArr [JNum (number_of_Z 2)]) eq_refl)).
  - exact (proj1 (Hraw eq_refl)).
Defined.

(** C4, as stated, fails: with the empty path the result still depends on
    the previous document, because the document is parsed first. *)
Lemma updateJsonAtPath_root_depends_on_document :
  updateJsonAtPath (js "") (Some []) (js "1")
  = Throw {| message := js "Failed to update JSON. Please check your input." |}
  /\ updateJsonAtPath (js "{}") (Some []) (js "1") = Normal (js "1").
Proof. split; vm_compute; reflexivity. Qed.

(** C4, amended. With the path absent or empty: for every document text
    that is valid JSON and every edited text, [updateJsonAtPath] returns
    the serialization of the edited value alone, of the parsed value when
    the text parses and of the text as a string when it does not; for a
    document text that is not valid JSON it throws. *)
Theorem updateJsonAtPath_root_replaces_document
  (jsonText : jsstring) (path : option (list segment)) (newValue : jsstring) :
  path = None \/ path = Some [] ->
  (forall doc,
      JSON.parse jsonText = Some doc ->
      (forall v,
          JSON.parse newValue = Some v ->
          updateJsonAtPath jsonText path newValue = Normal (JSON.stringify v))
      /\ (JSON.parse newValue = None ->
          updateJsonAtPath jsonText path newValue
          = Normal (JSON.stringify (JStr newValue))))
  /\ (JSON.parse jsonText = None ->
      updateJsonAtPath jsonText path newValue
      = Throw {| message := js "Failed to update JSON. Please check your input." |}).
Proof.
  intros Hpath. split.
  - intros doc Hdoc.
    assert (Hupd : updateJsonAtPath jsonText path newValue
                   = Normal (JSON.stringify (edited_value newValue))).
    { unfold updateJsonAtPath, JSON_parse. rewrite Hdoc.
      destruct Hpath as [-> | ->]; reflexivity. }
    unfold edited_value in Hupd.
    split; intros;
      match goal with H : JSON.parse newValue = _ |- _ => rewrite H in Hupd end;
      exact Hupd.
  - intros Hdoc. unfold updateJsonAtPath, JSON_parse. now rewrite Hdoc.
Qed.

Lemma updateJsonAtPath_root_replaces_document_witness :
  updateJsonAtPath sample_json None (js "[1, 2]") = Normal (js "[~  1,~  2~]")
  /\ updateJsonAtPath sample_json (Some []) (js "[1, 2") = Normal (js "'[1, 2'")
  /\ updateJsonAtPath (js "{'a': ") (Some []) (js "1")
     = Throw {| message := js "Failed to update JSON. Please check your input." |}.
Proof.
  split; [|split].
  - exact (proj1 (proj1 (@updateJsonAtPath_root_replaces_document
                           sample_json None (js "[1, 2]") (or_introl eq_refl))
                    sample_doc eq_refl)
             (JArr [JNum (number_of_Z 1); JNum (number_of_Z 2)]) eq_refl).
  - exact (proj2 (proj1 (@updateJsonAtPath_root_replaces_document
                           sample_json (Some []) (js "[1, 2") (or_intror eq_refl))
                    sample_doc eq_refl)
             eq_refl).
  - exact (proj2 (@updateJsonAtPath_root_replaces_document
                    (js "{'a': ") (Some []) (js "1") (or_intror eq_refl))
             eq_refl).
Defined.

(** C10, as stated, fails.  In the document below the path [a, b] is not
    the target path [a], and the value it leads to is gone after the
    update; the path [c] is not the target path either, and the number it
    leads to, beyond the binary64 range, is [null] in the re-parsed
    result. *)
Lemma updateJsonAtPath_changes_other_paths :
  JSON.parse (js "{'a': {'b': 1}, 'c': 1e400}")
  = Some (JObj [(js "a", JObj [(js "b", JNum (number_of_Z 1))]);
                (js "c", JNum (Inf false))])
  /\ updateJsonAtPath (js "{'a': {'b': 1}, 'c': 1e400}")
       (Some [SegStr (js "a")]) (js "5")
     = Normal (js "{~  'a': 5,~  'c': null~}")
  /\ JSON.parse (js "{~  'a': 5,~  'c': null~}")
     = Some (JObj [(js "a", JNum (number_of_Z 5)); (js "c", JNull)])
  /\ [js "a"; js "b"] <> map property_key [SegStr (js "a")]
  /\ locate (JObj [(js "a", JObj [(js "b", JNum (number_of_Z 1))]);
                   (js "c", JNum (Inf false))]) [js "a"; js "b"]
     = Some (JNum (number_of_Z 1))
  /\ locate (JObj [(js "a", JNum (number_of_Z 5)); (js "c", JNull)])
       [js "a"; js "b"]
     = None
  /\ [js "c"] <> map property_key [SegStr (js "a")]
  /\ locate (JObj [(js "a", JObj [(js "b", JNum (number_of_Z 1))]);
                   (js "c", JNum (Inf false))]) [js "c"]
     = Some (JNum (Inf false))
  /\ locate (JObj [(js "a", JNum (number_of_Z 5)); (js "c", JNull)]) [js "c"]
     = Some JNull.
Proof. repeat split; try (vm_compute; reflexivity); discriminate. Qed.

(** C10, amended. For every valid document and every non-empty path whose
    prefix leads to an object of the document, [updateJsonAtPath] returns
    a text that parses again, and every path that parts ways with the
    target path (neither leads through the other, segments compared as
    property keys) leads in the re-parsed result to the value it led to
    before, as [JSON.stringify] renders it.  The target path leads to the
    edited value, unless its last key is a [__proto__] that the object
    does not own. *)
Theorem updateJsonAtPath_frame
  (jsonText : jsstring) (doc : json) (seg : segment) (segs : list segment)
  (props : list (jsstring * json)) (newValue : jsstring) :
  JSON.parse jsonText = Some doc ->
  locate doc (map property_key (removelast (seg :: segs))) = Some (JObj props) ->
  exists updated doc',
    updateJsonAtPath jsonText (Some (seg :: segs)) newValue = Normal updated
    /\ JSON.parse updated = Some doc'
    /\ (forall q,
           diverge (map property_key (seg :: segs)) q ->
           locate doc' q = option_map rendered (locate doc q))
    /\ (obj_lookup (property_key (last (seg :: segs) seg)) props <> None
        \/ property_key (last (seg :: segs) seg) <> js "__proto__" ->
        locate doc' (map property_key (seg :: segs))
        = Some (rendered (edited_value newValue))).
Proof.
  intros Hdoc Hparent.
  pose proof (JSON_parse_wf _ Hdoc) as Hwf.
  pose proof (wf_locate _ Hwf Hparent) as Hwfp.
  set (k := property_key (last (seg :: segs) seg)).
  destruct (@setProp_object props k (edited_value newValue) Hwfp
              (wf_edited_value newValue))
    as (props' & Hset & Hwf' & Hother & Hkey).
  rewrite keys_removelast_last. fold k.
  set (ks := map property_key (removelast (seg :: segs))) in *.
  exists (JSON.stringify (store_at doc ks (JObj props'))),
         (rendered (store_at doc ks (JObj props'))).
  split; [|split; [|split]].
  - unfold updateJsonAtPath, JSON_parse. rewrite Hdoc. cbn [bind].
    fold (edited_value newValue).
    rewrite (navigate_locate _ _ Hparent). cbn [bind].
    fold k ks. rewrite Hset. reflexivity.
  - apply parse_stringify. now apply wf_store_at.
  - intros q Hq. rewrite locate_rendered. f_equal.
    apply (@store_at_frame doc ks (JObj props) (JObj props') k q); auto.
    intros k' q' Hne. cbn [locate]. now rewrite Hother.
  - intros Hk. rewrite locate_rendered.
    rewrite (@locate_store_at doc ks (JObj props) (JObj props') [k] Hparent).
    cbn [locate].
    now rewrite (Hkey Hk).
Qed.

Lemma updateJsonAtPath_frame_witness :
  exists updated doc',
    updateJsonAtPath sample_json (Some [SegStr (js "a"); SegStr (js "b")]) (js "2")
    = Normal updated
    /\ JSON.parse updated = Some doc'
    /\ (forall q,
           diverge (map property_key [SegStr (js "a"); SegStr (js "b")]) q ->
           locate doc' q = option_map rendered (locate sample_doc q))
    /\ (obj_lookup (js "b") [(js "b", JNum (number_of_Z 1))] <> None
        \/ js "b" <> js "__proto__" ->
        locate doc' [js "a"; js "b"] = Some (JNum (number_of_Z 2))).
Proof.
  exact (@updateJsonAtPath_frame
           sample_json sample_doc (SegStr (js "a")) [SegStr (js "b")]
           [(js "b", JNum (number_of_Z 1))] (js "2") eq_refl eq_refl).
Defined.

(* ================================================================== *)
(** * Claims about normalizeNodeData on several rows *)
(* ================================================================== *)

Lemma obj_lookup_define k k' v props :
  obj_lookup k (obj_define k' v props)
  = if str_eqb k k' then Some v else obj_lookup k props.
Proof.
  unfold obj_define. destruct (str_eqb k k') eqn:E.
  - apply str_eqb_eq in E. subst k'.
    destruct (obj_lookup k props) eqn:El.
    + eapply obj_lookup_replace_eq; eassumption.
    + now apply obj_lookup_insert_eq.
  - apply str_eqb_neq in E.
    destruct (obj_lookup k' props).
    + now apply obj_lookup_replace_ne.
    + now apply obj_lookup_insert_ne.
Qed.

Lemma add_row_add_pair obj row :
  has_prototype obj = true ->
  row_key row <> Some (js "__proto__") ->
  add_row obj row = {| own := add_pair (own obj) row; has_prototype := true |}.
Proof.
  intros Hp Hk. destruct obj as [ps hp]. simpl in Hp. subst hp.
  unfold add_row, add_pair, row_pair, non_container.
  destruct (negb _ && negb _); [|reflexivity].
  destruct (row_key row) as [[|c k]|] eqn:Ek; try reflexivity.
  cbn [truthy]. unfold assign, obj_define. cbn [own has_prototype].
  destruct (obj_lookup (c :: k) ps); [reflexivity|].
  replace (str_eqb (c :: k) (js "__proto__")) with false; [reflexivity|].
  symmetry. apply str_eqb_neq. congruence.
Qed.

Lemma fold_add_row rows obj :
  has_prototype obj = true ->
  Forall (fun row => row_key row <> Some (js "__proto__")) rows ->
  fold_left add_row rows obj
  = {| own := fold_left add_pair rows (own obj); has_prototype := true |}.
Proof.
  intros Hp Hrows. revert obj Hp.
  induction Hrows as [|row rows Hrow _ IH]; intros obj Hp.
  - destruct obj as [ps hp]. simpl in *. now subst.
  - cbn [fold_left]. rewrite (@add_row_add_pair obj row Hp Hrow). now rewrite IH.
Qed.

Lemma fold_add_pair_canonical rows props :
  canonical (map fst props) -> canonical (map fst (fold_left add_pair rows props)).
Proof.
  revert props; induction rows as [|row rows IH]; intros props Hc; [exact Hc|].
  cbn [fold_left]. apply IH. unfold add_pair.
  destruct (row_pair row) as [[k v]|]; [now apply canonical_define|exact Hc].
Qed.

Lemma fold_add_pair_lookup k rows props :
  obj_lookup k (fold_left add_pair rows props)
  = match last_value k rows with
    | Some v => Some v
    | None => obj_lookup k props
    end.
Proof.
  revert props; induction rows as [|row rows IH]; intros props; [reflexivity|].
  cbn [fold_left last_value]. rewrite IH.
  destruct (last_value k rows); [reflexivity|].
  unfold add_pair. destruct (row_pair row) as [[k' v]|]; [|reflexivity].
  rewrite obj_lookup_define. now destruct (str_eqb k k').
Qed.

(** C5, as stated, fails: three rows that are not containers, of which
    the one without a key and the one with the empty key contribute
    nothing. *)
Lemma normalizeNodeData_skips_falsy_keys :
  Forall (fun row => non_container row = true)
    [ {| row_key := None; row_value := VNumber (number_of_Z 0);
         row_type := js "number" |};
      {| row_key := Some []; row_value := VNumber (number_of_Z 1);
         row_type := js "number" |};
      {| row_key := Some (js "a"); row_value := VNumber (number_of_Z 2);
         row_type := js "number" |} ]
  /\ normalizeNodeData
       [ {| row_key := None; row_value := VNumber (number_of_Z 0);
            row_type := js "number" |};
         {| row_key := Some []; row_value := VNumber (number_of_Z 1);
            row_type := js "number" |};
         {| row_key := Some (js "a"); row_value := VNumber (number_of_Z 2);
            row_type := js "number" |} ]
     = js "{~  'a': 2~}".
Proof. split; [repeat constructor|vm_compute; reflexivity]. Qed.

(** C5, amended. For every row list with two or more rows, or with one
    row whose key is not empty, and without a row keyed [__proto__],
    [normalizeNodeData] returns the serialization of an object that holds,
    for each key, the value of the last row that is not a container and
    has that key, the key being present and not empty; it holds nothing
    else. *)
Theorem normalizeNodeData_object (rows : list NodeRow) :
  (2 <= length rows)%nat
  \/ (exists row, rows = [row] /\ truthy (row_key row) = true) ->
  Forall (fun row => row_key row <> Some (js "__proto__")) rows ->
  exists props,
    normalizeNodeData rows = JSON.stringify (JObj props)
    /\ canonical (map fst props)
    /\ forall k, obj_lookup k props = last_value k rows.
Proof.
  intros Hshape Hkeys.
  exists (fold_left add_pair rows []). split; [|split].
  - assert (Hnorm : normalizeNodeData rows
                    = JSON.stringify
                        (JObj (own (fold_left add_row rows
                                      {| own := []; has_prototype := true |})))).
    { unfold normalizeNodeData. destruct rows as [|row0 rest].
      - destruct Hshape as [H|(row & H & _)]; [simpl in H; lia|discriminate].
      - destruct Hshape as [H|(row & H & Ht)].
        + replace (length (row0 :: rest) =? 1)%nat with false; [reflexivity|].
          symmetry. apply Nat.eqb_neq. lia.
        + inversion H; subst. rewrite Ht. reflexivity. }
    rewrite Hnorm, fold_add_row by auto. reflexivity.
  - now apply fold_add_pair_canonical.
  - intros k. rewrite fold_add_pair_lookup. now destruct (last_value k rows).
Qed.

Lemma normalizeNodeData_object_witness :
  exists props,
    normalizeNodeData sample_rows = JSON.stringify (JObj props)
    /\ canonical (map fst props)
    /\ forall k, obj_lookup k props = last_value k sample_rows.
Proof.
  apply (@normalizeNodeData_object sample_rows).
  - left. simpl. lia.
  - repeat constructor; discriminate.
Defined.

(* ================================================================== *)
(** * Claims about the display functions *)
(* ================================================================== *)

(** C6. [normalizeNodeData] applied to an empty row list returns the
    string [{}], the text of the empty object. *)
Theorem normalizeNodeData_empty :
  normalizeNodeData [] = js "{}"
  /\ JSON.parse (normalizeNodeData []) = Some (JObj []).
Proof. split; reflexivity. Qed.

(** C7. For a row list of exactly one row that has no key,
    [normalizeNodeData] returns the string rendering of that row's raw
    value: the characters of a string as they are, the decimal text of a
    number, [true], [false] or [null]. *)
Theorem normalizeNodeData_single_keyless (value : scalar) (type : jsstring) :
  normalizeNodeData [{| row_key := None; row_value := value; row_type := type |}]
  = ToString value
  /\ (forall s, ToString (VString s) = s)
  /\ (forall x, ToString (VNumber x) = Number_toString x)
  /\ ToString (VBoolean true) = js "true"
  /\ ToString (VBoolean false) = js "false"
  /\ ToString VNull = js "null".
Proof. repeat split. Qed.

(** C8. [jsonPathToString] renders the absent and the empty path as [$],
    and a path of segments as [$] followed by each segment in brackets, a
    name in double quotes and a number without; the path [["a", 0]]
    renders as [$["a"][0]]. *)
Theorem jsonPathToString_brackets :
  jsonPathToString None = js "$"
  /\ jsonPathToString (Some []) = js "$"
  /\ (forall seg p,
        jsonPathToString (Some (seg :: p))
        = js "$" ++ concat (map bracketed (seg :: p)))
  /\ jsonPathToString (Some [SegStr (js "a"); SegNum (number_of_Z 0)])
     = js "$['a'][0]".
Proof.
  repeat split.
  intros seg p. unfold jsonPathToString.
  rewrite join_brackets. destruct seg; reflexivity.
Qed.

(* ================================================================== *)
(** * Claims about saving and cancelling *)
(* ================================================================== *)

(** C1. Whatever the document text, the path and the edited text, if
    [updateJsonAtPath] throws then [handleSave] shows an error
    notification and writes neither store: the dialog state, the JSON
    store and the file store are as before the attempt. *)
Theorem handleSave_failure_writes_nothing (st : ModalState) (w : World) (e : Error) :
  updateJsonAtPath (getJson w) (selectedPath w) (editValue st) = Throw e ->
  exists w',
    handleSave st w = Normal (st, w')
    /\ jsonStore w' = jsonStore w
    /\ fileStore w' = fileStore w
    /\ selectedNode w' = selectedNode w
    /\ toasts w'
       = toasts w
           ++ [ToastError (js "Failed to update JSON. Please check your input.")].
Proof.
  intros H. pose proof (updateJsonAtPath_throws _ _ _ H) as ->.
  unfold handleSave. rewrite H. simpl.
  eexists; repeat split.
Qed.

Lemma handleSave_failure_writes_nothing_witness :
  exists w',
    handleSave (sample_state (js "1"))
               (sample_world (js "{}") [SegStr (js "a"); SegStr (js "b")])
    = Normal (sample_state (js "1"), w')
    /\ jsonStore w' = js "{}"
    /\ fileStore w' = {| contents := js "{}"; hasChanges := false |}
    /\ selectedNode w'
       = Some {| text := []; path := Some [SegStr (js "a"); SegStr (js "b")] |}
    /\ toasts w'
       = [ToastError (js "Failed to update JSON. Please check your input.")].
Proof.
  apply (@handleSave_failure_writes_nothing
           (sample_state (js "1"))
           (sample_world (js "{}") [SegStr (js "a"); SegStr (js "b")])
           {| message := js "Failed to update JSON. Please check your input." |}).
  vm_compute. reflexivity.
Defined.

(** C2. When the update applies, that is when [updateJsonAtPath] returns
    the text [updatedJson] for the stored document, the selected node's
    path and the edited text, then the stored document was valid JSON,
    [updatedJson] is the serialization of a document, and [handleSave]
    sets the file store to [updatedJson] with [hasChanges] true, sets the
    JSON store to the same text and shows the success notification. *)
Theorem handleSave_success_updates_stores
  (st : ModalState) (w : World) (updatedJson : jsstring) :
  updateJsonAtPath (getJson w) (selectedPath w) (editValue st) = Normal updatedJson ->
  (exists doc doc',
      JSON.parse (getJson w) = Some doc /\ updatedJson = JSON.stringify doc')
  /\ exists st' w',
      handleSave st w = Normal (st', w')
      /\ fileStore w' = {| contents := updatedJson; hasChanges := true |}
      /\ jsonStore w' = updatedJson
      /\ toasts w'
         = toasts w ++ [ToastSuccess (js "Node value updated successfully!")]
      /\ selectedNode w' = selectedNode w
      /\ st' = {| isEditing := false; editValue := editValue st;
                  originalValue := editValue st |}.
Proof.
  intros H. split.
  - revert H. unfold updateJsonAtPath, JSON_parse, try_catch, bind.
    destruct (JSON.parse (getJson w)) as [doc|]; [|discriminate].
    destruct (selectedPath w) as [[|seg segs]|].
    + intros H; inversion H; eauto.
    + destruct (navigate _ _) as [cur| |]; try discriminate.
      destruct (setProp _ _ _) as [cur'| |]; try discriminate.
      intros H; inversion H; eauto.
    + intros H; inversion H; eauto.
  - unfold handleSave. rewrite H. simpl.
    eexists; eexists; repeat split.
Qed.

Lemma handleSave_success_updates_stores_witness :
  (exists doc doc',
      JSON.parse (js "{'a': 1}") = Some doc
      /\ js "{~  'a': 2~}" = JSON.stringify doc')
  /\ exists st' w',
      handleSave (sample_state (js "2"))
                 (sample_world (js "{'a': 1}") [SegStr (js "a")])
      = Normal (st', w')
      /\ fileStore w' = {| contents := js "{~  'a': 2~}"; hasChanges := true |}
      /\ jsonStore w' = js "{~  'a': 2~}"
      /\ toasts w' = [ToastSuccess (js "Node value updated successfully!")]
      /\ selectedNode w' = Some {| text := []; path := Some [SegStr (js "a")] |}
      /\ st' = {| isEditing := false; editValue := js "2";
                  originalValue := js "2" |}.
Proof.
  apply (@handleSave_success_updates_stores
           (sample_state (js "2"))
           (sample_world (js "{'a': 1}") [SegStr (js "a")])
           (js "{~  'a': 2~}")).
  vm_compute. reflexivity.
Defined.

Lemma editing_keeps_original s1 s2 :
  editing s1 s2 -> originalValue (fst s2) = originalValue (fst s1).
Proof. destruct 1; reflexivity. Qed.

Lemma editing_star_keeps_original s1 s2 :
  editing_star s1 s2 -> originalValue (fst s2) = originalValue (fst s1).
Proof.
  induction 1 as [|s1 s2 s3 H12 _ IH]; [reflexivity|].
  rewrite IH. apply editing_keeps_original, H12.
Qed.

Lemma saved_value_original s v :
  saved_value s v -> originalValue (fst s) = v /\ editValue (fst s) = v.
Proof.
  destruct 1 as [st w nd Hsel | st w st' w' u Hu Hs].
  - unfold resetEffect; rewrite Hsel; simpl; auto.
  - unfold handleSave in Hs. rewrite Hu in Hs. simpl in Hs.
    inversion Hs; subst; simpl; auto.
Qed.

(** C9. From a state in which [value] was just saved (the dialog opened
    on a node and [value] is its normalized data, or a save of [value]
    succeeded), and after any sequence of Edit presses, changes of the text
    and failed saves, pressing Cancel shows [value] again and leaves edit
    mode. *)
Theorem handleCancel_restores_saved
  (s1 s2 : ModalState * World) (value : jsstring) :
  saved_value s1 value ->
  editing_star s1 s2 ->
  displayedValue (handleCancel (fst s2)) = value
  /\ isEditing (handleCancel (fst s2)) = false
  /\ originalValue (handleCancel (fst s2)) = value.
Proof.
  intros Hs He.
  apply saved_value_original in Hs. destruct Hs as [Ho _].
  apply editing_star_keeps_original in He.
  unfold displayedValue, handleCancel; simpl.
  rewrite He, Ho. auto.
Qed.

Lemma handleCancel_restores_saved_witness :
  displayedValue
    (handleCancel
       (onChange (js "3") (onChange (js "2")
          (handleEdit (resetEffect true initialState
                         (sample_world (js "[7]") [SegNum (number_of_Z 0)]))))))
  = js "{}"
  /\ isEditing
       (handleCancel
          (onChange (js "3") (onChange (js "2")
             (handleEdit (resetEffect true initialState
                            (sample_world (js "[7]") [SegNum (number_of_Z 0)]))))))
     = false
  /\ originalValue
       (handleCancel
          (onChange (js "3") (onChange (js "2")
             (handleEdit (resetEffect true initialState
                            (sample_world (js "[7]") [SegNum (number_of_Z 0)]))))))
     = js "{}".
Proof.
  pose (w := sample_world (js "[7]") [SegNum (number_of_Z 0)]).
  pose (st0 := resetEffect true initialState w).
  apply (@handleCancel_restores_saved
           (st0, w)
           (onChange (js "3") (onChange (js "2") (handleEdit st0)), w)
           (js "{}")).
  - exact (@saved_at_open initialState w {| text := []; path := Some [SegNum (number_of_Z 0)] |} eq_refl).
  - eapply editing_step; [apply editing_edit|].
    eapply editing_step; [apply (editing_change (js "2"))|].
    eapply editing_step; [apply (editing_change (js "3"))|].
    apply editing_refl.
Defined.

(* ================================================================== *)
(** * Further facts about rendering and assignment *)
(* ================================================================== *)

Lemma rendered_idem v : rendered (rendered v) = rendered v.
Proof.
  induction v as [| |x| |elems IH|props IH] using json_ind; try reflexivity.
  - destruct x; reflexivity.
  - cbn [rendered]. f_equal. rewrite map_map.
    rewrite Forall_forall in IH. apply map_ext_in. exact IH.
  - cbn [rendered]. f_equal. rewrite map_map.
    rewrite Forall_forall in IH. apply map_ext_in.
    intros p Hp. cbn [fst snd]. now rewrite IH.
Qed.

Lemma serialize_rendered v : forall d, serialize d (rendered v) = serialize d v.
Proof.
  induction v as [| |x| |elems IH|props IH] using json_ind; intros d;
    try reflexivity.
  - destruct x; reflexivity.
  - cbn [rendered]. destruct elems as [|e l]; [reflexivity|].
    assert (E : map (serialize (S d)) (map rendered (e :: l))
                = map (serialize (S d)) (e :: l)).
    { rewrite map_map. apply map_ext_in. intros a Ha.
      rewrite Forall_forall in IH. now apply IH. }
    change (map rendered (e :: l)) with (rendered e :: map rendered l) in *.
    cbn [serialize]. now rewrite E.
  - cbn [rendered]. destruct props as [|p l]; [reflexivity|].
    set (f := fun p : jsstring * json => (fst p, rendered (snd p))).
    assert (E : map (fun p => quote (fst p) ++ js ": " ++ serialize (S d) (snd p))
                  (map f (p :: l))
                = map (fun p => quote (fst p) ++ js ": " ++ serialize (S d) (snd p))
                    (p :: l)).
    { rewrite map_map. apply map_ext_in. intros a Ha. unfold f. cbn [fst snd].
      rewrite Forall_forall in IH. now rewrite IH. }
    change (map f (p :: l)) with (f p :: map f l) in *.
    cbn [serialize]. now rewrite E.
Qed.

Lemma stringify_rendered v : JSON.stringify (rendered v) = JSON.stringify v.
Proof. apply serialize_rendered. Qed.

Lemma wf_number_of_N n : wf_number (number_of_N n).
Proof. apply wf_make_number, N_to_digits_digits. Qed.

Lemma wf_array_store i v elems :
  wf_json v -> Forall wf_json elems -> Forall wf_json (array_store i v elems).
Proof.
  intros Hv Hel. unfold array_store. destruct (i <? length elems)%nat.
  - now apply Forall_list_set.
  - apply Forall_app; split; [assumption|].
    apply Forall_app; split; [|now constructor].
    apply Forall_forall. intros x Hx. apply repeat_spec in Hx. subst. constructor.
Qed.

Lemma wf_array_resize n elems :
  Forall wf_json elems -> Forall wf_json (array_resize n elems).
Proof.
  intros Hel. unfold array_resize. apply Forall_app; split.
  - rewrite <- (firstn_skipn n elems) in Hel. now apply Forall_app in Hel.
  - apply Forall_forall. intros x Hx. apply repeat_spec in Hx. subst. constructor.
Qed.

(** An assignment that completes leaves a well-formed value. *)
Lemma wf_setProp base k v base' :
  wf_json base -> wf_json v ->
  setProp (Some base) k v = Normal base' -> wf_json base'.
Proof.
  intros Hb Hv. cbn [setProp].
  destruct base as [|b|x|s|elems|props]; try discriminate.
  - destruct (str_eqb k (js "__proto__")); intros H; inversion H; now subst.
  - destruct (str_eqb k (js "__proto__")); intros H; inversion H; now subst.
  - destruct (str_eqb k (js "__proto__")); intros H; inversion H; now subst.
  - pose proof (wf_json_arr Hb) as Hel.
    destruct (array_index k) as [i|].
    + intros H; inversion H; subst. constructor. now apply wf_array_store.
    + destruct (str_eqb k (js "length")).
      * destruct v as [|[|]|x| | |]; try discriminate.
        -- intros H; inversion H. constructor. constructor.
        -- intros H; inversion H. constructor. now apply wf_array_resize.
        -- intros H; inversion H. constructor. constructor.
        -- destruct (number_to_N x) as [n|]; [|discriminate].
           destruct (n <? 4294967296)%N; [|discriminate].
           intros H; inversion H. constructor. now apply wf_array_resize.
      * intros H; inversion H; now subst.
  - pose proof (wf_json_obj Hb) as [Hcan Hel].
    destruct (obj_lookup k props) as [old|] eqn:E.
    + intros H; inversion H. constructor;
        [now apply canonical_replace|now apply Forall_obj_replace].
    + destruct (str_eqb k (js "__proto__")).
      * intros H; inversion H; now subst.
      * intros H; inversion H. constructor;
          [now apply canonical_insert|now apply Forall_obj_insert].
Qed.

Lemma wf_getProp base k x :
  wf_json base -> getProp (Some base) k = Normal (Some x) -> wf_json x.
Proof.
  intros Hb. cbn [getProp].
  destruct base as [|b|n|s|elems|props]; try discriminate.
  - destruct (array_index k); discriminate.
  - destruct (array_index k); discriminate.
  - destruct (array_index k) as [i|].
    + destruct (nth_error s (N.to_nat i)); [|discriminate].
      intros H; inversion H. constructor.
    + destruct (str_eqb k (js "length")); [|discriminate].
      intros H; inversion H. constructor. apply wf_number_of_N.
  - pose proof (wf_json_arr Hb) as Hel.
    destruct (array_index k) as [i|].
    + intros H; inversion H as [E]. rewrite Forall_forall in Hel. apply Hel.
      eapply nth_error_In; eassumption.
    + destruct (str_eqb k (js "length")); [|discriminate].
      intros H; inversion H. constructor. apply wf_number_of_N.
  - pose proof (wf_json_obj Hb) as [_ Hel].
    destruct (obj_lookup k props) as [v|] eqn:E.
    + intros H; inversion H; subst. eapply obj_lookup_Forall in E; eassumption.
    + destruct (inherited_by_object k); discriminate.
Qed.

Lemma wf_navigate prefix : forall base x,
  wf_json base -> navigate (Some base) prefix = Normal (Some x) -> wf_json x.
Proof.
  induction prefix as [|seg prefix IH]; intros base x Hb.
  - cbn [navigate]. intros H; inversion H; now subst.
  - cbn [navigate].
    destruct (getProp (Some base) (property_key seg)) as [[next|]| |] eqn:E;
      cbn [bind]; try discriminate.
    + apply IH. eapply wf_getProp; eassumption.
    + destruct prefix; cbn [navigate getProp bind]; discriminate.
Qed.

(** What [updateJsonAtPath] returns is the rendering of a well-formed
    value. *)
Lemma updateJsonAtPath_normal json path newValue updated :
  updateJsonAtPath json path newValue = Normal updated ->
  exists v, wf_json v /\ updated = JSON.stringify v.
Proof.
  unfold updateJsonAtPath, JSON_parse.
  destruct (JSON.parse json) as [doc|] eqn:Hdoc; [|discriminate].
  cbn [bind]. fold (edited_value newValue).
  pose proof (JSON_parse_wf _ Hdoc) as Hwf.
  pose proof (wf_edited_value newValue) as Hv.
  destruct path as [[|seg segs]|].
  - intros H; inversion H. eauto.
  - destruct (navigate (Some doc) (removelast (seg :: segs)))
      as [[cur|]| |] eqn:Hnav; cbn [bind try_catch]; try discriminate.
    destruct (setProp (Some cur) (property_key (last (seg :: segs) seg))
                (edited_value newValue)) as [cur'| |] eqn:Hset;
      cbn [bind try_catch]; try discriminate.
    intros H; inversion H. eexists. split; [|reflexivity].
    apply wf_store_at; [assumption|].
    eapply wf_setProp; [|exact Hv|exact Hset].
    eapply wf_navigate; [exact Hwf|exact Hnav].
  - intros H; inversion H. eauto.
Qed.

(** ** Rendering goes through the own members *)

Lemma obj_lookup_rendered k props :
  obj_lookup k (map (fun p => (fst p, rendered (snd p))) props)
  = option_map rendered (obj_lookup k props).
Proof.
  induction props as [|[k' v'] t IH]; [reflexivity|].
  simpl. destruct (str_eqb k k'); [reflexivity|exact IH].
Qed.

Lemma obj_replace_map (g : json -> json) k v props :
  map (fun p => (fst p, g (snd p))) (obj_replace k v props)
  = obj_replace k (g v) (map (fun p => (fst p, g (snd p))) props).
Proof.
  induction props as [|[k' v'] t IH]; [reflexivity|].
  simpl. destruct (str_eqb k k'); simpl; [reflexivity|now rewrite IH].
Qed.

Lemma obj_insert_map (g : json -> json) k v props :
  map (fun p => (fst p, g (snd p))) (obj_insert k v props)
  = obj_insert k (g v) (map (fun p => (fst p, g (snd p))) props).
Proof.
  induction props as [|[k' v'] t IH]; [reflexivity|].
  simpl. destruct (precedes k k'); simpl; [reflexivity|now rewrite IH].
Qed.

Lemma list_set_map (A B : Type) (g : A -> B) i x l :
  map g (list_set i x l) = list_set i (g x) (map g l).
Proof.
  revert i; induction l as [|y l IH]; intros [|i]; simpl; try reflexivity.
  now rewrite IH.
Qed.

Lemma array_store_map (g : json -> json) i v elems :
  g JNull = JNull ->
  map g (array_store i v elems) = array_store i (g v) (map g elems).
Proof.
  intros Hg. unfold array_store. rewrite length_map.
  destruct (i <? length elems)%nat.
  - apply list_set_map.
  - rewrite !map_app, map_repeat, Hg. reflexivity.
Qed.

Lemma array_resize_map (g : json -> json) n elems :
  g JNull = JNull ->
  map g (array_resize n elems) = array_resize n (map g elems).
Proof.
  intros Hg. unfold array_resize.
  now rewrite map_app, firstn_map, map_repeat, Hg, length_map.
Qed.

Lemma map_rendered_idem elems : map rendered (map rendered elems) = map rendered elems.
Proof. rewrite map_map. apply map_ext. apply rendered_idem. Qed.

Lemma map_rendered_props_idem (props : list (jsstring * json)) :
  map (fun p => (fst p, rendered (snd p)))
    (map (fun p => (fst p, rendered (snd p))) props)
  = map (fun p => (fst p, rendered (snd p))) props.
Proof.
  rewrite map_map. apply map_ext. intros p. cbn [fst snd].
  now rewrite rendered_idem.
Qed.

Lemma rendered_store_at doc ks new :
  rendered (store_at doc ks new) = store_at (rendered doc) ks (rendered new).
Proof.
  revert doc; induction ks as [|k ks IH]; intros doc; [reflexivity|].
  destruct doc as [| |x| |elems|props]; try reflexivity.
  - destruct x; reflexivity.
  - cbn [store_at rendered]. destruct (array_index k) as [i|]; [|reflexivity].
    rewrite nth_error_map.
    destruct (nth_error elems (N.to_nat i)) as [child|]; [|reflexivity].
    cbn [option_map rendered]. now rewrite list_set_map, IH.
  - cbn [store_at rendered]. rewrite obj_lookup_rendered.
    destruct (obj_lookup k props) as [child|]; [|reflexivity].
    cbn [option_map rendered]. now rewrite obj_replace_map, IH.
Qed.

(** ** Assigning twice *)

Lemma obj_replace_same k v props :
  obj_lookup k props = Some v -> obj_replace k v props = props.
Proof.
  induction props as [|[k' v'] t IH]; [reflexivity|].
  simpl. destruct (str_eqb k k') eqn:E.
  - intros H; inversion H; subst. reflexivity.
  - intros H. now rewrite IH.
Qed.

Lemma obj_replace_replace k a b props :
  obj_replace k b (obj_replace k a props) = obj_replace k b props.
Proof.
  induction props as [|[k' v'] t IH]; [reflexivity|].
  simpl. destruct (str_eqb k k') eqn:E; simpl; rewrite E; [reflexivity|].
  now rewrite IH.
Qed.

Lemma list_set_same (A : Type) i (x : A) l :
  nth_error l i = Some x -> list_set i x l = l.
Proof.
  revert i; induction l as [|y l IH]; intros [|i]; simpl; try discriminate.
  - intros H; inversion H; reflexivity.
  - intros H. now rewrite IH.
Qed.

Lemma list_set_set (A : Type) i (a b : A) l :
  list_set i b (list_set i a l) = list_set i b l.
Proof.
  revert i; induction l as [|y l IH]; intros [|i]; simpl; try reflexivity.
  now rewrite IH.
Qed.

Lemma list_set_length (A : Type) i (x : A) l : length (list_set i x l) = length l.
Proof.
  revert i; induction l as [|y l IH]; intros [|i]; simpl; try reflexivity.
  now rewrite IH.
Qed.

Lemma array_store_length i v elems :
  length (array_store i v elems) = Nat.max (S i) (length elems).
Proof.
  unfold array_store. destruct (i <? length elems)%nat eqn:E.
  - apply Nat.ltb_lt in E. rewrite list_set_length. lia.
  - apply Nat.ltb_ge in E. rewrite !length_app, repeat_length. cbn [length]. lia.
Qed.

Lemma nth_error_array_store_eq i v elems :
  nth_error (array_store i v elems) i = Some v.
Proof.
  unfold array_store. destruct (i <? length elems)%nat eqn:E.
  - apply Nat.ltb_lt in E. now apply nth_error_list_set_eq.
  - apply Nat.ltb_ge in E.
    rewrite nth_error_app2 by lia.
    rewrite nth_error_app2 by (rewrite repeat_length; lia).
    rewrite repeat_length. replace (i - length elems - (i - length elems))%nat with 0%nat by lia.
    reflexivity.
Qed.

Lemma array_store_again i v elems :
  array_store i v (array_store i v elems) = array_store i v elems.
Proof.
  unfold array_store at 1. rewrite array_store_length.
  replace (i <? Nat.max (S i) (length elems))%nat with true
    by (symmetry; apply Nat.ltb_lt; lia).
  apply list_set_same, nth_error_array_store_eq.
Qed.

Lemma array_resize_length n elems : length (array_resize n elems) = n.
Proof.
  unfold array_resize. rewrite length_app, length_firstn, repeat_length.
  destruct (Nat.le_ge_cases n (length elems)) as [H|H].
  - rewrite Nat.min_l by exact H. lia.
  - rewrite Nat.min_r by exact H. lia.
Qed.

Lemma array_resize_again n elems :
  array_resize n (array_resize n elems) = array_resize n elems.
Proof.
  unfold array_resize at 1. rewrite array_resize_length.
  rewrite Nat.sub_diag, app_nil_r. apply firstn_all2.
  rewrite array_resize_length. lia.
Qed.

(** Assigning the same value to the same key of a container a second
    time changes nothing. *)
Lemma setProp_again parent k v parent' :
  is_container parent = true ->
  setProp (Some parent) k v = Normal parent' ->
  setProp (Some parent') k v = Normal parent' /\ is_container parent' = true.
Proof.
  destruct parent as [| | | |elems|props]; try discriminate; intros _.
  - cbn [setProp]. destruct (array_index k) as [i|] eqn:Ei.
    + intros H; inversion H. cbn [setProp]. rewrite ?Ei.
      now rewrite array_store_again.
    + destruct (str_eqb k (js "length")) eqn:El.
      * destruct v as [|[|]|x| | |]; try discriminate.
        -- intros H; inversion H. cbn [setProp]. now rewrite ?Ei, ?El.
        -- intros H; inversion H. cbn [setProp]. rewrite ?Ei, ?El.
           now rewrite array_resize_again.
        -- intros H; inversion H. cbn [setProp]. now rewrite ?Ei, ?El.
        -- destruct (number_to_N x) as [n|] eqn:En; [|discriminate].
           destruct (n <? 4294967296)%N eqn:Hn; [|discriminate].
           intros H; inversion H. cbn [setProp]. rewrite ?Ei, ?El, ?En, ?Hn.
           now rewrite array_resize_again.
      * intros H; inversion H; subst. cbn [setProp]. now rewrite ?Ei, ?El.
  - cbn [setProp]. destruct (obj_lookup k props) as [old|] eqn:E.
    + intros H; inversion H. cbn [setProp].
      rewrite (obj_lookup_replace_eq _ _ _ E).
      now rewrite obj_replace_replace.
    + destruct (str_eqb k (js "__proto__")) eqn:Ep.
      * intros H; inversion H; subst. cbn [setProp]. now rewrite ?E, ?Ep.
      * intros H; inversion H. cbn [setProp].
        rewrite (obj_lookup_insert_eq _ _ _ E).
        rewrite obj_replace_same; [auto|now apply obj_lookup_insert_eq].
Qed.

(** Assigning to a container as [JSON.stringify] renders it gives the
    container after the assignment, as rendered. *)
Lemma setProp_rendered parent k v parent' :
  is_container parent = true ->
  setProp (Some parent) k v = Normal parent' ->
  exists parent'',
    setProp (Some (rendered parent)) k v = Normal parent''
    /\ rendered parent'' = rendered parent'.
Proof.
  destruct parent as [| | | |elems|props]; try discriminate; intros _.
  - cbn [setProp rendered]. destruct (array_index k) as [i|] eqn:Ei.
    + intros H; inversion H. eexists; split; [reflexivity|].
      cbn [rendered]. f_equal.
      rewrite !array_store_map by reflexivity. now rewrite map_rendered_idem.
    + destruct (str_eqb k (js "length")) eqn:El.
      * destruct v as [|[|]|x| | |]; try discriminate.
        -- intros H; inversion H. eexists; split; reflexivity.
        -- intros H; inversion H. eexists; split; [reflexivity|].
           cbn [rendered]. f_equal.
           rewrite !array_resize_map by reflexivity. now rewrite map_rendered_idem.
        -- intros H; inversion H. eexists; split; reflexivity.
        -- destruct (number_to_N x) as [n|] eqn:En; [|discriminate].
           destruct (n <? 4294967296)%N eqn:Hn; [|discriminate].
           intros H; inversion H. eexists; split; [reflexivity|].
           cbn [rendered]. f_equal.
           rewrite !array_resize_map by reflexivity. now rewrite map_rendered_idem.
      * intros H; inversion H; subst. eexists; split; [reflexivity|].
        cbn [rendered]. f_equal. apply map_rendered_idem.
  - cbn [setProp rendered]. rewrite obj_lookup_rendered.
    destruct (obj_lookup k props) as [old|] eqn:E; cbn [option_map].
    + intros H; inversion H. eexists; split; [reflexivity|].
      cbn [rendered]. f_equal.
      rewrite !obj_replace_map. now rewrite map_rendered_props_idem.
    + destruct (str_eqb k (js "__proto__")) eqn:Ep.
      * intros H; inversion H; subst. eexists; split; [reflexivity|].
        cbn [rendered]. f_equal. apply map_rendered_props_idem.
      * intros H; inversion H. eexists; split; [reflexivity|].
        cbn [rendered]. f_equal.
        rewrite !obj_insert_map. now rewrite map_rendered_props_idem.
Qed.

Lemma store_at_same doc ks sub :
  locate doc ks = Some sub -> store_at doc ks sub = doc.
Proof.
  revert doc; induction ks as [|k ks IH]; intros doc Hloc.
  - cbn in *. congruence.
  - cbn [locate store_at] in *.
    destruct doc as [| | | |elems|props]; try discriminate.
    + destruct (array_index k) as [i|]; [|discriminate].
      destruct (nth_error elems (N.to_nat i)) as [child|] eqn:E; [|discriminate].
      rewrite (IH _ Hloc). f_equal. now apply list_set_same.
    + destruct (obj_lookup k props) as [child|] eqn:E; [|discriminate].
      rewrite (IH _ Hloc). f_equal. now apply obj_replace_same.
Qed.

Lemma store_at_store_at doc ks sub a b :
  locate doc ks = Some sub ->
  store_at (store_at doc ks a) ks b = store_at doc ks b.
Proof.
  revert doc; induction ks as [|k ks IH]; intros doc Hloc; [reflexivity|].
  cbn [locate store_at] in *.
  destruct doc as [| | | |elems|props]; try discriminate.
  - destruct (array_index k) as [i|] eqn:Ei; [|discriminate].
    destruct (nth_error elems (N.to_nat i)) as [child|] eqn:E; [|discriminate].
    cbn [store_at]. rewrite ?Ei.
    rewrite nth_error_list_set_eq by (eapply nth_error_length; eassumption).
    now rewrite list_set_set, (IH _ Hloc).
  - destruct (obj_lookup k props) as [child|] eqn:E; [|discriminate].
    cbn [store_at]. rewrite ?(obj_lookup_replace_eq _ _ _ E).
    now rewrite obj_replace_replace, (IH _ Hloc).
Qed.

Lemma removelast_map (A B : Type) (f : A -> B) l :
  removelast (map f l) = map f (removelast l).
Proof.
  induction l as [|x [|y l] IH]; try reflexivity.
  change (f x :: removelast (map f (y :: l)) = f x :: map f (removelast (y :: l))).
  now rewrite IH.
Qed.

(** The steps of [updateJsonAtPath] on a parsed document whose path
    leads, before its last segment, to [parent]. *)
Lemma updateJsonAtPath_at_parent json doc seg segs parent newValue :
  JSON.parse json = Some doc ->
  locate doc (map property_key (removelast (seg :: segs))) = Some parent ->
  updateJsonAtPath json (Some (seg :: segs)) newValue
  = try_catch
      (parent' <- setProp (Some parent) (property_key (last (seg :: segs) seg))
                    (edited_value newValue) ;;
       Normal (JSON.stringify
                 (store_at doc (map property_key (removelast (seg :: segs))) parent')))
      (fun _ => Throw {| message := js "Failed to update JSON. Please check your input." |}).
Proof.
  intros Hdoc Hparent. unfold updateJsonAtPath, JSON_parse.
  rewrite Hdoc. cbn [bind]. fold (edited_value newValue).
  now rewrite (navigate_locate _ _ Hparent).
Qed.

Lemma navigate_app cur a b :
  navigate cur (a ++ b) = (x <- navigate cur a ;; navigate x b).
Proof.
  revert cur; induction a as [|seg a IH]; intros cur; [reflexivity|].
  cbn [app navigate]. destruct (getProp cur (property_key seg)); cbn [bind];
    [apply IH|reflexivity|reflexivity].
Qed.

(** From [undefined] neither the walk nor the assignment goes on. *)
Lemma navigate_undefined (A : Type) l k v (K : json -> completion native_error A) :
  (cur <- navigate None l ;; cur' <- setProp cur k v ;; K cur') = Throw TypeError.
Proof. destruct l; reflexivity. Qed.

Lemma navigate_keys a : forall b cur,
  map property_key a = map property_key b -> navigate cur a = navigate cur b.
Proof.
  induction a as [|x a IH]; intros [|y b] cur H; try discriminate; [reflexivity|].
  cbn [map] in H. inversion H as [[Hk Ht]]. cbn [navigate]. rewrite Hk.
  destruct (getProp cur (property_key y)); cbn [bind]; auto.
Qed.

Lemma last_map (A B : Type) (f : A -> B) l d :
  last (map f l) (f d) = f (last l d).
Proof.
  induction l as [|x [|y l] IH]; try reflexivity.
  change (last (map f (y :: l)) (f d) = f (last (y :: l) d)). exact IH.
Qed.

Lemma last_default (A : Type) (x : A) l d d' : last (x :: l) d = last (x :: l) d'.
Proof.
  revert x; induction l as [|y l IH]; intros x; [reflexivity|].
  change (last (y :: l) d = last (y :: l) d'). apply IH.
Qed.

Lemma obj_insert_last k v props :
  array_index k = None -> obj_insert k v props = props ++ [(k, v)].
Proof.
  intros Hk. induction props as [|[k' v'] t IH]; [reflexivity|].
  cbn [obj_insert app]. unfold precedes. rewrite Hk. now rewrite IH.
Qed.

(* ================================================================== *)
(** * Further properties of updateJsonAtPath *)
(* ================================================================== *)

(** X1. When the document text is not valid JSON, [updateJsonAtPath]
    throws its error for every path and every edited value. *)
Theorem updateJsonAtPath_invalid_document_throws
  (jsonText : jsstring) (path : option (list segment)) (newValue : jsstring) :
  JSON.parse jsonText = None ->
  updateJsonAtPath jsonText path newValue
  = Throw {| message := js "Failed to update JSON. Please check your input." |}.
Proof.
  intros Hdoc. unfold updateJsonAtPath, JSON_parse.
  rewrite Hdoc. reflexivity.
Qed.

Lemma updateJsonAtPath_invalid_document_throws_witness :
  updateJsonAtPath (js "{'a': ") (Some [SegStr (js "a")]) (js "1")
  = Throw {| message := js "Failed to update JSON. Please check your input." |}.
Proof.
  exact (@updateJsonAtPath_invalid_document_throws
           (js "{'a': ") (Some [SegStr (js "a")]) (js "1") eq_refl).
Defined.

(** X2. Whatever [updateJsonAtPath] returns is valid JSON in the form
    [JSON.stringify] writes: it parses, and serializing the parsed value
    gives the same text again. *)
Theorem updateJsonAtPath_returns_json
  (jsonText : jsstring) (path : option (list segment)) (newValue updated : jsstring) :
  updateJsonAtPath jsonText path newValue = Normal updated ->
  exists v, JSON.parse updated = Some v /\ JSON.stringify v = updated.
Proof.
  intros H. apply updateJsonAtPath_normal in H. destruct H as (v & Hwf & ->).
  exists (rendered v). split.
  - now apply parse_stringify.
  - apply stringify_rendered.
Qed.

Lemma updateJsonAtPath_returns_json_witness :
  exists v,
    JSON.parse (js "{~  'a': {~    'b': 1~  },~  'c': [~    true,~    'x y'~  ]~}")
    = Some v
    /\ JSON.stringify v
       = js "{~  'a': {~    'b': 1~  },~  'c': [~    true,~    'x y'~  ]~}".
Proof.
  exact (@updateJsonAtPath_returns_json
           sample_json (Some [SegStr (js "c"); SegNum (number_of_Z 1)]) (js "x y")
           _ eq_refl).
Defined.

(** X3. Saving the same edit a second time changes nothing: when the
    path is empty, or leads before its last segment to an object or an
    array of the document, [updateJsonAtPath] applied to its own result
    with the same path and value returns that result again. *)
Theorem updateJsonAtPath_idempotent
  (jsonText : jsstring) (doc : json) (path : option (list segment))
  (newValue updated : jsstring) :
  JSON.parse jsonText = Some doc ->
  (path_keys path = []
   \/ exists parent,
        locate doc (removelast (path_keys path)) = Some parent
        /\ is_container parent = true) ->
  updateJsonAtPath jsonText path newValue = Normal updated ->
  updateJsonAtPath updated path newValue = Normal updated.
Proof.
  intros Hdoc Hpath Hup.
  assert (Hroot : forall v, wf_json v ->
            updateJsonAtPath (JSON.stringify v) None newValue
            = Normal (JSON.stringify (edited_value newValue))
            /\ updateJsonAtPath (JSON.stringify v) (Some []) newValue
            = Normal (JSON.stringify (edited_value newValue))).
  { intros v Hv. unfold updateJsonAtPath, JSON_parse.
    rewrite (parse_stringify Hv). split; reflexivity. }
  destruct path as [[|seg segs]|].
  - unfold updateJsonAtPath, JSON_parse in Hup. rewrite Hdoc in Hup.
    cbn [bind try_catch] in Hup. inversion Hup.
    apply Hroot, wf_edited_value.
  - destruct Hpath as [Hnil|(parent & Hparent & Hcont)]; [discriminate|].
    cbn [path_keys] in Hparent. rewrite removelast_map in Hparent.
    rewrite (@updateJsonAtPath_at_parent _ _ seg segs _ newValue Hdoc Hparent) in Hup.
    set (k := property_key (last (seg :: segs) seg)) in *.
    set (ks := map property_key (removelast (seg :: segs))) in *.
    destruct (setProp (Some parent) k (edited_value newValue)) as [parent'| |] eqn:Hset;
      cbn [bind try_catch] in Hup; try discriminate.
    inversion Hup as [Hupd]. clear Hup.
    set (D := store_at doc ks parent').
    pose proof (JSON_parse_wf _ Hdoc) as Hwf.
    assert (HwfD : wf_json D).
    { apply wf_store_at; [assumption|].
      eapply wf_setProp; [|apply wf_edited_value|exact Hset].
      eapply wf_locate; eassumption. }
    assert (HlocD : locate D ks = Some parent').
    { pose proof (@locate_store_at doc ks parent parent' [] Hparent) as H.
      now rewrite app_nil_r in H. }
    destruct (@setProp_again parent k _ parent' Hcont Hset) as [Hset2 Hcont'].
    destruct (@setProp_rendered parent' k _ parent' Hcont' Hset2)
      as (parent'' & Hset3 & Hr).
    assert (HlocR : locate (rendered D) ks = Some (rendered parent')).
    { rewrite locate_rendered, HlocD. reflexivity. }
    rewrite (@updateJsonAtPath_at_parent _ _ seg segs _ newValue (parse_stringify HwfD) HlocR).
    fold k ks. rewrite Hset3. cbn [bind try_catch]. f_equal.
    rewrite <- stringify_rendered, <- (stringify_rendered D).
    f_equal. rewrite rendered_store_at, rendered_idem, Hr, <- rendered_store_at.
    f_equal. now apply store_at_same.
  - unfold updateJsonAtPath, JSON_parse in Hup. rewrite Hdoc in Hup.
    cbn [bind try_catch] in Hup. inversion Hup.
    apply Hroot, wf_edited_value.
Qed.

Lemma updateJsonAtPath_idempotent_witness :
  updateJsonAtPath (js "{~  'a': {~    'b': 1~  },~  'c': [~    true,~    null,~    null,~    7~  ]~}")
    (Some [SegStr (js "c"); SegNum (number_of_Z 3)]) (js "7")
  = Normal (js "{~  'a': {~    'b': 1~  },~  'c': [~    true,~    null,~    null,~    7~  ]~}").
Proof.
  refine (@updateJsonAtPath_idempotent
            sample_json sample_doc (Some [SegStr (js "c"); SegNum (number_of_Z 3)])
            (js "7") _ eq_refl _ eq_refl).
  right. exists (JArr [JBool true; JNull]). split; reflexivity.
Defined.

(** X4. When the path leads, before its last segment, to a number, a
    string, a boolean or [null] of the document, there is nothing to
    assign into and [updateJsonAtPath] throws its error (the key
    [__proto__] apart, on a value other than [null]). *)
Theorem updateJsonAtPath_scalar_parent_throws
  (jsonText : jsstring) (doc : json) (seg : segment) (segs : list segment)
  (parent : json) (newValue : jsstring) :
  JSON.parse jsonText = Some doc ->
  locate doc (map property_key (removelast (seg :: segs))) = Some parent ->
  is_container parent = false ->
  parent = JNull \/ property_key (last (seg :: segs) seg) <> js "__proto__" ->
  updateJsonAtPath jsonText (Some (seg :: segs)) newValue
  = Throw {| message := js "Failed to update JSON. Please check your input." |}.
Proof.
  intros Hdoc Hparent Hc Hk.
  rewrite (@updateJsonAtPath_at_parent _ _ seg segs _ newValue Hdoc Hparent).
  destruct parent as [|b|x|s|elems|props]; try discriminate; try reflexivity;
    (destruct Hk as [Hk|Hk]; [discriminate|]);
    apply str_eqb_neq in Hk; cbn [setProp]; rewrite Hk; reflexivity.
Qed.

Lemma updateJsonAtPath_scalar_parent_throws_witness :
  updateJsonAtPath sample_json
    (Some [SegStr (js "a"); SegStr (js "b"); SegStr (js "x")]) (js "2")
  = Throw {| message := js "Failed to update JSON. Please check your input." |}.
Proof.
  refine (@updateJsonAtPath_scalar_parent_throws
            sample_json sample_doc (SegStr (js "a")) [SegStr (js "b"); SegStr (js "x")]
            (JNum (number_of_Z 1)) (js "2") eq_refl eq_refl eq_refl _).
  right. discriminate.
Defined.

(** X5. [updateJsonAtPath] creates no missing ancestors: when a segment
    before the last names a member that its container lacks, the call
    throws its error. *)
Theorem updateJsonAtPath_missing_member_throws
  (jsonText : jsstring) (doc : json) (pre : list segment) (seg : segment)
  (rest : list segment) (parent : json) (newValue : jsstring) :
  JSON.parse jsonText = Some doc ->
  rest <> [] ->
  locate doc (map property_key pre) = Some parent ->
  missing_member parent (property_key seg) ->
  updateJsonAtPath jsonText (Some (pre ++ seg :: rest)) newValue
  = Throw {| message := js "Failed to update JSON. Please check your input." |}.
Proof.
  intros Hdoc Hrest Hparent Hmiss.
  assert (Hget : getProp (Some parent) (property_key seg) = Normal None).
  { destruct parent as [| | | |elems|props]; try contradiction; cbn [getProp].
    - destruct Hmiss as (i & -> & Hi).
      f_equal. now apply nth_error_None.
    - destruct Hmiss as [-> ->]. reflexivity. }
  unfold updateJsonAtPath, JSON_parse. rewrite Hdoc. cbn [bind].
  destruct (pre ++ seg :: rest) as [|s0 p0] eqn:Ep; [destruct pre; discriminate|].
  assert (Hnav : navigate (Some doc) (removelast (s0 :: p0)) = Normal None
                 \/ navigate (Some doc) (removelast (s0 :: p0)) = Throw TypeError).
  { rewrite <- Ep, removelast_app by discriminate.
    rewrite navigate_app, (navigate_locate _ _ Hparent). cbn [bind].
    destruct rest as [|r rest']; [contradiction|].
    change (removelast (seg :: r :: rest')) with (seg :: removelast (r :: rest')).
    cbn [navigate]. rewrite Hget. cbn [bind].
    destruct (removelast (r :: rest')); [left|right]; reflexivity. }
  destruct Hnav as [-> | ->]; reflexivity.
Qed.

Lemma updateJsonAtPath_missing_member_throws_witness :
  updateJsonAtPath sample_json
    (Some [SegStr (js "a"); SegStr (js "x"); SegStr (js "y")]) (js "2")
  = Throw {| message := js "Failed to update JSON. Please check your input." |}.
Proof.
  refine (@updateJsonAtPath_missing_member_throws
            sample_json sample_doc [SegStr (js "a")] (SegStr (js "x"))
            [SegStr (js "y")] (JObj [(js "b", JNum (number_of_Z 1))]) (js "2")
            eq_refl _ eq_refl _).
  - discriminate.
  - split; reflexivity.
Defined.



(** X7. An assignment to the key [__proto__] that the value reached does
    not own is lost: [updateJsonAtPath] returns the document as it was,
    serialized again, without the edited value. *)
Theorem updateJsonAtPath_inherited_proto_is_dropped
  (jsonText : jsstring) (doc : json) (seg : segment) (segs : list segment)
  (parent : json) (newValue : jsstring) :
  JSON.parse jsonText = Some doc ->
  locate doc (map property_key (removelast (seg :: segs))) = Some parent ->
  parent <> JNull ->
  locate parent [js "__proto__"] = None ->
  property_key (last (seg :: segs) seg) = js "__proto__" ->
  updateJsonAtPath jsonText (Some (seg :: segs)) newValue
  = Normal (JSON.stringify doc).
Proof.
  intros Hdoc Hparent Hnull Hown Hk.
  rewrite (@updateJsonAtPath_at_parent _ _ seg segs _ newValue Hdoc Hparent).
  rewrite Hk.
  assert (Hset : setProp (Some parent) (js "__proto__") (edited_value newValue)
                 = Normal parent).
  { destruct parent as [|b|x|s|elems|props]; try reflexivity; [contradiction|].
    cbn [locate] in Hown. cbn [setProp].
    destruct (obj_lookup (js "__proto__") props); [discriminate|reflexivity]. }
  rewrite Hset. cbn [bind try_catch]. now rewrite (store_at_same _ _ Hparent).
Qed.

Lemma updateJsonAtPath_inherited_proto_is_dropped_witness :
  updateJsonAtPath sample_json (Some [SegStr (js "a"); SegStr (js "__proto__")])
    (js "{'x': 1}")
  = Normal (JSON.stringify sample_doc).
Proof.
  refine (@updateJsonAtPath_inherited_proto_is_dropped
            sample_json sample_doc (SegStr (js "a")) [SegStr (js "__proto__")]
            (JObj [(js "b", JNum (number_of_Z 1))]) (js "{'x': 1}")
            eq_refl eq_refl _ eq_refl eq_refl).
  discriminate.
Defined.

(** X8. A member that is new to its object is created after the members
    the object has, when its key is not an array index (and not
    [__proto__]): in the document [updateJsonAtPath] returns, the object
    holds its old members in their order, then the new one. *)
Theorem updateJsonAtPath_new_key_last
  (jsonText : jsstring) (doc : json) (seg : segment) (segs : list segment)
  (props : list (jsstring * json)) (newValue : jsstring) :
  JSON.parse jsonText = Some doc ->
  locate doc (map property_key (removelast (seg :: segs))) = Some (JObj props) ->
  obj_lookup (property_key (last (seg :: segs) seg)) props = None ->
  array_index (property_key (last (seg :: segs) seg)) = None ->
  property_key (last (seg :: segs) seg) <> js "__proto__" ->
  exists updated doc',
    updateJsonAtPath jsonText (Some (seg :: segs)) newValue = Normal updated
    /\ JSON.parse updated = Some doc'
    /\ locate doc' (map property_key (removelast (seg :: segs)))
       = Some (JObj (map (fun p => (fst p, rendered (snd p))) props
                       ++ [(property_key (last (seg :: segs) seg),
                            rendered (edited_value newValue))])).
Proof.
  intros Hdoc Hparent Hnew Hidx Hproto.
  pose proof (JSON_parse_wf _ Hdoc) as Hwf.
  pose proof (wf_locate _ Hwf Hparent) as Hwfp.
  set (k := property_key (last (seg :: segs) seg)) in *.
  set (ks := map property_key (removelast (seg :: segs))) in *.
  set (v := edited_value newValue).
  assert (Hset : setProp (Some (JObj props)) k v = Normal (JObj (props ++ [(k, v)]))).
  { cbn [setProp]. rewrite Hnew. apply str_eqb_neq in Hproto. rewrite Hproto.
    now rewrite obj_insert_last. }
  exists (JSON.stringify (store_at doc ks (JObj (props ++ [(k, v)])))),
         (rendered (store_at doc ks (JObj (props ++ [(k, v)])))).
  split; [|split].
  - rewrite (@updateJsonAtPath_at_parent _ _ seg segs _ newValue Hdoc Hparent).
    fold k ks v. now rewrite Hset.
  - apply parse_stringify. apply wf_store_at; [assumption|].
    eapply wf_setProp; [exact Hwfp|apply wf_edited_value|exact Hset].
  - rewrite locate_rendered.
    pose proof (@locate_store_at doc ks (JObj props) (JObj (props ++ [(k, v)])) []
                  Hparent) as H.
    rewrite app_nil_r in H. cbn [locate] in H. rewrite H.
    cbn [option_map rendered]. now rewrite map_app.
Qed.

Lemma updateJsonAtPath_new_key_last_witness :
  exists updated doc',
    updateJsonAtPath sample_json (Some [SegStr (js "a"); SegStr (js "a")]) (js "2")
    = Normal updated
    /\ JSON.parse updated = Some doc'
    /\ locate doc' [js "a"]
       = Some (JObj [(js "b", JNum (number_of_Z 1)); (js "a", JNum (number_of_Z 2))]).
Proof.
  refine (@updateJsonAtPath_new_key_last
            sample_json sample_doc (SegStr (js "a")) [SegStr (js "a")]
            [(js "b", JNum (number_of_Z 1))] (js "2")
            eq_refl eq_refl eq_refl eq_refl _).
  discriminate.
Defined.

(** X9. [updateJsonAtPath] reads a path through the property keys of its
    segments only: two paths whose segments have the same keys, such as
    the number [0] and the string ["0"], give the same result. *)
Theorem updateJsonAtPath_by_keys
  (jsonText : jsstring) (p q : list segment) (newValue : jsstring) :
  map property_key p = map property_key q ->
  updateJsonAtPath jsonText (Some p) newValue
  = updateJsonAtPath jsonText (Some q) newValue.
Proof.
  intros Hpq.
  destruct p as [|a p], q as [|b q]; try discriminate; [reflexivity|].
  assert (Hnav : map property_key (removelast (a :: p))
                 = map property_key (removelast (b :: q)))
    by now rewrite <- !removelast_map, Hpq.
  assert (Hlast : property_key (last (a :: p) a) = property_key (last (b :: q) b)).
  { rewrite <- (last_map property_key (a :: p) a).
    rewrite <- (last_map property_key (b :: q) b), Hpq.
    cbn [map]. apply last_default. }
  unfold updateJsonAtPath. f_equal.
  destruct (JSON_parse jsonText) as [doc| |]; cbn [bind]; try reflexivity.
  rewrite (navigate_keys _ _ (Some doc) Hnav), Hlast, Hnav. reflexivity.
Qed.

Lemma updateJsonAtPath_by_keys_witness :
  updateJsonAtPath (js "[[1, 2]]") (Some [SegNum (number_of_Z 0); SegNum (number_of_Z 1)])
    (js "3")
  = updateJsonAtPath (js "[[1, 2]]") (Some [SegStr (js "0"); SegStr (js "1")]) (js "3").
Proof.
  exact (@updateJsonAtPath_by_keys
           (js "[[1, 2]]") [SegNum (number_of_Z 0); SegNum (number_of_Z 1)]
           [SegStr (js "0"); SegStr (js "1")] (js "3") eq_refl).
Defined.

(* ================================================================== *)
(** * Further properties of normalizeNodeData *)
(* ================================================================== *)

Lemma wf_json_of_scalar v : wf_scalar v -> wf_json (json_of_scalar v).
Proof. destruct v; simpl; intros H; constructor; exact H. Qed.

Lemma wf_number_of_Z z : wf_number (number_of_Z z).
Proof. apply wf_make_number, N_to_digits_digits. Qed.

Lemma json_of_scalar_flat v : is_container (json_of_scalar v) = false.
Proof. now destruct v. Qed.

Lemma normalizeNodeData_fold rows :
  (2 <= length rows)%nat
  \/ (exists row, rows = [row] /\ truthy (row_key row) = true) ->
  normalizeNodeData rows
  = JSON.stringify
      (JObj (own (fold_left add_row rows {| own := []; has_prototype := true |}))).
Proof.
  intros Hshape. unfold normalizeNodeData. destruct rows as [|row0 rest].
  - destruct Hshape as [H|(row & H & _)]; [simpl in H; lia|discriminate].
  - destruct Hshape as [H|(row & H & Ht)].
    + replace (length (row0 :: rest) =? 1)%nat with false; [reflexivity|].
      symmetry. apply Nat.eqb_neq. cbn [length] in *. lia.
    + inversion H; subst. rewrite Ht. reflexivity.
Qed.


Lemma assign_built rows obj k v :
  built_from rows obj -> wf_scalar v ->
  (exists row, In row rows /\ row_key row = Some k /\ non_container row = true) ->
  built_from rows (assign obj k v).
Proof.
  intros (Hcan & Hflat & Hkeys) Hv Hrow.
  assert (Hfv : flat_value (json_of_scalar v))
    by (split; [now apply wf_json_of_scalar|apply json_of_scalar_flat]).
  unfold assign. destruct (obj_lookup k (own obj)) as [old|] eqn:E.
  - split; [|split]; cbn [own].
    + now apply canonical_replace.
    + now apply (Forall_obj_replace flat_value).
    + intros k'. rewrite obj_replace_keys. apply Hkeys.
  - destruct (has_prototype obj && str_eqb k (js "__proto__")).
    + destruct v; repeat split; assumption.
    + split; [|split]; cbn [own].
      * now apply canonical_insert.
      * now apply (Forall_obj_insert flat_value).
      * intros k' Hin. apply obj_insert_keys in Hin.
        destruct Hin as [->|Hin]; [exact Hrow|now apply Hkeys].
Qed.

Lemma add_row_built rows obj row :
  built_from rows obj -> In row rows -> wf_scalar (row_value row) ->
  built_from rows (add_row obj row).
Proof.
  intros Hb Hin Hv. unfold add_row.
  destruct (negb (str_eqb (row_type row) (js "array"))
            && negb (str_eqb (row_type row) (js "object"))) eqn:Hnc; [|exact Hb].
  destruct (row_key row) as [k|] eqn:Ek; [|exact Hb].
  destruct (truthy (Some k)); [|exact Hb].
  apply assign_built; auto. exists row. auto.
Qed.

Lemma fold_add_row_built all rows : forall obj,
  (forall row, In row rows -> In row all) ->
  Forall (fun row => wf_scalar (row_value row)) rows ->
  built_from all obj -> built_from all (fold_left add_row rows obj).
Proof.
  induction rows as [|row rows IH]; intros obj Hsub Hwf Hb; [exact Hb|].
  cbn [fold_left]. inversion Hwf; subst. apply IH; auto.
  - intros r Hr. apply Hsub. now right.
  - apply add_row_built; auto. apply Hsub. now left.
Qed.

Lemma is_container_rendered v : is_container (rendered v) = is_container v.
Proof. destruct v as [| |[]| | |]; reflexivity. Qed.

(** For two or more rows, or one keyed row, the text is the rendering of
    a well-formed object that the rows built. *)
Lemma normalizeNodeData_built rows :
  (2 <= length rows)%nat
  \/ (exists row, rows = [row] /\ truthy (row_key row) = true) ->
  Forall (fun row => wf_scalar (row_value row)) rows ->
  exists obj,
    normalizeNodeData rows = JSON.stringify (JObj (own obj))
    /\ built_from rows obj.
Proof.
  intros Hshape Hwf. rewrite (normalizeNodeData_fold Hshape).
  eexists. split; [reflexivity|].
  apply fold_add_row_built; auto.
  split; [exact I|]. split; [constructor|]. intros k [].
Qed.

Lemma wf_built rows obj : built_from rows obj -> wf_json (JObj (own obj)).
Proof.
  intros (Hcan & Hflat & _). constructor; [exact Hcan|].
  rewrite Forall_forall in *. intros p Hp. now apply Hflat.
Qed.

Lemma flat_rendered_props (props : list (jsstring * json)) :
  Forall (fun p => flat_value (snd p)) props ->
  Forall (fun p => is_container (snd p) = false)
    (map (fun p => (fst p, rendered (snd p))) props).
Proof.
  intros H. rewrite Forall_forall in *. intros p Hp.
  apply in_map_iff in Hp. destruct Hp as (p0 & <- & Hp0).
  cbn [snd]. rewrite is_container_rendered. now apply H.
Qed.

(** X10. For a node of two or more rows (or of one row with a key),
    whatever the rows are, [normalizeNodeData] returns valid JSON for an
    object without nested containers, and every key of that object is
    the key of a row that is not a container. *)
Theorem normalizeNodeData_is_json_object (rows : list NodeRow) :
  (2 <= length rows)%nat
  \/ (exists row, rows = [row] /\ truthy (row_key row) = true) ->
  Forall (fun row => wf_scalar (row_value row)) rows ->
  exists props,
    JSON.parse (normalizeNodeData rows) = Some (JObj props)
    /\ Forall (fun p => is_container (snd p) = false) props
    /\ forall k, In k (map fst props) ->
         exists row, In row rows /\ row_key row = Some k /\ non_container row = true.
Proof.
  intros Hshape Hwf.
  destruct (normalizeNodeData_built Hshape Hwf) as (obj & -> & Hb).
  exists (map (fun p => (fst p, rendered (snd p))) (own obj)).
  split; [|split].
  - change (JObj (map (fun p => (fst p, rendered (snd p))) (own obj)))
      with (rendered (JObj (own obj))).
    apply parse_stringify. eapply wf_built; eassumption.
  - apply flat_rendered_props, Hb.
  - intros k. rewrite map_map. cbn [fst]. apply Hb.
Qed.

Lemma normalizeNodeData_is_json_object_witness :
  exists props,
    JSON.parse (normalizeNodeData sample_rows) = Some (JObj props)
    /\ Forall (fun p => is_container (snd p) = false) props
    /\ forall k, In k (map fst props) ->
         exists row, In row sample_rows /\ row_key row = Some k
                     /\ non_container row = true.
Proof.
  apply (@normalizeNodeData_is_json_object sample_rows).
  - left. simpl. lia.
  - repeat apply Forall_cons; try apply Forall_nil; try exact I.
    apply wf_number_of_Z.
Defined.

Lemma add_row_lookup obj row :
  has_prototype obj = true ->
  obj_lookup (js "__proto__") (own obj) = None ->
  ~ null_proto_row row ->
  has_prototype (add_row obj row) = true
  /\ obj_lookup (js "__proto__") (own (add_row obj row)) = None
  /\ forall k, k <> js "__proto__" ->
       obj_lookup k (own (add_row obj row))
       = match row_pair row with
         | Some (k', v) => if str_eqb k k' then Some v else obj_lookup k (own obj)
         | None => obj_lookup k (own obj)
         end.
Proof.
  intros Hp Hproto Hrow. unfold add_row, row_pair, non_container.
  destruct (negb (str_eqb (row_type row) (js "array"))
            && negb (str_eqb (row_type row) (js "object"))) eqn:Hnc; [|auto].
  destruct (row_key row) as [[|c k0]|] eqn:Ek; cbn [truthy]; auto.
  set (key := c :: k0) in *.
  unfold assign. destruct (obj_lookup key (own obj)) as [old|] eqn:E; cbn [own has_prototype].
  - assert (Hne : js "__proto__" <> key) by (intros <-; congruence).
    split; [exact Hp|]. split.
    + now rewrite obj_lookup_replace_ne.
    + intros k Hk. destruct (str_eqb k key) eqn:Ekk.
      * apply str_eqb_eq in Ekk. subst k. eapply obj_lookup_replace_eq; eassumption.
      * apply str_eqb_neq in Ekk. now apply obj_lookup_replace_ne.
  - rewrite Hp. cbn [andb]. destruct (str_eqb key (js "__proto__")) eqn:Ekp.
    + apply str_eqb_eq in Ekp.
      assert (Hsame : match row_value row with
                      | VNull => {| own := own obj; has_prototype := false |}
                      | _ => obj
                      end = obj).
      { destruct (row_value row) eqn:Ev; try reflexivity.
        exfalso. apply Hrow. unfold null_proto_row, non_container.
        rewrite Ek, Ev, Hnc. fold key. rewrite Ekp. auto. }
      rewrite Hsame. split; [exact Hp|]. split; [exact Hproto|].
      intros k Hk. rewrite Ekp. apply str_eqb_neq in Hk. now rewrite Hk.
    + apply str_eqb_neq in Ekp. cbn [own has_prototype].
      split; [reflexivity|]. split.
      * rewrite obj_lookup_insert_ne by congruence. exact Hproto.
      * intros k Hk. destruct (str_eqb k key) eqn:Ekk.
        -- apply str_eqb_eq in Ekk. subst k. now apply obj_lookup_insert_eq.
        -- apply str_eqb_neq in Ekk. now apply obj_lookup_insert_ne.
Qed.

Lemma fold_add_row_lookup rows : forall obj,
  has_prototype obj = true ->
  obj_lookup (js "__proto__") (own obj) = None ->
  Forall (fun row => ~ null_proto_row row) rows ->
  obj_lookup (js "__proto__") (own (fold_left add_row rows obj)) = None
  /\ forall k, k <> js "__proto__" ->
       obj_lookup k (own (fold_left add_row rows obj))
       = match last_value k rows with
         | Some v => Some v
         | None => obj_lookup k (own obj)
         end.
Proof.
  induction rows as [|row rows IH]; intros obj Hp Hproto Hrows; [auto|].
  inversion Hrows as [|? ? Hrow Hrest]; subst.
  destruct (@add_row_lookup obj row Hp Hproto Hrow) as (Hp1 & Hproto1 & Hk1).
  destruct (IH _ Hp1 Hproto1 Hrest) as (Hproto2 & Hk2).
  cbn [fold_left]. split; [exact Hproto2|].
  intros k Hk. rewrite (Hk2 k Hk). cbn [last_value].
  destruct (last_value k rows); [reflexivity|].
  rewrite (Hk1 k Hk). destruct (row_pair row) as [[k' v]|]; [|reflexivity].
  now destruct (str_eqb k k').
Qed.

(** X11. A row keyed [__proto__] adds no member: for every row list of
    two or more rows (or one keyed row) in which no such row holds
    [null], [normalizeNodeData] returns the object without a member
    [__proto__], whose other members are those of the last rows that
    contribute them. *)
Theorem normalizeNodeData_drops_proto_rows (rows : list NodeRow) :
  (2 <= length rows)%nat
  \/ (exists row, rows = [row] /\ truthy (row_key row) = true) ->
  Forall (fun row => ~ null_proto_row row) rows ->
  exists props,
    normalizeNodeData rows = JSON.stringify (JObj props)
    /\ forall k,
         obj_lookup k props
         = if str_eqb k (js "__proto__") then None else last_value k rows.
Proof.
  intros Hshape Hrows.
  rewrite (normalizeNodeData_fold Hshape).
  eexists. split; [reflexivity|].
  destruct (@fold_add_row_lookup rows {| own := []; has_prototype := true |}
              eq_refl eq_refl Hrows) as (Hproto & Hk).
  intros k. destruct (str_eqb k (js "__proto__")) eqn:E.
  - apply str_eqb_eq in E. now subst k.
  - apply str_eqb_neq in E. rewrite (Hk k E).
    now destruct (last_value k rows).
Qed.

Lemma normalizeNodeData_drops_proto_rows_witness :
  exists props,
    normalizeNodeData
      [ {| row_key := Some (js "__proto__"); row_value := VNumber (number_of_Z 1);
           row_type := js "number" |};
        {| row_key := Some (js "a"); row_value := VBoolean true;
           row_type := js "boolean" |} ]
    = JSON.stringify (JObj props)
    /\ forall k,
         obj_lookup k props
         = if str_eqb k (js "__proto__") then None
           else last_value k
                  [ {| row_key := Some (js "__proto__");
                       row_value := VNumber (number_of_Z 1);
                       row_type := js "number" |};
                    {| row_key := Some (js "a"); row_value := VBoolean true;
                       row_type := js "boolean" |} ].
Proof.
  apply normalizeNodeData_drops_proto_rows.
  - left. simpl. lia.
  - repeat constructor; intros (_ & H & _); discriminate.
Defined.

Lemma edited_value_ToString v :
  reads_as_itself v -> edited_value (ToString v) = json_of_scalar v.
Proof.
  intros Hv. unfold edited_value.
  destruct v as [s|[neg ds n|neg]|[|]|]; cbn [ToString json_of_scalar].
  - cbn in Hv. now rewrite Hv.
  - change (Number_toString (Fin neg ds n))
      with (JSON.stringify (JNum (Fin neg ds n))).
    rewrite parse_stringify by (constructor; exact Hv). reflexivity.
  - contradiction.
  - reflexivity.
  - reflexivity.
  - reflexivity.
Qed.

Lemma normalizeNodeData_keyless row :
  truthy (row_key row) = false -> normalizeNodeData [row] = ToString (row_value row).
Proof.
  intros Hkey. unfold normalizeNodeData. cbn [length Nat.eqb andb].
  now rewrite Hkey.
Qed.

(** X12. The text shown for a node of one row without a key reads back
    as the row's value: when the value is a finite number, a boolean,
    [null], or a string that is not itself the text of a JSON value,
    the edited value of the unchanged text is the value. *)
Theorem normalizeNodeData_leaf_reads_back (row : NodeRow) :
  truthy (row_key row) = false ->
  reads_as_itself (row_value row) ->
  edited_value (normalizeNodeData [row]) = json_of_scalar (row_value row).
Proof.
  intros Hkey Hv. rewrite (normalizeNodeData_keyless _ Hkey).
  now apply edited_value_ToString.
Qed.

Lemma normalizeNodeData_leaf_reads_back_witness :
  edited_value
    (normalizeNodeData
       [ {| row_key := None; row_value := VString (js "hello world");
            row_type := js "string" |} ])
  = JStr (js "hello world").
Proof.
  exact (@normalizeNodeData_leaf_reads_back
           {| row_key := None; row_value := VString (js "hello world");
              row_type := js "string" |} eq_refl eq_refl).
Defined.

(* ================================================================== *)
(** * Further properties of jsonPathToString *)
(* ================================================================== *)

Ltac literal_safe := vm_compute; repeat constructor; discriminate.

Lemma digits_safe ds : all_digits ds -> Forall path_safe ds.
Proof.
  unfold all_digits. apply Forall_impl. intros c Hc.
  apply is_digit_spec in Hc. unfold path_safe. lia.
Qed.

Lemma zeros_safe n : Forall path_safe (repeat 48%N n).
Proof. apply digits_safe, all_digits_zeros. Qed.

Lemma exponent_text_safe e : Forall path_safe (exponent_text e).
Proof.
  unfold exponent_text. apply Forall_app; split; [literal_safe|].
  apply Forall_app; split; [destruct (e <? 0)%Z; literal_safe|].
  apply digits_safe, N_to_digits_digits.
Qed.

Lemma digits_toString_safe ds n :
  all_digits ds -> Forall path_safe (digits_toString ds n).
Proof.
  intros Hds. pose proof (digits_safe Hds) as Hs.
  assert (Hf : forall m, Forall path_safe (firstn m ds)
                         /\ Forall path_safe (skipn m ds)).
  { intros m. apply Forall_app. now rewrite firstn_skipn. }
  unfold digits_toString.
  destruct ((Z.of_nat (length ds) <=? n)%Z && (n <=? 21)%Z).
  { apply Forall_app; split; [assumption|apply zeros_safe]. }
  destruct ((0 <? n)%Z && (n <=? 21)%Z).
  { apply Forall_app; split; [apply Hf|].
    apply Forall_app; split; [literal_safe|apply Hf]. }
  destruct ((-6 <? n)%Z && (n <=? 0)%Z).
  { apply Forall_app; split; [literal_safe|].
    apply Forall_app; split; [apply zeros_safe|assumption]. }
  unfold scientific. destruct ds as [|d [|d' rest]].
  - constructor.
  - inversion Hs; subst. constructor; [assumption|apply exponent_text_safe].
  - inversion Hs as [|? ? Hd Hrest]; subst. constructor; [assumption|].
    apply Forall_app; split; [literal_safe|].
    apply Forall_app; split; [assumption|apply exponent_text_safe].
Qed.

(** The text of a number holds no double quote and no closing bracket. *)
Lemma Number_toString_safe x : wf_number x -> Forall path_safe (Number_toString x).
Proof.
  destruct x as [neg ds n|[|]]; [|intros _; literal_safe..].
  intros (Hds & _). unfold Number_toString.
  destruct ds as [|d ds']; [literal_safe|].
  apply Forall_app; split; [destruct neg; [literal_safe|constructor]|].
  now apply digits_toString_safe.
Qed.

Lemma split_at_first (A : Type) (c : A) : forall s t X Y,
  ~ In c s -> ~ In c t -> s ++ c :: X = t ++ c :: Y -> s = t /\ X = Y.
Proof.
  induction s as [|a s IH]; intros [|b t] X Y Hs Ht H; cbn [app] in H.
  - inversion H. auto.
  - inversion H; subst. elim Ht. now left.
  - inversion H; subst. elim Hs. now left.
  - inversion H; subst. destruct (IH t X Y) as [-> ->]; auto.
    + intros Hin. apply Hs. now right.
    + intros Hin. apply Ht. now right.
Qed.

Lemma safe_not_in (c : N) (s : list N) :
  (c = QUOTE \/ c = 93%N) -> Forall path_safe s -> ~ In c s.
Proof.
  intros Hc Hs Hin. rewrite Forall_forall in Hs. destruct (Hs _ Hin) as [H1 H2].
  destruct Hc; congruence.
Qed.

Lemma bracketed_str s : bracketed (SegStr s) = 91%N :: QUOTE :: s ++ QUOTE :: [93%N].
Proof. reflexivity. Qed.

Lemma bracketed_num x : bracketed (SegNum x) = 91%N :: Number_toString x ++ [93%N].
Proof. reflexivity. Qed.

Lemma jsonPathToString_concat p :
  jsonPathToString (Some p) = js "$" ++ concat (map bracketed p).
Proof.
  destruct p as [|seg p]; [reflexivity|].
  unfold jsonPathToString.
  change (js "$[" ++ join (js "][") (map render_segment (seg :: p)) ++ js "]")
    with (js "$" ++ 91%N :: (join (js "][") (map render_segment (seg :: p)) ++ js "]")).
  rewrite join_brackets. cbn [map concat].
  destruct seg; [rewrite bracketed_str|rewrite bracketed_num]; reflexivity.
Qed.

(** Paths of plain segments with the same bracketed text have the same
    keys. *)
Lemma bracketed_keys p : forall q,
  Forall plain_segment p -> Forall plain_segment q ->
  concat (map bracketed p) = concat (map bracketed q) ->
  map property_key p = map property_key q.
Proof.
  induction p as [|a p IH]; intros [|b q] Hp Hq H.
  - reflexivity.
  - cbn [map concat] in H. destruct b; discriminate.
  - cbn [map concat] in H. destruct a; discriminate.
  - inversion Hp as [|? ? Ha Hp']; inversion Hq as [|? ? Hb Hq']; subst.
    cbn [map concat] in H.
    destruct a as [s|x], b as [t|y];
      rewrite ?bracketed_str, ?bracketed_num in H; cbn [app] in H;
      rewrite <- ?app_assoc in H; cbn [app] in H; inversion H as [H1].
    + destruct (split_at_first QUOTE s t _ _ Ha Hb H1) as [-> H2].
      inversion H2 as [H3]. cbn [map property_key]. f_equal. now apply IH.
    + exfalso. cbn in Hb. apply Number_toString_safe in Hb.
      destruct (Number_toString y) as [|c r]; [discriminate|].
      inversion H1; subst. inversion Hb as [|? ? [Hc _] _]. now apply Hc.
    + exfalso. cbn in Ha. apply Number_toString_safe in Ha.
      destruct (Number_toString x) as [|c r]; [discriminate|].
      inversion H1; subst. inversion Ha as [|? ? [Hc _] _]. now apply Hc.
    + cbn in Ha, Hb.
      destruct (split_at_first 93%N (Number_toString x) (Number_toString y) _ _
                  (@safe_not_in 93%N _ (or_intror eq_refl) (@Number_toString_safe x Ha))
                  (@safe_not_in 93%N _ (or_intror eq_refl) (@Number_toString_safe y Hb))
                  H1)
        as [Hxy H2].
      cbn [map property_key]. rewrite Hxy. f_equal. now apply IH.
Qed.

(** X13. The displayed path tells where the node is: two paths of names
    without a double quote and of numbers that [jsonPathToString] renders
    alike have the same property keys, segment by segment. *)
Theorem jsonPathToString_injective (p q : list segment) :
  Forall plain_segment p -> Forall plain_segment q ->
  jsonPathToString (Some p) = jsonPathToString (Some q) ->
  map property_key p = map property_key q.
Proof.
  intros Hp Hq H. rewrite !jsonPathToString_concat in H.
  inversion H as [H1]. now apply bracketed_keys.
Qed.

Lemma jsonPathToString_injective_witness :
  map property_key [SegStr (js "a"); SegNum (number_of_Z 10)]
  = map property_key [SegStr (js "a"); SegNum (number_of_N 10)].
Proof.
  refine (@jsonPathToString_injective
            [SegStr (js "a"); SegNum (number_of_Z 10)]
            [SegStr (js "a"); SegNum (number_of_N 10)] _ _ eq_refl).
  - repeat apply Forall_cons; try apply Forall_nil.
    + simpl. intros [H|[]]; discriminate.
    + apply wf_number_of_Z.
  - repeat apply Forall_cons; try apply Forall_nil.
    + simpl. intros [H|[]]; discriminate.
    + apply wf_number_of_N.
Defined.

(* ================================================================== *)
(** * Further properties of the dialog *)
(* ================================================================== *)

Lemma handleSave_cases st w st' w' :
  handleSave st w = Normal (st', w') ->
  (exists updated,
      updateJsonAtPath (getJson w) (selectedPath w) (editValue st) = Normal updated
      /\ st' = {| isEditing := false; editValue := editValue st;
                  originalValue := editValue st |}
      /\ w' = toast (ToastSuccess (js "Node value updated successfully!"))
                (setJson updated
                   (setContents {| contents := updated; hasChanges := true |} w)))
  \/ (exists e,
         updateJsonAtPath (getJson w) (selectedPath w) (editValue st) = Throw e
         /\ st' = st /\ w' = toast (ToastError (error_text e)) w).
Proof.
  unfold handleSave.
  destruct (updateJsonAtPath (getJson w) (selectedPath w) (editValue st))
    as [updated|e|] eqn:E; cbn [bind try_catch]; intros H; inversion H.
  - left. eauto.
  - right. eauto.
Qed.

Lemma interaction_shows_saved s s' :
  interaction s s' -> shows_saved (fst s) -> shows_saved (fst s').
Proof.
  unfold shows_saved.
  intros [b st w st' w' Hb Hclick|value shown st w Hshown|opened node st w];
    cbn [fst]; intros Hinv.
  - destruct b; cbn [onClick] in Hclick.
    + inversion Hclick; subst. discriminate.
    + inversion Hclick; subst. reflexivity.
    + apply handleSave_cases in Hclick.
      destruct Hclick as [(u & _ & -> & _)|(e & _ & -> & _)]; [reflexivity|exact Hinv].
  - unfold render in Hshown. cbn [content] in Hshown.
    cbn [onChange isEditing]. destruct (isEditing st); discriminate.
  - unfold resetEffect. destruct opened; [|exact Hinv].
    destruct (selectedNode (select node w)); [reflexivity|exact Hinv].
Qed.

(** X14. The read-only view never shows an unsaved edit: after any
    sequence of clicks on the buttons shown, typing in the text area and
    runs of the effect, a dialog that is not in edit mode shows the text
    it keeps as the original value. *)
Theorem view_mode_shows_saved_value (w : World) (st' : ModalState) (w' : World) :
  interactions (initialState, w) (st', w') ->
  isEditing st' = false ->
  displayedValue st' = originalValue st'.
Proof.
  intros Hrun.
  assert (H : shows_saved (fst (initialState, w)) -> shows_saved (fst (st', w'))).
  { induction Hrun as [s|s1 s2 s3 Hstep _ IH]; [auto|].
    intros Hinv. apply IH. eapply interaction_shows_saved; eassumption. }
  apply H. intros _. reflexivity.
Qed.

Lemma view_mode_shows_saved_value_witness :
  displayedValue (handleCancel (onChange (js "2") (handleEdit initialState)))
  = originalValue (handleCancel (onChange (js "2") (handleEdit initialState))).
Proof.
  refine (@view_mode_shows_saved_value
            (sample_world sample_json [])
            (handleCancel (onChange (js "2") (handleEdit initialState)))
            (sample_world sample_json []) _ eq_refl).
  eapply interactions_step.
  { apply (@interaction_click EditButton); [now left|reflexivity]. }
  eapply interactions_step.
  { eapply (@interaction_type (js "2")). reflexivity. }
  eapply interactions_step.
  { apply (@interaction_click CancelButton); [now left|reflexivity]. }
  apply interactions_refl.
Defined.

Lemma interaction_stores s s' :
  interaction s s' ->
  (contents (fileStore (snd s)) = jsonStore (snd s) ->
   contents (fileStore (snd s')) = jsonStore (snd s'))
  /\ (JSON.parse (jsonStore (snd s)) <> None ->
      JSON.parse (jsonStore (snd s')) <> None).
Proof.
  intros [b st w st' w' Hb Hclick|value shown st w Hshown|opened node st w];
    cbn [snd]; try (split; intros H; exact H).
  destruct b; cbn [onClick] in Hclick;
    try (inversion Hclick; subst; split; intros H; exact H).
  apply handleSave_cases in Hclick.
  destruct Hclick as [(u & Hu & _ & ->)|(e & _ & _ & ->)].
  - cbn. split; [reflexivity|]. intros _.
    apply updateJsonAtPath_normal in Hu. destruct Hu as (v & Hwf & ->).
    rewrite (parse_stringify Hwf). discriminate.
  - cbn. split; intros H; exact H.
Qed.

(** X15. The dialog keeps the file store and the JSON store in step:
    when the editable contents and the JSON text are the same text, they
    are the same text after any sequence of interactions. *)
Theorem interactions_keep_stores_in_step (s s' : ModalState * World) :
  interactions s s' ->
  contents (fileStore (snd s)) = jsonStore (snd s) ->
  contents (fileStore (snd s')) = jsonStore (snd s').
Proof.
  induction 1 as [s|s1 s2 s3 Hstep _ IH]; [auto|].
  intros H. apply IH. now apply (interaction_stores Hstep).
Qed.

Lemma interactions_keep_stores_in_step_witness :
  contents
    (fileStore
       (toast (ToastSuccess (js "Node value updated successfully!"))
          (setJson (js "{~  'a': 3,~  'c': 1~}")
             (setContents {| contents := js "{~  'a': 3,~  'c': 1~}";
                             hasChanges := true |}
                (sample_world (js "{'a': 2, 'c': 1}") [SegStr (js "a")])))))
  = js "{~  'a': 3,~  'c': 1~}".
Proof.
  refine (@interactions_keep_stores_in_step
            (sample_state (js "3"),
             sample_world (js "{'a': 2, 'c': 1}") [SegStr (js "a")])
            (_, _) _ eq_refl).
  eapply interactions_step; [|apply interactions_refl].
  apply (@interaction_click SaveButton); [right; now left|reflexivity].
Defined.

(** X16. The dialog never puts text in the JSON store that is not valid
    JSON: when the store holds valid JSON, it holds valid JSON after any
    sequence of interactions. *)
Theorem interactions_keep_json_valid (s s' : ModalState * World) :
  interactions s s' ->
  JSON.parse (jsonStore (snd s)) <> None ->
  JSON.parse (jsonStore (snd s')) <> None.
Proof.
  induction 1 as [s|s1 s2 s3 Hstep _ IH]; [auto|].
  intros H. apply IH. now apply (interaction_stores Hstep).
Qed.

Lemma interactions_keep_json_valid_witness :
  JSON.parse (js "{~  'a': 3,~  'c': 1~}") <> None.
Proof.
  refine (@interactions_keep_json_valid
            (sample_state (js "3"),
             sample_world (js "{'a': 2, 'c': 1}") [SegStr (js "a")])
            (_, toast (ToastSuccess (js "Node value updated successfully!"))
                  (setJson (js "{~  'a': 3,~  'c': 1~}")
                     (setContents {| contents := js "{~  'a': 3,~  'c': 1~}";
                                     hasChanges := true |}
                        (sample_world (js "{'a': 2, 'c': 1}") [SegStr (js "a")]))))
            _ _).
  - eapply interactions_step; [|apply interactions_refl].
    apply (@interaction_click SaveButton); [right; now left|reflexivity].
  - discriminate.
Defined.

Lemma replace_at_same doc ks v :
  locate doc ks = Some v -> replace_at doc ks v = doc.
Proof.
  revert doc; induction ks as [|k ks IH]; intros doc Hloc.
  - cbn in *. congruence.
  - cbn [locate replace_at] in *.
    destruct doc as [| | | |elems|props]; try discriminate.
    + destruct (array_index k) as [i|]; [|discriminate].
      destruct (nth_error elems (N.to_nat i)) as [child|] eqn:E; [|discriminate].
      rewrite (IH _ Hloc). f_equal. now apply list_set_same.
    + destruct (obj_lookup k props) as [child|] eqn:E; [|discriminate].
      rewrite (IH _ Hloc). f_equal. now apply obj_replace_same.
Qed.

Lemma wf_replace_at doc ks v old :
  wf_json doc -> wf_json v -> locate doc ks = Some old ->
  wf_json (replace_at doc ks v).
Proof.
  intros Hd Hv Hloc.
  pose proof (@store_at_replace doc ks old [] v Hloc) as H.
  rewrite app_nil_r in H. cbn [replace_at] in H. rewrite <- H.
  now apply wf_store_at.
Qed.

(** Save pressed right after Edit, on the node selected in [w]: the
    update runs on the text [normalizeNodeData] gave. *)
Lemma handleSave_unchanged st w node updated :
  selectedNode w = Some node ->
  updateJsonAtPath (getJson w) (path node) (normalizeNodeData (text node))
  = Normal updated ->
  exists st',
    handleSave (handleEdit (resetEffect true st w)) w
    = Normal (st', toast (ToastSuccess (js "Node value updated successfully!"))
                     (setJson updated
                        (setContents {| contents := updated; hasChanges := true |} w))).
Proof.
  intros Hsel Hup. unfold handleSave, resetEffect, selectedPath.
  rewrite Hsel. cbn [handleEdit editValue]. rewrite Hup.
  cbn [bind try_catch]. eauto.
Qed.

(** X17. Edit and then Save without typing leaves the document as it is,
    for a node of one row without a key whose value reads back as
    itself and is the value the node's path leads to: the JSON store then
    holds the document serialized again. *)
Theorem save_unchanged_leaf_keeps_document
  (st : ModalState) (w : World) (node : NodeData) (row : NodeRow) (doc : json) :
  selectedNode w = Some node ->
  text node = [row] ->
  truthy (row_key row) = false ->
  reads_as_itself (row_value row) ->
  JSON.parse (getJson w) = Some doc ->
  locate doc (path_keys (path node)) = Some (json_of_scalar (row_value row)) ->
  exists st' w',
    handleSave (handleEdit (resetEffect true st w)) w = Normal (st', w')
    /\ jsonStore w' = JSON.stringify doc
    /\ contents (fileStore w') = JSON.stringify doc.
Proof.
  intros Hsel Htext Hkey Hv Hdoc Hloc.
  assert (Hup : updateJsonAtPath (getJson w) (path node)
                  (normalizeNodeData (text node))
                = Normal (JSON.stringify doc)).
  { rewrite (@updateJsonAtPath_located _ _ (path node) _ _ Hdoc Hloc).
    rewrite Htext, (@normalizeNodeData_keyless row Hkey).
    rewrite (@edited_value_ToString _ Hv). now rewrite (@replace_at_same _ _ _ Hloc). }
  destruct (@handleSave_unchanged st w node _ Hsel Hup) as (st' & Hsave).
  eexists _, _. split; [exact Hsave|]. split; reflexivity.
Qed.

Lemma save_unchanged_leaf_keeps_document_witness :
  exists st' w',
    handleSave (handleEdit (resetEffect true initialState
                              (sample_selection sample_leaf_node)))
      (sample_selection sample_leaf_node)
    = Normal (st', w')
    /\ jsonStore w' = JSON.stringify sample_doc
    /\ contents (fileStore w') = JSON.stringify sample_doc.
Proof.
  refine (@save_unchanged_leaf_keeps_document
            initialState (sample_selection sample_leaf_node) sample_leaf_node
            _ sample_doc eq_refl eq_refl eq_refl _ eq_refl eq_refl).
  exact (wf_number_of_Z 1).
Defined.

(** X18. Edit and then Save without typing on a node of two or more rows
    (or of one keyed row) drops what is nested: where the node's path
    led to a value of the document, it leads afterwards to an object
    none of whose members is an array or an object. *)
Theorem save_unchanged_object_drops_nested
  (st : ModalState) (w : World) (node : NodeData) (doc old : json) :
  selectedNode w = Some node ->
  (2 <= length (text node))%nat
  \/ (exists row, text node = [row] /\ truthy (row_key row) = true) ->
  Forall (fun row => wf_scalar (row_value row)) (text node) ->
  JSON.parse (getJson w) = Some doc ->
  locate doc (path_keys (path node)) = Some old ->
  exists st' w' doc' props,
    handleSave (handleEdit (resetEffect true st w)) w = Normal (st', w')
    /\ JSON.parse (jsonStore w') = Some doc'
    /\ locate doc' (path_keys (path node)) = Some (JObj props)
    /\ Forall (fun p => is_container (snd p) = false) props.
Proof.
  intros Hsel Hshape Hrows Hdoc Hloc.
  destruct (normalizeNodeData_built Hshape Hrows) as (obj & Hnorm & Hb).
  pose proof (wf_built Hb) as Hwfo.
  set (V := rendered (JObj (own obj))).
  assert (Hev : edited_value (normalizeNodeData (text node)) = V).
  { unfold edited_value. now rewrite Hnorm, (parse_stringify Hwfo). }
  assert (HwfV : wf_json V) by (rewrite <- Hev; apply wf_edited_value).
  set (ks := path_keys (path node)) in *.
  assert (Hup : updateJsonAtPath (getJson w) (path node)
                  (normalizeNodeData (text node))
                = Normal (JSON.stringify (replace_at doc ks V))).
  { rewrite (@updateJsonAtPath_located _ _ (path node) _ _ Hdoc Hloc).
    fold ks. now rewrite Hev. }
  destruct (@handleSave_unchanged st w node _ Hsel Hup) as (st' & Hsave).
  exists st'. eexists. exists (rendered (replace_at doc ks V)).
  exists (map (fun p => (fst p, rendered (snd p)))
            (map (fun p => (fst p, rendered (snd p))) (own obj))).
  split; [exact Hsave|]. split; [|split].
  - cbn [jsonStore toast setJson]. apply parse_stringify.
    eapply wf_replace_at; [eapply JSON_parse_wf| |]; eassumption.
  - rewrite locate_rendered, (@locate_replace_at doc ks V old Hloc). reflexivity.
  - rewrite map_rendered_props_idem. apply flat_rendered_props, Hb.
Qed.

Lemma save_unchanged_object_drops_nested_witness :
  exists st' w' doc' props,
    handleSave (handleEdit (resetEffect true initialState
                              (sample_selection sample_root_node)))
      (sample_selection sample_root_node)
    = Normal (st', w')
    /\ JSON.parse (jsonStore w') = Some doc'
    /\ locate doc' [] = Some (JObj props)
    /\ Forall (fun p => is_container (snd p) = false) props.
Proof.
  refine (@save_unchanged_object_drops_nested
            initialState (sample_selection sample_root_node) sample_root_node
            sample_doc sample_doc eq_refl _ _ eq_refl eq_refl).
  - left. simpl. lia.
  - repeat apply Forall_cons; try apply Forall_nil; exact I.
Defined.

(* ================================================================== *)
(** * Updates at two places of a document *)
(* ================================================================== *)

(** ** Replacements at paths that part ways *)

Lemma rendered_replace_at doc ks v :
  rendered (replace_at doc ks v) = replace_at (rendered doc) ks (rendered v).
Proof.
  revert doc; induction ks as [|k ks IH]; intros doc; [reflexivity|].
  destruct doc as [| |x| |elems|props]; try reflexivity.
  - destruct x; reflexivity.
  - cbn [replace_at rendered]. destruct (array_index k) as [i|]; [|reflexivity].
    rewrite nth_error_map.
    destruct (nth_error elems (N.to_nat i)) as [child|]; [|reflexivity].
    cbn [option_map rendered]. now rewrite list_set_map, IH.
  - cbn [replace_at rendered]. rewrite obj_lookup_rendered.
    destruct (obj_lookup k props) as [child|]; cbn [option_map].
    + cbn [rendered]. now rewrite obj_replace_map, IH.
    + destruct ks; [|reflexivity]. cbn [rendered]. now rewrite obj_insert_map.
Qed.

Lemma obj_replace_swap k k' a b props :
  k <> k' ->
  obj_replace k' b (obj_replace k a props) = obj_replace k a (obj_replace k' b props).
Proof.
  intros Hne. induction props as [|[k0 v0] t IH]; [reflexivity|].
  cbn [obj_replace].
  destruct (str_eqb k k0) eqn:E, (str_eqb k' k0) eqn:E'; cbn [obj_replace];
    rewrite ?E, ?E'; try reflexivity.
  - apply str_eqb_eq in E, E'. congruence.
  - now rewrite IH.
Qed.

Lemma list_set_swap (A : Type) i j (a b : A) l :
  i <> j -> list_set j b (list_set i a l) = list_set i a (list_set j b l).
Proof.
  revert i j; induction l as [|y l IH]; intros [|i] [|j] Hne; simpl;
    try reflexivity; try lia.
  rewrite IH by lia. reflexivity.
Qed.

Lemma diverge_sym p q : diverge p q -> diverge q p.
Proof. intros [H1 H2]. split; assumption. Qed.

Lemma diverge_nil_l q : ~ diverge [] q.
Proof. intros [H _]. discriminate. Qed.

Lemma replace_at_frame doc p : forall q v old,
  locate doc p = Some old -> diverge p q ->
  locate (replace_at doc p v) q = locate doc q.
Proof.
  revert doc; induction p as [|k p IH]; intros doc q v old Hloc Hdiv.
  - now apply diverge_nil_l in Hdiv.
  - destruct q as [|k' q]; [now apply diverge_nil_r in Hdiv|].
    cbn [locate replace_at] in *.
    destruct doc as [| | | |elems|props]; try discriminate.
    + destruct (array_index k) as [i|] eqn:Ei; [|discriminate].
      destruct (nth_error elems (N.to_nat i)) as [child|] eqn:Ec; [|discriminate].
      cbn [locate]. destruct (array_index k') as [j|] eqn:Ej; [|reflexivity].
      destruct (N.eq_dec i j) as [<-|Hij].
      * assert (k = k') by (eapply array_index_inj; eassumption). subst k'.
        rewrite nth_error_list_set_eq by (eapply nth_error_length; eassumption).
        rewrite Ec. eapply IH; [eassumption|]. now apply (@diverge_cons_eq k).
      * rewrite nth_error_list_set_ne by lia. reflexivity.
    + destruct (obj_lookup k props) as [child|] eqn:Ec; [|discriminate].
      cbn [locate]. destruct (str_eqb k k') eqn:Ekk.
      * apply str_eqb_eq in Ekk. subst k'.
        rewrite (obj_lookup_replace_eq _ _ _ Ec), Ec.
        eapply IH; [eassumption|]. now apply (@diverge_cons_eq k).
      * apply str_eqb_neq in Ekk.
        rewrite obj_lookup_replace_ne by congruence. reflexivity.
Qed.

Lemma replace_at_element elems k ks v i child :
  array_index k = Some i -> nth_error elems (N.to_nat i) = Some child ->
  replace_at (JArr elems) (k :: ks) v
  = JArr (list_set (N.to_nat i) (replace_at child ks v) elems).
Proof. intros Hi Hc. cbn [replace_at]. now rewrite Hi, Hc. Qed.

Lemma replace_at_member props k ks v child :
  obj_lookup k props = Some child ->
  replace_at (JObj props) (k :: ks) v
  = JObj (obj_replace k (replace_at child ks v) props).
Proof. intros Hc. cbn [replace_at]. now rewrite Hc. Qed.

Lemma replace_at_swap doc p : forall q a b old old',
  locate doc p = Some old -> locate doc q = Some old' -> diverge p q ->
  replace_at (replace_at doc p a) q b = replace_at (replace_at doc q b) p a.
Proof.
  revert doc; induction p as [|k p IH]; intros doc q a b old old' Hp Hq Hdiv.
  - now apply diverge_nil_l in Hdiv.
  - destruct q as [|k' q]; [now apply diverge_nil_r in Hdiv|].
    cbn [locate] in Hp, Hq.
    destruct doc as [| | | |elems|props]; try discriminate.
    + destruct (array_index k) as [i|] eqn:Ei; [|discriminate].
      destruct (nth_error elems (N.to_nat i)) as [c1|] eqn:E1; [|discriminate].
      destruct (array_index k') as [j|] eqn:Ej; [|discriminate].
      destruct (nth_error elems (N.to_nat j)) as [c2|] eqn:E2; [|discriminate].
      rewrite (@replace_at_element elems k p a i c1 Ei E1).
      rewrite (@replace_at_element elems k' q b j c2 Ej E2).
      destruct (N.eq_dec i j) as [<-|Hij].
      * assert (k = k') by (eapply array_index_inj; eassumption). subst k'.
        assert (c2 = c1) by congruence. subst c2.
        rewrite !(@replace_at_element _ k _ _ i (replace_at c1 _ _) Ei)
          by (apply nth_error_list_set_eq; eapply nth_error_length; eassumption).
        rewrite !list_set_set. f_equal. f_equal.
        eapply IH; try eassumption. now apply (@diverge_cons_eq k).
      * rewrite (@replace_at_element _ k' _ _ j c2 Ej)
          by (rewrite nth_error_list_set_ne by lia; exact E2).
        rewrite (@replace_at_element _ k _ _ i c1 Ei)
          by (rewrite nth_error_list_set_ne by lia; exact E1).
        f_equal. apply list_set_swap. lia.
    + destruct (obj_lookup k props) as [c1|] eqn:E1; [|discriminate].
      destruct (obj_lookup k' props) as [c2|] eqn:E2; [|discriminate].
      rewrite (@replace_at_member props k p a c1 E1).
      rewrite (@replace_at_member props k' q b c2 E2).
      destruct (str_eqb k k') eqn:Ekk.
      * apply str_eqb_eq in Ekk. subst k'.
        assert (c2 = c1) by congruence. subst c2.
        rewrite !(@replace_at_member _ k _ _ (replace_at c1 _ _))
          by (eapply obj_lookup_replace_eq; eassumption).
        rewrite !obj_replace_replace. f_equal. f_equal.
        eapply IH; try eassumption. now apply (@diverge_cons_eq k).
      * apply str_eqb_neq in Ekk.
        rewrite (@replace_at_member _ k' _ _ c2)
          by (rewrite obj_lookup_replace_ne by congruence; exact E2).
        rewrite (@replace_at_member _ k _ _ c1)
          by (rewrite obj_lookup_replace_ne by congruence; exact E1).
        f_equal. now apply obj_replace_swap.
Qed.

(** X19. Edits at places that part ways can be saved in either order:
    for two paths that lead to values of the document and of which
    neither leads through the other, updating at one and then, in the
    result, at the other gives the same text as the opposite order. *)
Theorem updateJsonAtPath_commutes
  (jsonText : jsstring) (doc : json) (p q : option (list segment))
  (a b : jsstring) (old old' : json) :
  JSON.parse jsonText = Some doc ->
  locate doc (path_keys p) = Some old ->
  locate doc (path_keys q) = Some old' ->
  diverge (path_keys p) (path_keys q) ->
  exists first second both,
    updateJsonAtPath jsonText p a = Normal first
    /\ updateJsonAtPath jsonText q b = Normal second
    /\ updateJsonAtPath first q b = Normal both
    /\ updateJsonAtPath second p a = Normal both.
Proof.
  intros Hdoc Hp Hq Hdiv.
  pose proof (JSON_parse_wf _ Hdoc) as Hwf.
  set (P := path_keys p) in *. set (Q := path_keys q) in *.
  set (A := edited_value a). set (B := edited_value b).
  assert (HA : wf_json A) by apply wf_edited_value.
  assert (HB : wf_json B) by apply wf_edited_value.
  assert (Hstep : forall path v d d0 o,
             wf_json d -> locate d (path_keys path) = Some o ->
             wf_json d0 -> rendered d0 = rendered d ->
             updateJsonAtPath (JSON.stringify d0) path v
             = Normal (JSON.stringify
                         (replace_at (rendered d) (path_keys path) (edited_value v)))).
  { intros path v d d0 o Hd Ho Hd0 Hr.
    apply (@updateJsonAtPath_located _ _ path v (rendered o)).
    - rewrite (parse_stringify Hd0). now rewrite Hr.
    - rewrite locate_rendered, Ho. reflexivity. }
  exists (JSON.stringify (replace_at doc P A)),
         (JSON.stringify (replace_at doc Q B)),
         (JSON.stringify (replace_at (replace_at (rendered doc) P (rendered A))
                            Q B)).
  split; [|split; [|split]].
  - apply (@updateJsonAtPath_located _ _ p a old Hdoc Hp).
  - apply (@updateJsonAtPath_located _ _ q b old' Hdoc Hq).
  - rewrite (Hstep q b (replace_at doc P A) (replace_at doc P A) old').
    + fold Q B. now rewrite rendered_replace_at.
    + eapply wf_replace_at; eassumption.
    + fold Q. rewrite (replace_at_frame _ _ Hp Hdiv). exact Hq.
    + eapply wf_replace_at; eassumption.
    + reflexivity.
  - rewrite (Hstep p a (replace_at doc Q B) (replace_at doc Q B) old).
    + fold P A. rewrite rendered_replace_at.
      rewrite <- stringify_rendered.
      rewrite <- (stringify_rendered (replace_at (replace_at _ P _) Q B)).
      f_equal. rewrite !rendered_replace_at, !rendered_idem.
      f_equal.
      eapply replace_at_swap;
        [rewrite locate_rendered, Hq; reflexivity
        |rewrite locate_rendered, Hp; reflexivity
        |exact (diverge_sym Hdiv)].
    + eapply wf_replace_at; eassumption.
    + fold P. rewrite (replace_at_frame _ _ Hq (diverge_sym Hdiv)). exact Hp.
    + eapply wf_replace_at; eassumption.
    + reflexivity.
Qed.

Lemma updateJsonAtPath_commutes_witness :
  exists first second both,
    updateJsonAtPath sample_json (Some [SegStr (js "a"); SegStr (js "b")]) (js "2")
    = Normal first
    /\ updateJsonAtPath sample_json (Some [SegStr (js "c"); SegNum (number_of_Z 0)])
         (js "x")
       = Normal second
    /\ updateJsonAtPath first (Some [SegStr (js "c"); SegNum (number_of_Z 0)]) (js "x")
       = Normal both
    /\ updateJsonAtPath second (Some [SegStr (js "a"); SegStr (js "b")]) (js "2")
       = Normal both.
Proof.
  refine (@updateJsonAtPath_commutes
            sample_json sample_doc (Some [SegStr (js "a"); SegStr (js "b")])
            (Some [SegStr (js "c"); SegNum (number_of_Z 0)]) (js "2") (js "x")
            _ _ eq_refl eq_refl eq_refl _).
  split; reflexivity.
Defined.

(* ================================================================== *)
(** * Further properties of saving *)
(* ================================================================== *)

(** X20. Replacing a value that is there, in an object or in an array,
    changes nothing elsewhere: for a path that leads to a value of the
    document, [updateJsonAtPath] returns a text that parses again, in
    which the path leads to the edited value and every path that parts
    ways with it leads to the value it led to before, as rendered. *)
Theorem updateJsonAtPath_replaces_in_place
  (jsonText : jsstring) (doc : json) (path : option (list segment))
  (newValue : jsstring) (old : json) :
  JSON.parse jsonText = Some doc ->
  locate doc (path_keys path) = Some old ->
  exists updated doc',
    updateJsonAtPath jsonText path newValue = Normal updated
    /\ JSON.parse updated = Some doc'
    /\ locate doc' (path_keys path) = Some (rendered (edited_value newValue))
    /\ forall q,
         diverge (path_keys path) q ->
         locate doc' q = option_map rendered (locate doc q).
Proof.
  intros Hdoc Hloc.
  set (P := path_keys path) in *. set (V := edited_value newValue).
  exists (JSON.stringify (replace_at doc P V)), (rendered (replace_at doc P V)).
  split; [|split; [|split]].
  - apply (@updateJsonAtPath_located _ _ path newValue old Hdoc Hloc).
  - apply parse_stringify.
    eapply wf_replace_at;
      [eapply JSON_parse_wf; eassumption|apply wf_edited_value|eassumption].
  - rewrite locate_rendered, (@locate_replace_at doc P V old Hloc). reflexivity.
  - intros q Hq. rewrite locate_rendered. f_equal.
    eapply replace_at_frame; eassumption.
Qed.

Lemma updateJsonAtPath_replaces_in_place_witness :
  exists updated doc',
    updateJsonAtPath sample_json (Some [SegStr (js "c"); SegNum (number_of_Z 0)])
      (js "[]")
    = Normal updated
    /\ JSON.parse updated = Some doc'
    /\ locate doc' [js "c"; js "0"] = Some (JArr [])
    /\ forall q,
         diverge [js "c"; js "0"] q ->
         locate doc' q = option_map rendered (locate sample_doc q).
Proof.
  exact (@updateJsonAtPath_replaces_in_place
           sample_json sample_doc (Some [SegStr (js "c"); SegNum (number_of_Z 0)])
           (js "[]") (JBool true) eq_refl eq_refl).
Defined.

(** X21. Edit and then Save without typing turns a string into what its
    text reads as: for a node of one row without a key whose value is a
    string that is the text of a JSON value (such as ["true"] or
    ["12"]), found at the node's path, the path leads afterwards to the
    parsed value and no longer to the string. *)
Theorem save_unchanged_string_is_reparsed
  (st : ModalState) (w : World) (node : NodeData) (row : NodeRow)
  (s : jsstring) (v doc : json) :
  selectedNode w = Some node ->
  text node = [row] ->
  truthy (row_key row) = false ->
  row_value row = VString s ->
  JSON.parse s = Some v ->
  JSON.parse (getJson w) = Some doc ->
  locate doc (path_keys (path node)) = Some (JStr s) ->
  exists st' w' doc',
    handleSave (handleEdit (resetEffect true st w)) w = Normal (st', w')
    /\ JSON.parse (jsonStore w') = Some doc'
    /\ locate doc' (path_keys (path node)) = Some (rendered v).
Proof.
  intros Hsel Htext Hkey Hrow Hs Hdoc Hloc.
  set (ks := path_keys (path node)) in *.
  assert (Hev : edited_value (normalizeNodeData (text node)) = v).
  { rewrite Htext, (@normalizeNodeData_keyless row Hkey), Hrow.
    unfold edited_value. cbn [ToString]. now rewrite Hs. }
  assert (Hup : updateJsonAtPath (getJson w) (path node)
                  (normalizeNodeData (text node))
                = Normal (JSON.stringify (replace_at doc ks v))).
  { rewrite (@updateJsonAtPath_located _ _ (path node) _ _ Hdoc Hloc).
    fold ks. now rewrite Hev. }
  destruct (@handleSave_unchanged st w node _ Hsel Hup) as (st' & Hsave).
  assert (Hwfv : wf_json v) by (eapply JSON_parse_wf; eassumption).
  exists st'. eexists. exists (rendered (replace_at doc ks v)).
  split; [exact Hsave|]. split.
  - cbn [jsonStore toast setJson]. apply parse_stringify.
    eapply wf_replace_at; [eapply JSON_parse_wf| |]; eassumption.
  - rewrite locate_rendered, (@locate_replace_at doc ks v _ Hloc). reflexivity.
Qed.

Lemma save_unchanged_string_is_reparsed_witness :
  exists st' w' doc',
    handleSave (handleEdit (resetEffect true initialState
                              (sample_reparsed sample_true_node)))
      (sample_reparsed sample_true_node)
    = Normal (st', w')
    /\ JSON.parse (jsonStore w') = Some doc'
    /\ locate doc' [js "flag"] = Some (JBool true).
Proof.
  exact (@save_unchanged_string_is_reparsed
           initialState (sample_reparsed sample_true_node) sample_true_node
           _ (js "true") (JBool true) (JObj [(js "flag", JStr (js "true"))])
           eq_refl eq_refl eq_refl eq_refl eq_refl eq_refl eq_refl).
Defined.

(** X22. Save with no node selected replaces the whole document: the
    path is then absent, and for a valid stored document both stores
    receive the serialization of the edited value alone. *)
Theorem save_without_selection_replaces_document
  (st : ModalState) (w : World) (doc : json) :
  selectedNode w = None ->
  JSON.parse (getJson w) = Some doc ->
  exists st' w',
    handleSave st w = Normal (st', w')
    /\ jsonStore w' = JSON.stringify (edited_value (editValue st))
    /\ contents (fileStore w') = JSON.stringify (edited_value (editValue st))
    /\ isEditing st' = false.
Proof.
  intros Hsel Hdoc. unfold handleSave, selectedPath. rewrite Hsel.
  unfold updateJsonAtPath, JSON_parse. rewrite Hdoc.
  cbn [bind try_catch]. eexists _, _. split; [reflexivity|].
  repeat split.
Qed.

Lemma save_without_selection_replaces_document_witness :
  exists st' w',
    handleSave (sample_state (js "[1]"))
      {| selectedNode := None; jsonStore := sample_json;
         fileStore := {| contents := sample_json; hasChanges := false |};
         toasts := [] |}
    = Normal (st', w')
    /\ jsonStore w' = JSON.stringify (edited_value (js "[1]"))
    /\ contents (fileStore w') = JSON.stringify (edited_value (js "[1]"))
    /\ isEditing st' = false.
Proof.
  exact (@save_without_selection_replaces_document
           (sample_state (js "[1]"))
           {| selectedNode := None; jsonStore := sample_json;
              fileStore := {| contents := sample_json; hasChanges := false |};
              toasts := [] |}
           sample_doc eq_refl eq_refl).
Defined.
